(** * Lightmap baker: atlas mapper, progressive renderer, compositor

    A shallow embedding of the core pieces of the lightmap baker:

    - [IrradianceAtlasMapper]: the scene traversal that validates meshes and
      unrolls indexed triangles into per-face payload vertices, and the
      rendering callback that hands the atlas map over;
    - [Atlas]: the layout of the faces ([computeFaceUV], [useMeshWithAtlas]),
      the atlas buffers, and the [useAtlas] frame callback (fill cursor,
      probe placement, probe averaging, atlas write);
    - [IrradianceCompositor]: the per-frame multiplier update, the additive
      composition of the layer textures, and the lookup of the layer buffers;
    - [IrradianceSceneManager]: the staging registry of meshes, the snapshot
      taken on start, and the handler of the finished atlas map.

    JavaScript numbers are modelled as exact rationals ([Q]) or integers
    ([Z], [nat]) where the code only ever holds integers; float rounding is
    not modelled.  The concrete inputs of the examples are chosen so that
    the floating-point computation is exact on them. *)

From stdpp Require Import base list strings gmap.
From Stdlib Require Import ZArith QArith Qround Qminmax Lia Lqa.

Local Open Scope Z_scope.

(** ** THREE.js data shared by the components *)

(** Textures only matter through their identity. *)
Definition Texture := nat.

(** The value stored in a [Float32Array] slot: reading past the end of the
    source array yields [undefined], which is stored as NaN. *)
Inductive float32 :=
| Finite (q : Q)
| NaN.

(** ** The atlas mapper *)

Module IrradianceAtlasMapper.

(** What can sit in [buffer.attributes.<name>]: a plain
    [THREE.BufferAttribute], or some other attribute object (an interleaved
    one) for which [instanceof THREE.BufferAttribute] is false. *)
Inductive Attribute :=
| BufferAttribute (itemSize : nat) (array : list Q)
| InterleavedBufferAttribute.

Record BufferGeometry := {
  index : option (list nat);          (* buffer.index, with its .array *)
  attributes_normal : option Attribute;
  attributes_uv2 : option Attribute
}.

Inductive Geometry :=
| LegacyGeometry
| Buffer (buffer : BufferGeometry).

Inductive MaterialKind :=
| MeshLambertMaterial
| MeshPhongMaterial
| MeshStandardMaterial
| MeshBasicMaterial.

(** [mesh.material]: absent, an array, or a single material with its
    [lightMap] slot. *)
Inductive Material :=
| NoMaterial
| MaterialArray
| Single (kind : MaterialKind) (lightMap : option Texture).

Inductive Object3D :=
| Group
| Mesh (geometry : Geometry) (material : Material).

Definition MAX_ITEM_FACES : Z := 1000.

(** The [Error]s thrown by the traversal, one constructor per message. *)
Inductive Error :=
| ExpectedFaceIndexArray
| ExpectedNormalAttribute
| ExpectedUv2Attribute
| UnsupportedMaterial
| ForeignLightMap.

Definition message (e : Error) : string :=
  match e with
  | ExpectedFaceIndexArray => "expected face index array"
  | ExpectedNormalAttribute => "expected normal attribute"
  | ExpectedUv2Attribute => "expected uv2 attribute"
  | UnsupportedMaterial =>
      "only single Lambert/Phong/standard materials are supported"
  | ForeignLightMap =>
      "do not set your own light map manually on baked scene meshes"
  end.

(** The specification's names for the validation errors.  The code has no
    error for a face count above [MAX_ITEM_FACES]. *)
Inductive ErrorKind :=
| UnsupportedGeometry
| MaterialConflict
| CapacityExceeded.

Definition kind_of (e : Error) : ErrorKind :=
  match e with
  | ExpectedFaceIndexArray | ExpectedNormalAttribute | ExpectedUv2Attribute =>
      UnsupportedGeometry
  | UnsupportedMaterial | ForeignLightMap => MaterialConflict
  end.

(** [dst.copyAt(index1, attribute, index2)]: the slice written at
    [index1 * dst.itemSize]; [dstItemSize] values are read from
    [index2 * attribute.itemSize] on. *)
Definition copyAt (dstItemSize srcItemSize : nat) (src : list Q)
    (index2 : nat) : list float32 :=
  (λ i, match src !! (index2 * srcItemSize + i)%nat with
        | Some q => Finite q
        | None => NaN
        end) <$> seq 0 dstItemSize.

(** A whole number as a [Float32Array] element holds it.  A 32-bit float
    has 24 significant bits: a whole number below [2 ^ 24] in size is kept
    as it is, and a larger one is rounded to the nearest multiple of
    [2 ^ (Z.log2 (Z.abs n) - 23)], a tie going to the even multiple.  (The
    float overflows to Infinity from about [2 ^ 128] on, which no index of
    an array reaches.) *)
Definition toFloat32 (n : Z) : Z :=
  let e := Z.log2 (Z.abs n) - 23 in
  if e <=? 0 then n
  else
    let ulp := 2 ^ e in
    let q := n / ulp in
    let r := n mod ulp in
    if 2 * r <? ulp then q * ulp
    else if ulp <? 2 * r then (q + 1) * ulp
    else if Z.even q then q * ulp
    else (q + 1) * ulp.

(** The [(x, y, z)] written by [atlasFacePosAttr.setXYZ] for one unrolled
    vertex; [atlasFacePosAttr] is a [Float32BufferAttribute], so the id is
    stored as a 32-bit float. *)
Definition facePos (itemIndex : nat) (faceVertexIndex : nat) : Z * Z * Z :=
  let faceMod := Z.rem (Z.of_nat faceVertexIndex) 3 in
  let facePosX := Z.land faceMod 1 in
  let facePosY := Z.shiftr (Z.land faceMod 2) 1 in
  let faceIndex := (Z.of_nat faceVertexIndex - faceMod) / 3 in
  (facePosX, facePosY,
   toFloat32 (Z.of_nat itemIndex * MAX_ITEM_FACES + faceIndex + 1)).

(** The per-face payload geometry ([atlasBuffer]). *)
Record PerFaceBuffer := {
  position : list (Z * Z * Z);     (* atlasFacePosAttr, one triple per vertex *)
  uv2 : list float32;              (* atlasUVAttr, flat *)
  normal : list float32            (* atlasNormalAttr, flat *)
}.

Record AtlasMapInternalItem := {
  faceCount : Q;
  perFaceBuffer : PerFaceBuffer;
  originalMesh : Object3D;
  originalBuffer : BufferGeometry
}.

(** The unrolling loop over [faceVertexIndex]. *)
Definition unroll (itemIndex : nat) (indexData : list nat)
    (uv2ItemSize : nat) (uv2Array : list Q)
    (normalItemSize : nat) (normalArray : list Q) : PerFaceBuffer :=
  let faceVertexCount := length indexData in
  {| position := facePos itemIndex <$> seq 0 faceVertexCount;
     uv2 := indexData ≫= copyAt 2 uv2ItemSize uv2Array;
     normal := indexData ≫= copyAt 3 normalItemSize normalArray |}.

(** What one call of the traversal callback does. *)
Inductive Visit :=
| Skip                                      (* early [return] *)
| Throw (e : Error) (pushed : bool)
| Push (item : AtlasMapInternalItem) (mesh' : Object3D).

Definition material_check (lightMap : Texture) (material : Material)
    : Error + Material :=
  match material with
  | NoMaterial | MaterialArray => inl UnsupportedMaterial
  | Single MeshBasicMaterial _ => inl UnsupportedMaterial
  | Single k (Some t) =>
      if decide (t = lightMap) then inr (Single k (Some lightMap))
      else inl ForeignLightMap
  | Single k None => inr (Single k (Some lightMap))
  end.

Definition visit (lightMap : Texture) (itemIndex : nat) (mesh : Object3D)
    : Visit :=
  match mesh with
  | Group => Skip
  | Mesh LegacyGeometry _ => Skip
  | Mesh (Buffer buffer) material =>
      match attributes_uv2 buffer with
      | None => Skip
      | Some uv2Attr =>
          match index buffer with
          | None => Throw ExpectedFaceIndexArray false
          | Some indexData =>
              match attributes_normal buffer with
              | None | Some InterleavedBufferAttribute =>
                  Throw ExpectedNormalAttribute false
              | Some (BufferAttribute nSize nArray) =>
                  match uv2Attr with
                  | InterleavedBufferAttribute =>
                      Throw ExpectedUv2Attribute false
                  | BufferAttribute uSize uArray =>
                      let item :=
                        {| faceCount :=
                             Qred (inject_Z (Z.of_nat (length indexData)) / 3);
                           perFaceBuffer :=
                             unroll itemIndex indexData uSize uArray
                                    nSize nArray;
                           originalMesh := mesh;
                           originalBuffer := buffer |} in
                      match material_check lightMap material with
                      | inl e => Throw e true
                      | inr material' =>
                          Push item (Mesh (Buffer buffer) material')
                      end
                  end
              end
          end
      end
  end.

(** [lightScene.traverse(...)] over the objects in traversal order, with the
    [items] gathered so far.  Returns the scene as the callback left it
    (light maps attached up to the failure, if any) and either the thrown
    error or the final [items]. *)
Fixpoint traverse (lightMap : Texture) (objects : list Object3D)
    (items : list AtlasMapInternalItem)
    : list Object3D * (Error + list AtlasMapInternalItem) :=
  match objects with
  | [] => ([], inr items)
  | o :: rest =>
      match visit lightMap (length items) o with
      | Skip =>
          let '(rest', r) := traverse lightMap rest items in (o :: rest', r)
      | Throw e _ => (o :: rest, inl e)
      | Push item o' =>
          let '(rest', r) := traverse lightMap rest (items ++ [item]) in
          (o' :: rest', r)
      end
  end.

(** The first effect of the component: [inputItems] is set only when the
    traversal returns; a throw leaves it [null]. *)
Definition inputItems (lightMap : Texture) (lightScene : list Object3D)
    : option (list AtlasMapInternalItem) :=
  match snd (traverse lightMap lightScene []) with
  | inl _ => None
  | inr items => Some items
  end.

(** Decoding as the specification words it (for ids at least 1). *)
Definition decodedFaceIndex (id : Z) : Z := Z.rem (id - 1) MAX_ITEM_FACES.
Definition decodedItemIndex (id : Z) : Z := (id - 1) / MAX_ITEM_FACES.

(** *** Meshes and scenes of the statements *)

(** A mesh of [n] triangles over three vertices, with everything the mapper
    asks for. *)
Definition triangles (n : nat) : Object3D :=
  Mesh (Buffer {| index := Some (mjoin (replicate n [0; 1; 2]%nat));
                  attributes_normal :=
                    Some (BufferAttribute 3 [0; 0; 1; 0; 0; 1; 0; 0; 1]%Q);
                  attributes_uv2 :=
                    Some (BufferAttribute 2 [0; 0; 1; 0; 0; 1]%Q) |})
       (Single MeshLambertMaterial None).

(** A participating mesh that passes every check of the callback. *)
Definition accepted (lightMap : Texture) (o : Object3D) : Prop :=
  ∃ buffer material indexData uSize uArray nSize nArray material',
    o = Mesh (Buffer buffer) material ∧
    index buffer = Some indexData ∧
    attributes_uv2 buffer = Some (BufferAttribute uSize uArray) ∧
    attributes_normal buffer = Some (BufferAttribute nSize nArray) ∧
    material_check lightMap material = inr material'.

(** The number of entries of the index buffer of a mesh. *)
Definition faceVertexCount (o : Object3D) : nat :=
  match o with
  | Mesh (Buffer buffer) _ => length (default [] (index buffer))
  | _ => 0
  end.

(** The triple the mapper writes for unrolled vertex [k] of item [i]. *)
Definition written (lightMap : Texture) (lightScene : list Object3D)
    (i k : nat) : option (Z * Z * Z) :=
  items ← inputItems lightMap lightScene;
  item ← items !! i;
  position (perFaceBuffer item) !! k.

(** The three ways a mesh can lack what the mapper reads. *)
Definition lacks_uv2 (o : Object3D) : Prop :=
  ∃ buffer material,
    o = Mesh (Buffer buffer) material ∧ attributes_uv2 buffer = None.

Definition lacks_index (o : Object3D) : Prop :=
  ∃ buffer material uv2Attr,
    o = Mesh (Buffer buffer) material ∧
    attributes_uv2 buffer = Some uv2Attr ∧ index buffer = None.

Definition lacks_normal (o : Object3D) : Prop :=
  ∃ buffer material uv2Attr indexData,
    o = Mesh (Buffer buffer) material ∧
    attributes_uv2 buffer = Some uv2Attr ∧
    index buffer = Some indexData ∧ attributes_normal buffer = None.

(** A mesh with an index buffer and normals, but no uv2 attribute. *)
Definition without_uv2 : Object3D :=
  Mesh (Buffer {| index := Some [0; 1; 2]%nat;
                  attributes_normal :=
                    Some (BufferAttribute 3 [0; 0; 1; 0; 0; 1; 0; 0; 1]%Q);
                  attributes_uv2 := None |})
       (Single MeshLambertMaterial None).

Definition without_index : Object3D :=
  Mesh (Buffer {| index := None;
                  attributes_normal :=
                    Some (BufferAttribute 3 [0; 0; 1; 0; 0; 1; 0; 0; 1]%Q);
                  attributes_uv2 :=
                    Some (BufferAttribute 2 [0; 0; 1; 0; 0; 1]%Q) |})
       (Single MeshLambertMaterial None).

(** A mesh the callback does not skip: a buffer geometry with a uv2
    attribute. *)
Definition participates (o : Object3D) : bool :=
  match o with
  | Mesh (Buffer buffer) _ => bool_decide (is_Some (attributes_uv2 buffer))
  | _ => false
  end.

(** The mesh with [lightMap] in the slot of its single material. *)
Definition attach (lightMap : Texture) (o : Object3D) : Object3D :=
  match o with
  | Mesh geometry (Single kind _) => Mesh geometry (Single kind (Some lightMap))
  | _ => o
  end.

(** The scene with its materials as the objects they are.  A mesh holds
    a reference to its material, two meshes can hold the same one, and
    [material.lightMap = lightMap] done through one mesh then shows on the
    other.  [Materials] are the material objects by reference; a dangling
    reference stands for a mesh without material. *)
Inductive Node :=
| GroupNode
| MeshNode (geometry : Geometry) (material : nat).

Abbreviation Materials := (list Material).

(** The mesh as the callback sees it, its material read through the
    reference. *)
Definition deref (materials : Materials) (n : Node) : Object3D :=
  match n with
  | GroupNode => Group
  | MeshNode geometry ref =>
      Mesh geometry (default NoMaterial (materials !! ref))
  end.

(** [material.lightMap = lightMap]: the material object of the mesh is
    updated in place. *)
Definition assign (materials : Materials) (n : Node) (mesh' : Object3D)
    : Materials :=
  match n, mesh' with
  | MeshNode _ ref, Mesh _ material' => <[ref := material']> materials
  | _, _ => materials
  end.

(** [lightScene.traverse(...)] over nodes that share material objects: the
    same callback, [visit], run on each node with the materials as they
    are by then.  Returns the materials as the callback left them and
    either the thrown error or the final [items].  [traverse] above is the
    traversal of a scene in which no two meshes share a material. *)
Fixpoint traverse_shared (lightMap : Texture) (nodes : list Node)
    (materials : Materials) (items : list AtlasMapInternalItem)
    : Materials * (Error + list AtlasMapInternalItem) :=
  match nodes with
  | [] => (materials, inr items)
  | n :: rest =>
      match visit lightMap (length items) (deref materials n) with
      | Skip => traverse_shared lightMap rest materials items
      | Throw e _ => (materials, inl e)
      | Push item mesh' =>
          traverse_shared lightMap rest (assign materials n mesh')
                          (items ++ [item])
      end
  end.

(** A node the callback does not skip. *)
Definition participating (n : Node) : bool := participates (deref [] n).

(** The material references of the meshes, and of the participating
    ones. *)
Definition references (nodes : list Node) : list nat :=
  nodes ≫= λ n, match n with MeshNode _ ref => [ref] | GroupNode => [] end.

Definition referenced (nodes : list Node) : list nat :=
  references (filter (λ n, participating n = true) nodes).

(** The material with [lightMap] in its slot, if it has one. *)
Definition lit (lightMap : Texture) (material : Material) : Material :=
  match material with
  | Single kind _ => Single kind (Some lightMap)
  | _ => material
  end.

(** The node of a mesh, with its material behind the reference given. *)
Definition node_of (o : Object3D) (ref : nat) : Node :=
  match o with
  | Group => GroupNode
  | Mesh geometry _ => MeshNode geometry ref
  end.

(** What [copyAt] stores for the source slot [n]. *)
Definition slot (src : list Q) (n : nat) : float32 :=
  match src !! n with
  | Some q => Finite q
  | None => NaN
  end.

(** A geometry with everything the callback reads. *)
Definition complete (buffer : BufferGeometry) : Prop :=
  is_Some (index buffer) ∧
  (∃ uSize uArray,
     attributes_uv2 buffer = Some (BufferAttribute uSize uArray)) ∧
  (∃ nSize nArray,
     attributes_normal buffer = Some (BufferAttribute nSize nArray)).

(** One triangle with two-component uv2 and three-component normals. *)
Definition triangle : BufferGeometry :=
  {| index := Some [2; 0; 1]%nat;
     attributes_normal :=
       Some (BufferAttribute 3 [0; 0; 1; 0; 1; 0; 1; 0; 0]%Q);
     attributes_uv2 :=
       Some (BufferAttribute 2 [0; 0; 1 # 2; 0; 0; 1 # 4]%Q) |}.

(** *** Handing the atlas map over (lines 260-317) *)

(** A render target (or its texture): the one the mapper creates, or
    another one. *)
Inductive RenderTarget := orthoTarget | elsewhere (id : nat).

(** The map given to [onComplete]. *)
Module Output.

Record AtlasMapItem := {
  faceCount : Q;
  originalMesh : Object3D;
  originalBuffer : BufferGeometry
}.

Record AtlasMap := {
  width : nat;
  height : nat;
  items : list AtlasMapItem;
  data : list Q;                      (* the float target, read back *)
  texture : RenderTarget
}.

End Output.

(** The component's refs and state. *)
Module Component.

Record State := {
  widthRef : nat;
  heightRef : nat;
  inputItems : option (list AtlasMapInternalItem);
  isComplete : bool
}.

End Component.

(** The state after the first effect has run on [lightScene]. *)
Definition mounted (width height : nat) (lightMap : Texture)
    (lightScene : list Object3D) : Component.State :=
  {| Component.widthRef := width;
     Component.heightRef := height;
     Component.inputItems := inputItems lightMap lightScene;
     Component.isComplete := false |}.

(** [({ faceCount, originalMesh, originalBuffer }) => ({ ... })]. *)
Definition exported (item : AtlasMapInternalItem) : Output.AtlasMapItem :=
  {| Output.faceCount := faceCount item;
     Output.originalMesh := originalMesh item;
     Output.originalBuffer := originalBuffer item |}.

(** The part of the WebGL renderer the rendering callback touches; the
    render target is [None] for [null], the canvas. *)
Record WebGLRenderer := {
  clearColor : string;
  clearAlpha : Q;
  autoClear : bool;
  renderTarget : option RenderTarget
}.

(** Can be an arbitrary colour (empty pixels are ignored due to zero
    alpha). *)
Definition ATLAS_BG_COLOR : string := "#000000".

Definition setRenderTarget (gl : WebGLRenderer)
    (target : option RenderTarget) : WebGLRenderer :=
  {| clearColor := clearColor gl; clearAlpha := clearAlpha gl;
     autoClear := autoClear gl; renderTarget := target |}.

Definition setClearColor (gl : WebGLRenderer) (color : string) (alpha : Q)
    : WebGLRenderer :=
  {| clearColor := color; clearAlpha := alpha;
     autoClear := autoClear gl; renderTarget := renderTarget gl |}.

Definition set_autoClear (gl : WebGLRenderer) (value : bool)
    : WebGLRenderer :=
  {| clearColor := clearColor gl; clearAlpha := clearAlpha gl;
     autoClear := value; renderTarget := renderTarget gl |}.

Section Rendering.

(** [gl.render(orthoScene, orthoCamera)]: the floats that the renderer, in
    the state given, leaves in its render target for a scene of the
    per-face buffers given. *)
Variable render : WebGLRenderer → list PerFaceBuffer → list Q.

(** One run of the rendering callback on the renderer [gl]: the renderer
    and the state it leaves, and the map passed to [onComplete], if it is
    called. *)
Definition useUpdate (gl : WebGLRenderer) (st : Component.State)
    : WebGLRenderer * Component.State * option Output.AtlasMap :=
  match Component.inputItems st with
  | None => (gl, st, None)
  | Some items =>
      if Component.isComplete st then (gl, st, None)
      else
        (* save existing renderer state *)
        let prevClearColor := clearColor gl in
        let prevClearAlpha := clearAlpha gl in
        let prevAutoClear := autoClear gl in
        (* produce the output *)
        let gl := setRenderTarget gl (Some orthoTarget) in
        let gl := setClearColor gl ATLAS_BG_COLOR 0 in
        let gl := set_autoClear gl true in
        let orthoData := render gl (perFaceBuffer <$> items) in
        (* restore previous renderer state *)
        let gl := setRenderTarget gl None in
        let gl := setClearColor gl prevClearColor prevClearAlpha in
        let gl := set_autoClear gl prevAutoClear in
        (gl,
         {| Component.widthRef := Component.widthRef st;
            Component.heightRef := Component.heightRef st;
            Component.inputItems := None;
            Component.isComplete := true |},
         Some {| Output.width := Component.widthRef st;
                 Output.height := Component.heightRef st;
                 Output.items := exported <$> items;
                 Output.data := orthoData;
                 Output.texture := orthoTarget |})
  end.

(** The maps handed over by successive runs of the callback, each on the
    renderer as it is then. *)
Fixpoint delivered (renderers : list WebGLRenderer) (st : Component.State)
    : list Output.AtlasMap :=
  match renderers with
  | [] => []
  | gl :: rest =>
      let '(_, st', out) := useUpdate gl st in
      match out with
      | Some atlasMap => atlasMap :: delivered rest st'
      | None => delivered rest st'
      end
  end.

End Rendering.

(** The four floats of texel [t] of the data read back from the target. *)
Definition orthoTexel (data : list Q) (t : nat) : option (Q * Q * Q * Q) :=
  match drop (4 * t) data with
  | r :: g :: b :: a :: _ => Some (r, g, b, a)
  | _ => None
  end.

(** What the shaders of the ortho scene do, as far as the ids go.  The
    vertex shader hands [position] to the fragment shader as [vFacePos]
    and the fragment shader writes [vec4(vFacePos.xyz, 1.0)]; nothing is
    blended and there is no depth buffer.  So, once the target is cleared
    to [ATLAS_BG_COLOR] with alpha zero, a texel that no face covers is
    blank, and a texel that a face covers has alpha 1 and, in its third
    float, the third coordinate of the face's vertices where the three
    agree.  (This takes the GPU's interpolation of a constant to give back
    the constant, which the 32-bit float target can hold.) *)
Definition copies_face_ids
    (render : WebGLRenderer → list PerFaceBuffer → list Q) : Prop :=
  ∀ gl buffers (t : nat) r g b a,
    clearColor gl = ATLAS_BG_COLOR →
    (clearAlpha gl == 0)%Q →
    orthoTexel (render gl buffers) t = Some (r, g, b, a) →
    ((b == 0)%Q ∧ (a == 0)%Q) ∨
    ((a == 1)%Q ∧
     ∃ (i f : nat) buffer x0 y0 z0 x1 y1 z1 x2 y2 z2,
       buffers !! i = Some buffer ∧
       position buffer !! (3 * f)%nat = Some (x0, y0, z0) ∧
       position buffer !! (3 * f + 1)%nat = Some (x1, y1, z1) ∧
       position buffer !! (3 * f + 2)%nat = Some (x2, y2, z2) ∧
       (z0 = z1 → z1 = z2 → b = inject_Z z0)).

(** A sample renderer with a target of one texel, which the first face of
    the last buffer covers, seen at its centre; without such a face the
    texel is left as cleared, black times the clear alpha. *)
Definition single_texel (gl : WebGLRenderer) (buffers : list PerFaceBuffer)
    : list Q :=
  match last buffers with
  | Some buffer =>
      match position buffer with
      | (_, _, z0) :: _ :: _ :: _ => [1 # 3; 1 # 3; inject_Z z0; 1]%Q
      | _ => [0; 0; 0; clearAlpha gl]%Q
      end
  | None => [0; 0; 0; clearAlpha gl]%Q
  end.

End IrradianceAtlasMapper.

(** ** The progressive renderer ([useAtlas]) *)

Module Atlas.

Definition atlasWidth : Z := 128.
Definition atlasHeight : Z := 128.
Definition probeTargetSize : Z := 32.

Record Vector3 := { x : Q; y : Q; z : Q }.

(** [mesh.matrixWorld.elements], column-major. *)
Record Mesh := { matrixWorld : list Q }.

(** The geometry of a registered mesh as the frame callback reads it: the
    arrays of its position and normal attributes.  Both attributes are
    taken to be there; a geometry without normals, on which the callback
    throws a TypeError at [buffer.attributes.normal.array], is not covered. *)
Record BufferGeometry := {
  attributes_position_array : list Q;
  attributes_normal_array : list Q
}.

(** An integer-valued JavaScript number, [None] standing for a value that
    is not a finite number (NaN, or an infinity that turns into NaN in the
    next operation). *)
Definition int := option Z.

Record AtlasItem := {
  mesh : Mesh;
  buffer : BufferGeometry;
  faceIndex : nat;
  left : Q;
  top : Q;
  right : Q;
  bottom : Q;
  pixelFillCount : int
}.

(** A [Uint8Array] with its [DataTexture]; [version] is the version of
    the texture, which counts the [needsUpdate = true] assignments, the
    one made by the constructor of [DataTexture] included. *)
Record AtlasTexture := { data : list Z; version : nat }.

(** The probe camera: where it is (in world space), its up vector, and the
    point, in the space of the mesh, it was last told to look at ([None]
    before the first [lookAt]).  The vectors are [None] after a frame that
    met a number that is not finite. *)
Record PerspectiveCamera := {
  position : option Vector3;
  up : option Vector3;
  target : option Vector3
}.

Record State := {
  atlasInfo : list AtlasItem;
  atlasFaceFillIndexRef : nat;
  atlasStack : list AtlasTexture;
  probeCam : PerspectiveCamera;
  probeData : list Z;
  probeDebugTexture : nat
}.

(** The pre-fill loop of [createAtlasTexture], [n] iterations from
    counter [i] on: a grid of black lines every eighth texel, on white. *)
Fixpoint test_pattern (atlasWidth : Z) (n : nat) (i : Z) : list Z :=
  match n with
  | O => []
  | S n =>
      let x := Z.rem i atlasWidth in
      let y := i / atlasWidth in
      let v := if decide (Z.rem x 8 = 0 ∨ Z.rem y 8 = 0) then 0 else 255 in
      v :: v :: v :: test_pattern atlasWidth n (i + 1)
  end.

(** [createAtlasTexture]: a zeroed RGB byte array, optionally pre-filled
    with the test pattern, in a new [DataTexture], whose constructor sets
    [needsUpdate = true]. *)
Definition createAtlasTexture (atlasWidth atlasHeight : Z)
    (fillWithPattern : bool) : AtlasTexture :=
  let atlasSize := Z.to_nat (atlasWidth * atlasHeight) in
  {| data :=
       if fillWithPattern then test_pattern atlasWidth atlasSize 0
       else replicate (3 * atlasSize) 0;
     version := 1 |}.

(** [useRef(4)]. *)
Definition atlasFaceFillIndexRef_initial : nat := 4.

(** The state of [useAtlas] when the frame callback first sees the faces
    [info] registered by the meshes. *)
Definition initial (info : list AtlasItem) : State :=
  {| atlasInfo := info;
     atlasFaceFillIndexRef := atlasFaceFillIndexRef_initial;
     atlasStack := [createAtlasTexture atlasWidth atlasHeight true;
                    createAtlasTexture atlasWidth atlasHeight false];
     probeCam := {| position := Some {| x := 0; y := 0; z := 0 |};
                    up := Some {| x := 0; y := 1; z := 0 |};
                    target := None |};
     probeData := replicate (Z.to_nat (probeTargetSize * probeTargetSize * 4)) 0;
     probeDebugTexture := 1 |}.

(** *** Integer arithmetic as JavaScript does it *)

(** [a % b]: sign of the dividend, NaN for a zero divisor. *)
Definition js_rem (a : int) (b : Z) : int :=
  match a with
  | Some a => if decide (b = 0) then None else Some (Z.rem a b)
  | None => None
  end.

(** [Math.floor(a / b)]. *)
Definition js_floor_div (a : int) (b : Z) : int :=
  match a with
  | Some a => if decide (b = 0) then None else Some (a / b)
  | None => None
  end.

Definition js_succ (a : int) : int := (λ a, a + 1) <$> a.

Definition Math_round (q : Q) : Z := Qfloor (q + (1 # 2))%Q.

(** *** The fill cursor (lines 202-235) *)

Definition faceTexelCols (i : AtlasItem) : Z :=
  Qceiling ((right i - left i) * inject_Z atlasWidth)%Q.
Definition faceTexelRows (i : AtlasItem) : Z :=
  Qceiling ((bottom i - top i) * inject_Z atlasHeight)%Q.

Definition set_pixelFillCount (i : AtlasItem) (n : int) : AtlasItem :=
  {| mesh := mesh i; buffer := buffer i; faceIndex := faceIndex i;
     left := left i; top := top i; right := right i; bottom := bottom i;
     pixelFillCount := n |}.

Record Cursor := {
  currentAtlasFaceIndex : nat;
  faceTexelX : int;
  faceTexelY : int;
  promoted : bool                     (* [setAtlasStack] was called *)
}.

(** The cursor part of the frame callback, after the readiness check:
    [None] is the [TypeError] of destructuring [undefined]. *)
Definition advance (info : list AtlasItem) (current : nat)
    : option (list AtlasItem * nat * Cursor) :=
  atlasFaceInfo ← info !! current;
  let fillCount := pixelFillCount atlasFaceInfo in
  let cols := faceTexelCols atlasFaceInfo in
  let rows := faceTexelRows atlasFaceInfo in
  let fillCount' := js_rem (js_succ fillCount) (rows * cols) in
  let info' := <[current := set_pixelFillCount atlasFaceInfo fillCount']> info in
  let next :=
    if decide (fillCount' = Some 0) then ((current + 1) mod length info)%nat
    else current in
  let promote :=
    bool_decide (fillCount' = Some 0 ∧ next = 4%nat) in
  Some (info', next,
        {| currentAtlasFaceIndex := current;
           faceTexelX := js_rem fillCount cols;
           faceTexelY := js_floor_div fillCount cols;
           promoted := promote |}).

(** [setAtlasStack]'s updater: the last item becomes the first.  (The
    stack starts with two items and is never empty.) *)
Definition promote_stack (prev : list AtlasTexture) : list AtlasTexture :=
  match last prev with
  | Some l => l :: take (length prev - 1)%nat prev
  | None => prev
  end.

(** *** Probe placement (lines 237-298) *)

(** Three consecutive array slots as a vector; [None] when a slot is
    [undefined], which makes the arithmetic below NaN. *)
Definition read3 (array : list Q) (start : nat) : option Vector3 :=
  a ← array !! start;
  b ← array !! (start + 1)%nat;
  c ← array !! (start + 2)%nat;
  Some {| x := a; y := b; z := c |}.

Definition vsub (a b : Vector3) : Vector3 :=
  {| x := (x a - x b)%Q; y := (y a - y b)%Q; z := (z a - z b)%Q |}.
Definition vadd (a b : Vector3) : Vector3 :=
  {| x := (x a + x b)%Q; y := (y a + y b)%Q; z := (z a + z b)%Q |}.

(** [a / b] on finite numbers; not finite for a zero divisor. *)
Definition js_div (a b : Q) : option Q :=
  if Qeq_bool b 0 then None else Some (a / b)%Q.

(** [Object3D.applyMatrix4] on the position: the translation column of
    [matrix * compose(position, quaternion, scale)]. *)
Definition applyMatrix4 (e : list Q) (p : Vector3) : option Vector3 :=
  match e with
  | [e0; e1; e2; _; e4; e5; e6; _; e8; e9; e10; _; e12; e13; e14; _] =>
      Some {| x := (e0 * x p + e4 * y p + e8 * z p + e12)%Q;
              y := (e1 * x p + e5 * y p + e9 * z p + e13)%Q;
              z := (e2 * x p + e6 * y p + e10 * z p + e14)%Q |}
  | _ => None
  end.

Record Placement := {
  pU : Q;
  pV : Q;
  dU : Vector3;
  dV : Vector3;
  texelPos : Vector3;                 (* as passed to [position.copy] *)
  lookAtTarget : Vector3              (* [texelPos] after the [+=] *)
}.

(** The placement of the probe in mesh-local space for the texel at
    [(atlasTexelX, atlasTexelY)]; [None] when some number involved is not
    finite. *)
Definition place (i : AtlasItem) (atlasTexelX atlasTexelY : int)
    : option Placement :=
  tx ← atlasTexelX;
  ty ← atlasTexelY;
  let itemSizeU := ((right i - left i) * inject_Z atlasWidth)%Q in
  let itemSizeV := ((bottom i - top i) * inject_Z atlasHeight)%Q in
  let atlasTexelLeft := (left i * inject_Z atlasWidth)%Q in
  let atlasTexelTop := (top i * inject_Z atlasWidth)%Q in
  pU ← js_div (inject_Z tx + (1 # 2) - atlasTexelLeft)%Q itemSizeU;
  pV ← js_div (inject_Z ty + (1 # 2) - atlasTexelTop)%Q itemSizeV;
  let posArray := attributes_position_array (buffer i) in
  let normalArray := attributes_normal_array (buffer i) in
  let facePosStart := (faceIndex i * 4 * 3)%nat in
  let facePosOrigin := (facePosStart + 2 * 3)%nat in
  let facePosU := (facePosStart + 3 * 3)%nat in
  let facePosV := facePosStart in
  let faceNormalStart := (faceIndex i * 4 * 3)%nat in
  o ← read3 posArray facePosOrigin;
  u ← read3 posArray facePosU;
  v ← read3 posArray facePosV;
  n ← read3 normalArray faceNormalStart;
  let dU := vsub u o in
  let dV := vsub v o in
  let texelPos :=
    {| x := (x o + x dU * pU + x dV * pV)%Q;
       y := (y o + y dU * pU + y dV * pV)%Q;
       z := (z o + z dU * pU + z dV * pV)%Q |} in
  Some {| pU := pU; pV := pV; dU := dU; dV := dV;
          texelPos := texelPos; lookAtTarget := vadd texelPos n |}.

(** *** Probe averaging and the atlas write (lines 300-335) *)

(** The summing loop; the buffer holds whole RGBA pixels. *)
Fixpoint probe_sum (probeData : list Z) : Z * Z * Z :=
  match probeData with
  | r :: g :: b :: _ :: rest =>
      let '(r', g', b') := probe_sum rest in (r + r', g + g', b + b')
  | _ => (0, 0, 0)
  end.

Definition pixelCount : Z := probeTargetSize * probeTargetSize.

Definition average (s : Z) : Z :=
  Math_round (inject_Z s / inject_Z pixelCount)%Q.

(** [data.set([ar, ag, ab], offset)] on a [Uint8Array]; [None] is the
    [RangeError] of an out-of-range offset. *)
Definition set3 (data : list Z) (offset : Z) (v : Z * Z * Z)
    : option (list Z) :=
  let '(r, g, b) := v in
  if decide (0 ≤ offset ∧ offset + 3 ≤ Z.of_nat (length data)) then
    let o := Z.to_nat offset in
    Some (<[(o + 2)%nat := b mod 256]>
            (<[(o + 1)%nat := g mod 256]> (<[o := r mod 256]> data)))
  else None.

(** The offset of a texel in the atlas data; a NaN offset converts to 0. *)
Definition texel_offset (atlasTexelX atlasTexelY : int) : Z :=
  match atlasTexelX, atlasTexelY with
  | Some tx, Some ty => (ty * atlasWidth + tx) * 3
  | _, _ => 0
  end.

Inductive Exception := TypeError | RangeError.

Record Frame := {
  cursor : Cursor;
  atlasTexelX : int;
  atlasTexelY : int;
  placement : option Placement;
  estimate : Z * Z * Z                (* [ar, ag, ab] *)
}.

Inductive Outcome :=
| NotReady                            (* the early [return] *)
| Threw (e : Exception) (st : State)  (* the state when the exception left *)
| Rendered (st : State) (f : Frame).

Section Tick.

(** [Math.cos], [Math.sin] and [Math.PI], which have no rational model. *)
Variables (Math_cos Math_sin : Q → Q) (Math_PI : Q).

(** [probeCam.up.set(...)] for the angle drawn at this visit. *)
Definition up_vector (dU dV : Vector3) (random : Q) : Vector3 :=
  let upAngle := (random * Math_PI)%Q in
  let upAngleCos := Math_cos upAngle in
  let upAngleSin := Math_sin upAngle in
  {| x := (x dU * upAngleCos - x dV * upAngleSin)%Q;
     y := (y dU * upAngleCos - y dV * upAngleSin)%Q;
     z := (z dU * upAngleCos - z dV * upAngleSin)%Q |}.

(** One call of the frame callback.  [random] is what [Math.random()]
    returns in it and [readback] what [readRenderTargetPixels] leaves in
    [probeData]; the calls of the renderer are taken to return. *)
Definition tick (random : Q) (readback : list Z) (st : State) : Outcome :=
  if decide (length (atlasInfo st) = 0%nat) then NotReady else
  let current := atlasFaceFillIndexRef st in
  match atlasInfo st !! current, advance (atlasInfo st) current with
  | Some atlasFaceInfo, Some (info', next, c) =>
      let tx := (λ fx, Qfloor (left atlasFaceInfo * inject_Z atlasWidth)%Q + fx)
                  <$> faceTexelX c in
      let ty := (λ fy, Qfloor (top atlasFaceInfo * inject_Z atlasWidth)%Q + fy)
                  <$> faceTexelY c in
      let pl := place atlasFaceInfo tx ty in
      let cam :=
        {| position :=
             p ← pl; applyMatrix4 (matrixWorld (mesh atlasFaceInfo)) (texelPos p);
           up := (λ p, up_vector (dU p) (dV p) random) <$> pl;
           target := lookAtTarget <$> pl |} in
      let '(r, g, b) := probe_sum readback in
      let est := (average r, average g, average b) in
      (* the state the callback leaves, given the stack as written so far;
         a promotion requested above reorders it before the next frame *)
      let st1 stack :=
        {| atlasInfo := info';
           atlasFaceFillIndexRef := next;
           atlasStack := if promoted c then promote_stack stack else stack;
           probeCam := cam;
           probeData := readback;
           probeDebugTexture := S (probeDebugTexture st) |} in
      let f := {| cursor := c; atlasTexelX := tx; atlasTexelY := ty;
                  placement := pl; estimate := est |} in
      match atlasStack st with
      | [] => Threw TypeError (st1 (atlasStack st))
      | t0 :: ts =>
          match set3 (data t0) (texel_offset tx ty) est with
          | None => Threw RangeError (st1 (atlasStack st))
          | Some data' =>
              Rendered
                (st1 ({| data := data'; version := S (version t0) |} :: ts)) f
          end
      end
  | _, _ => Threw TypeError st
  end.

(** Consecutive frames, up to the first that throws or finds the atlas
    not ready: the frames rendered and the state reached. *)
Fixpoint ticks (inputs : list (Q * list Z)) (st : State)
    : list Frame * State :=
  match inputs with
  | [] => ([], st)
  | (random, readback) :: rest =>
      match tick random readback st with
      | Rendered st' f =>
          let '(fs, st'') := ticks rest st' in (f :: fs, st'')
      | Threw _ st' => ([], st')
      | NotReady => ([], st)
      end
  end.

End Tick.

(** *** Observing a frame *)

(** The state a frame leaves behind, and the exception it lets escape. *)
Definition state_after (st : State) (o : Outcome) : State :=
  match o with
  | NotReady => st
  | Threw _ st' => st'
  | Rendered st' _ => st'
  end.

Definition raised (o : Outcome) : option Exception :=
  match o with
  | Threw e _ => Some e
  | _ => None
  end.

(** What a frame that ran to its end did. *)
Definition frame_of (o : Outcome) : option Frame :=
  match o with
  | Rendered _ f => Some f
  | _ => None
  end.

(** The texel of the atlas a frame works on. *)
Definition texel_of (item : AtlasItem) (c : Cursor) : int * int :=
  ((λ fx, Qfloor (left item * inject_Z atlasWidth) + fx) <$> faceTexelX c,
   (λ fy, Qfloor (top item * inject_Z atlasWidth) + fy) <$> faceTexelY c).

(** *** Walking the faces *)

(** The number of texels of a face, and the faces the cursor can walk:
    those with at least one texel. *)
Definition texels (item : AtlasItem) : Z :=
  faceTexelRows item * faceTexelCols item.

Definition walkable (item : AtlasItem) : Prop :=
  0 < faceTexelCols item ∧ 0 < faceTexelRows item.

(** The cursor of the frame that visits texel number [k], row by row, of
    face [c] in an atlas of [n] faces. *)
Definition visit (n c : nat) (item : AtlasItem) (k : Z) : Cursor :=
  {| currentAtlasFaceIndex := c;
     faceTexelX := Some (Z.rem k (faceTexelCols item));
     faceTexelY := Some (k / faceTexelCols item);
     promoted :=
       bool_decide (k + 1 = texels item ∧ ((c + 1) mod n)%nat = 4%nat) |}.

(** All visits of face [c], in order; nothing for an index out of range. *)
Definition face_visits (info : list AtlasItem) (c : nat) : list Cursor :=
  match info !! c with
  | Some item => visit (length info) c item <$> seqZ 0 (texels item)
  | None => []
  end.

(** [count] consecutive face indices from [c] on, wrapping around. *)
Definition faces_from (n c count : nat) : list nat :=
  (λ j, (c + j) mod n)%nat <$> seq 0 count.

(** The number of texels of the faces listed. *)
Definition texel_count (info : list AtlasItem) (faces : list nat) : nat :=
  length (faces ≫= face_visits info).

(** [n] consecutive cursor steps. *)
Fixpoint advances (n : nat) (info : list AtlasItem) (current : nat)
    : option (list Cursor * list AtlasItem * nat) :=
  match n with
  | O => Some ([], info, current)
  | S n =>
      '(info', next, c) ← advance info current;
      '(cs, info'', final) ← advances n info' next;
      Some (c :: cs, info'', final)
  end.

(** *** Frames that are sure to render *)

(** The face lies inside the atlas. *)
Definition rect_ok (item : AtlasItem) : Prop :=
  0 ≤ Qfloor (left item * inject_Z atlasWidth) ∧
  Qfloor (left item * inject_Z atlasWidth) + faceTexelCols item ≤ atlasWidth ∧
  0 ≤ Qfloor (top item * inject_Z atlasWidth) ∧
  Qfloor (top item * inject_Z atlasWidth) + faceTexelRows item ≤ atlasHeight.

(** The stack holds at least one buffer, each of the size of the atlas. *)
Definition stack_ok (stack : list AtlasTexture) : Prop :=
  stack ≠ [] ∧
  Forall (λ t, Z.of_nat (length (data t)) = 3 * (atlasWidth * atlasHeight))
         stack.

(** The fill count of the face is one of its texels. *)
Definition in_progress (item : AtlasItem) : Prop :=
  ∃ k, pixelFillCount item = Some k ∧ 0 ≤ k < texels item.

Definition ready (st : State) : Prop :=
  stack_ok (atlasStack st) ∧
  (atlasFaceFillIndexRef st < length (atlasInfo st))%nat ∧
  Forall (λ item, walkable item ∧ rect_ok item ∧ in_progress item)
         (atlasInfo st).

(** *** Interpolation across a face *)

(** Corner [k] (0 to 3) of the face of [item], read from a vertex array. *)
Definition corner (array : list Q) (item : AtlasItem) (k : nat)
    : option Vector3 :=
  read3 array (faceIndex item * 4 * 3 + k * 3)%nat.

(** Bilinear interpolation across a quad as the specification words it,
    from the values at the corners (0,0), (1,0), (0,1) and (1,1). *)
Definition lerp2 (c00 c10 c01 c11 u v : Q) : Q :=
  (1 - u) * (1 - v) * c00 + u * (1 - v) * c10 +
  (1 - u) * v * c01 + u * v * c11.

Definition bilinear (c00 c10 c01 c11 : Vector3) (u v : Q) : Vector3 :=
  {| x := lerp2 (x c00) (x c10) (x c01) (x c11) u v;
     y := lerp2 (y c00) (y c10) (y c01) (y c11) u v;
     z := lerp2 (z c00) (z c10) (z c01) (z c11) u v |}.

Definition scale (k : Q) (a : Vector3) : Vector3 :=
  {| x := k * x a; y := k * y a; z := k * z a |}.

Definition veq (a b : Vector3) : Prop :=
  (x a == x b)%Q ∧ (y a == y b)%Q ∧ (z a == z b)%Q.

(** The point the specification describes: the bilinear interpolation at
    [(u, v)] of the four corners of the face, read from [array]. *)
Definition interpolated (array : list Q) (item : AtlasItem) (u v : Q)
    : option Vector3 :=
  c00 ← corner array item 2;
  c10 ← corner array item 3;
  c01 ← corner array item 0;
  c11 ← corner array item 1;
  Some (bilinear c00 c10 c01 c11 u v).

(** Componentwise reduction to lowest terms. *)
Definition vred (a : Vector3) : Vector3 :=
  {| x := Qred (x a); y := Qred (y a); z := Qred (z a) |}.

(** *** Averaging and writing *)

(** The unweighted mean of a channel whose bytes add up to [s]. *)
Definition mean (s : Z) : Q := inject_Z s / inject_Z pixelCount.

(** The readback pixel by pixel: byte [c] (0 red, 1 green, 2 blue) of each
    of its pixels, the sum of these, and the unweighted mean of the channel
    over all the pixels of the readback. *)
Definition channel_bytes (readback : list Z) (c : nat) : list Z :=
  (λ j, default 0 (readback !! (4 * j + c)%nat))
    <$> seq 0 (length readback / 4).

Definition channel_sum (readback : list Z) (c : nat) : Z :=
  foldr Z.add 0 (channel_bytes readback c).

Definition channel_mean (readback : list Z) (c : nat) : Q :=
  inject_Z (channel_sum readback c) /
  inject_Z (Z.of_nat (length (channel_bytes readback c))).

(** The offset in the atlas data of the texel that the frame on [item]
    fills: three bytes per texel, row by row, the texel at column
    [fillCount % cols] and row [floor (fillCount / cols)] of the face,
    counted from the texel of its left top corner.  With a fill count or a
    column count that makes these NaN the offset is 0. *)
Definition slot_offset (item : AtlasItem) : Z :=
  let cols := faceTexelCols item in
  match pixelFillCount item with
  | Some k =>
      if decide (cols = 0) then 0
      else
        let column := Qfloor (left item * inject_Z atlasWidth) + Z.rem k cols in
        let row := Qfloor (top item * inject_Z atlasWidth) + k / cols in
        (row * atlasWidth + column) * 3
  | None => 0
  end.

(** [after] is [before] rotated: its last buffer has come first, the
    others follow in their order. *)
Definition rotated (before after : list AtlasTexture) : Prop :=
  ∃ init last, before = init ++ [last] ∧ after = last :: init.

(** *** Sample inputs *)

(** A unit square in the plane z = 0, as one four-vertex face; and a quad
    that is not a parallelogram, its second vertex pulled out to (2, 2, 0). *)
Definition square : BufferGeometry :=
  {| attributes_position_array := [0; 1; 0;  1; 1; 0;  0; 0; 0;  1; 0; 0]%Q;
     attributes_normal_array := [0; 0; 1;  0; 0; 1;  0; 0; 1;  0; 0; 1]%Q |}.

Definition skewed : BufferGeometry :=
  {| attributes_position_array := [0; 1; 0;  2; 2; 0;  0; 0; 0;  1; 0; 0]%Q;
     attributes_normal_array := [0; 0; 1;  0; 0; 1;  0; 0; 1;  0; 0; 1]%Q |}.

Definition in_place : Mesh :=
  {| matrixWorld := [1; 0; 0; 0;  0; 1; 0; 0;  0; 0; 1; 0;  0; 0; 0; 1]%Q |}.

(** A face in column [column] of the first atlas row, [cols] by [rows]
    texels, not yet visited. *)
Definition face (geometry : BufferGeometry) (column : Z) (cols rows : Z)
    : AtlasItem :=
  {| mesh := in_place; buffer := geometry; faceIndex := 0;
     left := column # 8; top := 0;
     right := (column # 8) + (cols # 128); bottom := rows # 128;
     pixelFillCount := Some 0 |}.

Definition five_faces : list AtlasItem :=
  [face square 0 2 1; face square 1 1 2; face square 2 1 1;
   face square 3 1 1; face skewed 4 2 1].

(** Stand-ins for [Math.cos] and [Math.sin], exact at the angle 0, which
    is the only angle the examples draw. *)
Definition cos_at_0 (angle : Q) : Q := 1.
Definition sin_at_0 (angle : Q) : Q := 0.
Definition pi_rounded : Q := 355 # 113.

(** A readback of 1024 black pixels, but for one unit of red in the first. *)
Definition faint_red : list Z := [1; 0; 0; 255] ++ replicate 4092 0.

(** The same with the unit of red in the last pixel; and a readback whose
    first half is orange and whose second half is dark green, with the
    means 127.5, 100.5 and 0.5. *)
Definition late_red : list Z := replicate 4092 0 ++ [1; 0; 0; 255].

Definition glow : list Z :=
  mjoin (replicate 512 [255; 100; 0; 255]) ++
  mjoin (replicate 512 [0; 101; 1; 255]).

(** The first frame on [five_faces]: face 4, the skewed quad, texel (0, 0)
    of its 2 by 1 texels. *)
Definition skewed_face : AtlasItem := face skewed 4 2 1.

Definition first_frame : Outcome :=
  tick cos_at_0 sin_at_0 pi_rounded 0 faint_red (initial five_faces).

Definition first_camera : PerspectiveCamera :=
  probeCam (state_after (initial five_faces) first_frame).

(** Eight frames, as many as [five_faces] has texels. *)
Definition eight_frames : list (Q * list Z) := replicate 8 (0%Q, faint_red).

(** An atlas of a single face of two by two texels. *)
Definition one_face : list AtlasItem := [face square 0 2 2].

(** *** Laying out the faces (lines 8-57 and 103-150) *)

Definition itemSizeU : Q := 1 # 10.
Definition itemSizeV : Q := 1 # 10.
Definition itemUVMargin : Q := 25 # 1000.

(** Maximum physical dimension of a stored item's face. *)
Definition atlasItemMaxDim : Q := 5.

Definition itemsPerRow : Z := Qfloor (1 / (itemSizeU + itemUVMargin)).

(** [attr.setXY(index, x, y)] on a typed array of pairs; a write past the
    end is dropped. *)
Definition setXY (array : list Q) (index : nat) (x y : Q) : list Q :=
  <[(index * 2 + 1)%nat := y]> (<[(index * 2)%nat := x]> array).

Section Layout.

(** [Math.sqrt], which has no rational model. *)
Variable Math_sqrt : Q → Q.

(** [Vector3.length]. *)
Definition vlength (a : Vector3) : Q :=
  Math_sqrt (x a * x a + y a * y a + z a * z a)%Q.

(** [computeFaceUV]: [(left, top, right, bottom)]; [None] when a slot read
    from [posArray] is [undefined], which makes [right] and [bottom] NaN. *)
Definition computeFaceUV (atlasFaceIndex faceIndex : nat) (posArray : list Q)
    : option (Q * Q * Q * Q) :=
  let itemColumn := Z.rem (Z.of_nat atlasFaceIndex) itemsPerRow in
  let itemRow := Z.of_nat atlasFaceIndex / itemsPerRow in
  let facePosStart := (faceIndex * 4 * 3)%nat in
  let facePosOrigin := (facePosStart + 2 * 3)%nat in
  let facePosU := (facePosStart + 3 * 3)%nat in
  let facePosV := facePosStart in
  o ← read3 posArray facePosOrigin;
  u ← read3 posArray facePosU;
  v ← read3 posArray facePosV;
  let dU := vsub u o in
  let dV := vsub v o in
  let dUdim := Qmin atlasItemMaxDim (vlength dU) in
  let dVdim := Qmin atlasItemMaxDim (vlength dV) in
  let left := (inject_Z itemColumn * (itemSizeU + itemUVMargin))%Q in
  let top := (inject_Z itemRow * (itemSizeV + itemUVMargin))%Q in
  let right := (left + itemSizeU * (dUdim / atlasItemMaxDim))%Q in
  let bottom := (top + itemSizeV * (dVdim / atlasItemMaxDim))%Q in
  Some (left, top, right, bottom).

(** The loop of [useMeshWithAtlas], [n] iterations from [faceIndex] on:
    the faces pushed onto [atlasInfo] and the uv array as rewritten. *)
Fixpoint register_faces (mesh : Mesh) (meshBuffer : BufferGeometry)
    (n faceIndex : nat) (atlasInfo : list AtlasItem) (uv : list Q)
    : option (list AtlasItem * list Q) :=
  match n with
  | O => Some (atlasInfo, uv)
  | S n =>
      let atlasFaceIndex := length atlasInfo in
      '(left, top, right, bottom) ←
        computeFaceUV atlasFaceIndex faceIndex
          (attributes_position_array meshBuffer);
      let uvItemBase := (faceIndex * 4)%nat in
      let uv := setXY uv uvItemBase left bottom in
      let uv := setXY uv (uvItemBase + 1) right bottom in
      let uv := setXY uv (uvItemBase + 2) left top in
      let uv := setXY uv (uvItemBase + 3) right top in
      register_faces mesh meshBuffer n (S faceIndex)
        (atlasInfo ++
           [{| mesh := mesh; buffer := meshBuffer; faceIndex := faceIndex;
               left := left; top := top; right := right; bottom := bottom;
               pixelFillCount := Some 0 |}])
        uv
  end.

(** The number of iterations of [for (faceIndex = 0; faceIndex < faceCount;
    ...)] with [faceCount = posAttr.count / 4], for a position array of
    [length] numbers. *)
Definition iterations (length : nat) : nat := ((length + 11) / 12)%nat.

(** The update callback of [useMeshWithAtlas] for one mesh, [uv] being the
    array of [meshBuffer.attributes.uv]. *)
Definition useMeshWithAtlas (atlasInfo : list AtlasItem) (mesh : Mesh)
    (meshBuffer : option BufferGeometry) (uv : list Q)
    : option (list AtlasItem * list Q) :=
  match meshBuffer with
  | None => Some (atlasInfo, uv)      (* wait until the buffer is there *)
  | Some meshBuffer =>
      register_faces mesh meshBuffer
        (iterations (length (attributes_position_array meshBuffer))) 0
        atlasInfo uv
  end.

(** The atlas after the callbacks of the meshes listed have run, in this
    order, on the list that [useAtlas] creates empty. *)
Fixpoint registered (meshes : list (Mesh * BufferGeometry * list Q))
    (atlasInfo : list AtlasItem) : option (list AtlasItem) :=
  match meshes with
  | [] => Some atlasInfo
  | (mesh, meshBuffer, uv) :: rest =>
      '(atlasInfo', _) ← useMeshWithAtlas atlasInfo mesh (Some meshBuffer) uv;
      registered rest atlasInfo'
  end.

End Layout.

(** The side of the square cell of a face, in texels, and the cell that
    atlas face [i] is given. *)
Definition cellSize : Z := 16.
Definition cellColumn (i : nat) : Z := Z.of_nat i mod itemsPerRow.
Definition cellRow (i : nat) : Z := Z.of_nat i / itemsPerRow.

(** Face [i] of the atlas lies in its cell: its rectangle starts at the
    corner of the cell and is not larger than [itemSizeU] by [itemSizeV]. *)
Definition in_cell (i : nat) (item : AtlasItem) : Prop :=
  (left item == inject_Z (cellColumn i) * (1 # 8))%Q ∧
  (top item == inject_Z (cellRow i) * (1 # 8))%Q ∧
  (right item - left item <= itemSizeU)%Q ∧
  (bottom item - top item <= itemSizeV)%Q.

Definition laid_out (info : list AtlasItem) : Prop :=
  ∀ i item, info !! i = Some item → in_cell i item.

(** *** What the frames leave behind *)

(** What a face is, apart from how far it has been filled. *)
Definition geometry (item : AtlasItem)
    : Mesh * BufferGeometry * nat * Q * Q * Q * Q :=
  (mesh item, buffer item, faceIndex item,
   left item, top item, right item, bottom item).

(** A face whose fill count can no longer reach zero: it has no texels, or
    its count is NaN already. *)
Definition stuck (item : AtlasItem) : Prop :=
  texels item = 0 ∨ pixelFillCount item = None.

(** The atlas data after the write of frame [f]. *)
Definition write (data : list Z) (f : Frame) : list Z :=
  default data
    (set3 data (texel_offset (atlasTexelX f) (atlasTexelY f)) (estimate f)).

(** The texel a frame worked on, the offset of its write in the atlas
    data, and channel [c] (0 to 2) of an estimate. *)
Definition frame_texel (f : Frame) : int * int :=
  (atlasTexelX f, atlasTexelY f).

Definition offset (f : Frame) : Z :=
  texel_offset (atlasTexelX f) (atlasTexelY f).

Definition channel (v : Z * Z * Z) (c : nat) : Z :=
  match c with
  | 0%nat => v.1.1
  | 1%nat => v.1.2
  | _ => v.2
  end.

(** The texel a cursor points at in the atlas [info]. *)
Definition texel_at (info : list AtlasItem) (c : Cursor) : int * int :=
  match info !! currentAtlasFaceIndex c with
  | Some item => texel_of item c
  | None => (None, None)
  end.

(** The value [byte] as stored in a [Uint8Array]. *)
Definition stored (byte : Z) : Z := byte mod 256.

(** The grid of the test pattern at texel [(x, y)]. *)
Definition pattern_at (x y : Z) : Z :=
  if decide (x mod 8 = 0 ∨ y mod 8 = 0) then 0 else 255.

(** *** More sample inputs *)

(** A stand-in for [Math.sqrt]: the tangent at 1, exact at 1, which is the
    only squared length the examples have. *)
Definition sqrt_at_1 (q : Q) : Q := (q + 1) / 2.

(** A strip of five unit squares along the x axis, as five quads. *)
Definition strip : BufferGeometry :=
  {| attributes_position_array :=
       [0; 1; 0;  1; 1; 0;  0; 0; 0;  1; 0; 0;
        1; 1; 0;  2; 1; 0;  1; 0; 0;  2; 0; 0;
        2; 1; 0;  3; 1; 0;  2; 0; 0;  3; 0; 0;
        3; 1; 0;  4; 1; 0;  3; 0; 0;  4; 0; 0;
        4; 1; 0;  5; 1; 0;  4; 0; 0;  5; 0; 0]%Q;
     attributes_normal_array :=
       [0; 0; 1;  0; 0; 1;  0; 0; 1;  0; 0; 1;
        0; 0; 1;  0; 0; 1;  0; 0; 1;  0; 0; 1;
        0; 0; 1;  0; 0; 1;  0; 0; 1;  0; 0; 1;
        0; 0; 1;  0; 0; 1;  0; 0; 1;  0; 0; 1;
        0; 0; 1;  0; 0; 1;  0; 0; 1;  0; 0; 1]%Q |}.

(** The default uv array of a quad, five times over. *)
Definition strip_uv : list Q :=
  mjoin (replicate 5 [0; 1;  1; 1;  0; 0;  1; 0]%Q).

(** The faces of the strip, as registered on an empty atlas. *)
Definition strip_faces : list AtlasItem :=
  default [] (registered sqrt_at_1 [(in_place, strip, strip_uv)] []).

(** A square of side 2, a stand-in for [Math.sqrt] that is exact at its
    squared side, 4 (the tangent at 4), and the face of the square as
    registered on an empty atlas. *)
Definition sqrt_at_4 (q : Q) : Q := (q + 4) / 4.

Definition wide : BufferGeometry :=
  {| attributes_position_array := [0; 2; 0;  2; 2; 0;  0; 0; 0;  2; 0; 0]%Q;
     attributes_normal_array := [0; 0; 1;  0; 0; 1;  0; 0; 1;  0; 0; 1]%Q |}.

Definition wide_faces : list AtlasItem :=
  default []
    (registered sqrt_at_4
       [(in_place, wide, [0; 1;  1; 1;  0; 0;  1; 0]%Q)] []).

(** Forty-five frames, as many as [strip_faces] has texels. *)
Definition strip_pass : list (Q * list Z) := replicate 45 (0%Q, faint_red).

(** Sixty-five unit squares, one more than the atlas has cells, and their
    faces as registered on an empty atlas. *)
Definition pile : BufferGeometry :=
  {| attributes_position_array :=
       mjoin (replicate 65 [0; 1; 0;  1; 1; 0;  0; 0; 0;  1; 0; 0]%Q);
     attributes_normal_array :=
       mjoin (replicate 65 [0; 0; 1;  0; 0; 1;  0; 0; 1;  0; 0; 1]%Q) |}.

Definition pile_uv : list Q :=
  mjoin (replicate 65 [0; 1;  1; 1;  0; 0;  1; 0]%Q).

Definition pile_faces : list AtlasItem :=
  default [] (registered sqrt_at_1 [(in_place, pile, pile_uv)] []).

(** The state in which the cursor has just reached face [current]. *)
Definition at_face (current : nat) (st : State) : State :=
  {| atlasInfo := atlasInfo st;
     atlasFaceFillIndexRef := current;
     atlasStack := atlasStack st;
     probeCam := probeCam st;
     probeData := probeData st;
     probeDebugTexture := probeDebugTexture st |}.


(** Four faces followed by one with no texel columns. *)
Definition flat_face : AtlasItem := face square 4 0 1.
Definition four_and_flat : list AtlasItem := take 4 five_faces ++ [flat_face].

End Atlas.

(** ** The compositor *)

Module IrradianceCompositor.

Record Color := { r : Q; g : Q; b : Q }.

Definition black : Color := {| r := 0; g := 0; b := 0 |}.

(** The part of the WebGL renderer the frame callback touches or relies
    on: the clear colour and the clear alpha, whether the context has
    premultiplied alpha (a parameter of the renderer, true unless it is
    created otherwise), and [autoClear].  A new renderer has the clear
    colour black and the clear alpha 0; [setClearColor(colour)] sets the
    alpha to 1. *)
Record WebGLRenderer := {
  clearColor : Color;
  clearAlpha : Q;
  premultipliedAlpha : bool;
  autoClear : bool
}.

(** What the renderer clears a target to: its clear colour, multiplied by
    its clear alpha where the alpha is premultiplied. *)
Definition cleared (gl : WebGLRenderer) : Color :=
  if premultipliedAlpha gl then
    {| r := (r (clearColor gl) * clearAlpha gl)%Q;
       g := (g (clearColor gl) * clearAlpha gl)%Q;
       b := (b (clearColor gl) * clearAlpha gl)%Q |}
  else clearColor gl.

Record State := {
  lightMapWidth : nat;
  lightMapHeight : nat;
  factorNames : list string;              (* read once, on mount *)
  orthoSceneRef : bool;                   (* the scene (with its layer
                                             materials) is mounted *)
  baseArray : list Q;                     (* RGBA floats *)
  factorArrays : gmap string (list Q);
  (* [uniforms.multiplier.value] of the layer materials *)
  baseMultiplier : Q;
  factorMultiplier : gmap string Q;
  gl : WebGLRenderer;
  orthoTarget : list Color                (* the composited output *)
}.

(** [createRendererTexture]: a zeroed RGBA float array. *)
Definition createRendererTexture (atlasWidth atlasHeight : nat) : list Q :=
  replicate (4 * (atlasWidth * atlasHeight)) 0%Q.

(** The state after mounting: one zeroed buffer per layer, every
    [multiplier] uniform at its initial 0, nothing rendered yet. *)
Definition mount (width height : nat) (names : list string)
    (renderer : WebGLRenderer) : State :=
  {| lightMapWidth := width;
     lightMapHeight := height;
     factorNames := names;
     orthoSceneRef := true;
     baseArray := createRendererTexture width height;
     factorArrays :=
       list_to_map ((λ k, (k, createRendererTexture width height)) <$> names);
     baseMultiplier := 0%Q;
     factorMultiplier := list_to_map ((λ k, (k, 0%Q)) <$> names);
     gl := renderer;
     orthoTarget := replicate (width * height) black |}.

(** [factors && factors[factorName]] with its truthiness test: the value
    to store, if the [if] lets it through. *)
Definition truthy_multiplier (factors : option (gmap string Q))
    (factorName : string) : option Q :=
  m ← factors ≫= (.!! factorName);
  if Qeq_bool m 0 then None else Some m.

(** The "live-update" loop over [factorNames]. *)
Definition update_multipliers (factors : option (gmap string Q))
    (names : list string) (uniforms : gmap string Q) : gmap string Q :=
  foldl (λ u factorName,
           match truthy_multiplier factors factorName with
           | Some multiplier => <[factorName := multiplier]> u
           | None => u
           end) uniforms names.

(** [texture2D(map, vUV).rgb] at the centre of output pixel [i]; the
    textures have the size of the target and are sampled unfiltered. *)
Definition texel (array : list Q) (i : nat) : Color :=
  {| r := default 0%Q (array !! (4 * i)%nat);
     g := default 0%Q (array !! (4 * i + 1)%nat);
     b := default 0%Q (array !! (4 * i + 2)%nat) |}.

(** The fragment shader's colour, and additive blending onto [dst]. *)
Definition shade (array : list Q) (multiplier : Q) (i : nat) : Color :=
  let c := texel array i in
  {| r := (r c * multiplier)%Q; g := (g c * multiplier)%Q;
     b := (b c * multiplier)%Q |}.

Definition blend (dst src : Color) : Color :=
  {| r := (r dst + r src)%Q; g := (g dst + g src)%Q; b := (b dst + b src)%Q |}.

(** [gl.render(orthoScene, orthoCamera)] into the target, with
    [autoClear], at output pixel [i]: the clear, then the base quad, then
    one quad per factor, each covering the whole target at the same depth
    and blended additively. *)
Definition render (st : State) (baseM : Q) (factorM : gmap string Q)
    (i : nat) : Color :=
  foldl (λ dst name,
           blend dst
             (shade (default [] (factorArrays st !! name))
                    (default 0%Q (factorM !! name)) i))
        (blend (cleared (gl st)) (shade (baseArray st) baseM i))
        (factorNames st).

(** One call of the compositor's frame callback, with the [factors] prop
    of the latest render.  The material refs are attached in the commit
    that attaches the scene ref, so that they are set whenever it is. *)
Definition useFrame (factors : option (gmap string Q)) (st : State) : State :=
  if orthoSceneRef st then
    let baseM := 1%Q in
    let factorM :=
      update_multipliers factors (factorNames st) (factorMultiplier st) in
    {| lightMapWidth := lightMapWidth st;
       lightMapHeight := lightMapHeight st;
       factorNames := factorNames st;
       orthoSceneRef := true;
       baseArray := baseArray st;
       factorArrays := factorArrays st;
       baseMultiplier := baseM;
       factorMultiplier := factorM;
       gl := {| clearColor := clearColor (gl st);
                clearAlpha := clearAlpha (gl st);
                premultipliedAlpha := premultipliedAlpha (gl st);
                autoClear := true |};
       orthoTarget :=
         render st baseM factorM
           <$> seq 0 (lightMapWidth st * lightMapHeight st) |}
  else st.




(** *** Sample inputs *)


(** A mounted compositor for a 2 by 1 light map with one factor, "sun",
    on the renderer given, before its first frame; the renderers have
    filled the base buffer with ones and the factor buffer with
    [level]. *)
Definition sample_on (renderer : WebGLRenderer) (level : Q) : State :=
  let st := mount 2 1 ["sun"] renderer in
  {| lightMapWidth := lightMapWidth st;
     lightMapHeight := lightMapHeight st;
     factorNames := factorNames st;
     orthoSceneRef := orthoSceneRef st;
     baseArray := replicate 8 1%Q;
     factorArrays := {["sun" := replicate 8 level]};
     baseMultiplier := baseMultiplier st;
     factorMultiplier := factorMultiplier st;
     gl := gl st;
     orthoTarget := orthoTarget st |}.

(** The same on a renderer after [setClearColor(clear)]: the clear colour
    [clear] at alpha 1. *)
Definition sample (clear : Color) (level : Q) : State :=
  sample_on {| clearColor := clear; clearAlpha := 1;
               premultipliedAlpha := true; autoClear := true |} level.

(** A renderer as it is created, and one whose clear colour has been set
    to grey with alpha 0. *)
Definition new_renderer : WebGLRenderer :=
  {| clearColor := black; clearAlpha := 0; premultipliedAlpha := true;
     autoClear := true |}.


(** *** Handing the buffers to the renderers (lines 5-39) *)

(** The members every object inherits from [Object.prototype]: looking
    one of them up in an object with no such key of its own finds the
    inherited member, not [undefined]. *)
Definition Object_prototype : list string :=
  ["constructor"; "hasOwnProperty"; "isPrototypeOf"; "propertyIsEnumerable";
   "toLocaleString"; "toString"; "valueOf"; "__proto__";
   "__defineGetter__"; "__defineSetter__";
   "__lookupGetter__"; "__lookupSetter__"].

Inductive RendererDataError :=
| MustBePlacedUnderCompositor
| UnknownFactor (factorName : string).

(** What the hook returns: the array of a layer (with its texture), or the
    member of [Object.prototype] found under [factorName]. *)
Inductive RendererData :=
| Layer (array : list Q)
| Inherited (factorName : string).

(** [useIrradianceRendererData], [ctx] being the context value; [inl] is
    the error thrown. *)
Definition useIrradianceRendererData (ctx : option State)
    (factorName : option string) : RendererDataError + RendererData :=
  match ctx with
  | None => inl MustBePlacedUnderCompositor
  | Some ctx =>
      match factorName with
      | None => inr (Layer (baseArray ctx))
      | Some name =>
          if decide (name = "") then inr (Layer (baseArray ctx))
          else
            match factorArrays ctx !! name with
            | Some factorArray => inr (Layer factorArray)
            | None =>
                if decide (name ∈ Object_prototype) then inr (Inherited name)
                else inl (UnknownFactor name)
            end
      end
  end.

(** *** Consecutive frames *)

(** The frames run with the [factors] props listed, in order. *)
Definition frames (props : list (option (gmap string Q))) (st : State)
    : State :=
  foldl (λ st factors, useFrame factors st) st props.

End IrradianceCompositor.

(** ** The scene manager *)

Module IrradianceSceneManager.

(** An ancestor of a mesh, as far as the manager looks at it. *)
Record Object3D := { name : string; isScene : bool }.

(** A mesh: its [uuid] and its ancestors, the parent first. *)
Record Mesh := { uuid : string; ancestors : list Object3D }.

(** Materials only matter through their identity. *)
Definition WorkbenchMaterialType := nat.

Record WorkbenchStagingItem := {
  mesh : Mesh;
  material : WorkbenchMaterialType;
  isMapped : bool
}.

(** [workbenchStage.items], an object used as a map from uuid to item:
    [Object.values] lists the items in the order in which their keys were
    added.  (The keys are uuids, never array indices, which would come
    first.) *)
Abbreviation Items := (list (string * WorkbenchStagingItem)).

Definition Object_values (items : Items) : list WorkbenchStagingItem :=
  items.*2.

(** [items[key] = item]: an existing key keeps its place. *)
Definition set_item (items : Items) (key : string)
    (item : WorkbenchStagingItem) : Items :=
  if decide (key ∈ items.*1) then
    (λ entry, if decide (entry.1 = key) then (key, item) else entry) <$> items
  else items ++ [(key, item)].

(** [delete items[key]]. *)
Definition delete_item (items : Items) (key : string) : Items :=
  filter (λ entry, entry.1 ≠ key) items.

(** *** [useMeshRegister] (lines 47-73) *)

Record Props := {
  props_mesh : option Mesh;
  props_material : option WorkbenchMaterialType;
  props_isMapped : bool
}.

(** The body of the effect: the registry after it, and the uuid that its
    cleanup will delete, if it returns one. *)
Definition effect (props : Props) (items : Items) : Items * option string :=
  match props_mesh props, props_material props with
  | Some mesh, Some material =>
      (set_item items (uuid mesh)
         {| mesh := mesh; material := material;
            isMapped := props_isMapped props |},
       Some (uuid mesh))
  | _, _ => (items, None)
  end.

Definition cleanup (pending : option string) (items : Items) : Items :=
  match pending with
  | Some uuid => delete_item items uuid
  | None => items
  end.

(** One use of the hook: the dependencies [mesh] and [material] its effect
    last ran with ([None] before the first run; [items] never changes),
    and the cleanup that is pending.  The dependencies are compared by
    identity; a mesh is identified by its uuid. *)
Record Hook := {
  deps : option (option string * option WorkbenchMaterialType);
  pending : option string
}.

Definition unused : Hook := {| deps := None; pending := None |}.

Definition deps_of (props : Props)
    : option string * option WorkbenchMaterialType :=
  (uuid <$> props_mesh props, props_material props).

(** A render with [props], and the effects that follow it: the effect runs
    again, after the pending cleanup, when a dependency has changed. *)
Definition useMeshRegister (hook : Hook) (props : Props) (items : Items)
    : Hook * Items :=
  if decide (deps hook = Some (deps_of props)) then (hook, items)
  else
    let '(items', pending') := effect props (cleanup (pending hook) items) in
    ({| deps := Some (deps_of props); pending := pending' |}, items').

(** The unmount of the component that uses the hook. *)
Definition unmount (hook : Hook) (items : Items) : Items :=
  cleanup (pending hook) items.

(** *** [startHandler] (lines 102-118) *)

Record WorkbenchSceneItem := {
  item : WorkbenchStagingItem;        (* [...item] *)
  needsLightMap : bool
}.

Record WorkbenchBasics := {
  id : nat;
  items : list WorkbenchSceneItem
}.

Definition startHandler (stage : Items) (prev : option WorkbenchBasics)
    : WorkbenchBasics :=
  {| id := match prev with Some prev => id prev + 1 | None => 1 end;
     items :=
       (λ item, {| item := item; needsLightMap := isMapped item |})
         <$> Object_values stage |}.

(** The snapshot after the start handler has been called once for each of
    the stages listed, in order; [None] before the first call. *)
Definition starts (stages : list Items) : option WorkbenchBasics :=
  foldl (λ prev stage, Some (startHandler stage prev)) None stages.

(** *** [atlasMapHandler] (lines 137-163) *)

Inductive Error :=
| UnexpectedEarlyCall
| TypeError                           (* [.mesh] of [undefined] *)
| CouldNotGetLightSceneReference.

Record Workbench (AtlasMap : Type) := {
  workbench_id : nat;
  lightScene : Object3D;
  lightSceneItems : list WorkbenchSceneItem;
  atlasMap : AtlasMap
}.
Arguments workbench_id {_}.
Arguments lightScene {_}.
Arguments lightSceneItems {_}.
Arguments atlasMap {_}.

(** [traverseAncestors] with the callback that keeps the first scene. *)
Fixpoint first_scene (ancestors : list Object3D) : option Object3D :=
  match ancestors with
  | [] => None
  | object :: rest => if isScene object then Some object else first_scene rest
  end.

Definition atlasMapHandler {AtlasMap} (workbenchBasics : option WorkbenchBasics)
    (atlasMap : AtlasMap) : Error + Workbench AtlasMap :=
  match workbenchBasics with
  | None => inl UnexpectedEarlyCall
  | Some workbenchBasics =>
      match items workbenchBasics with
      | [] => inl TypeError
      | first :: _ =>
          match first_scene (ancestors (mesh (item first))) with
          | None => inl CouldNotGetLightSceneReference
          | Some lightScene =>
              inr {| workbench_id := id workbenchBasics;
                     lightScene := lightScene;
                     lightSceneItems := items workbenchBasics;
                     atlasMap := atlasMap |}
          end
      end
  end.

(** *** Sample inputs *)

Definition room : Object3D := {| name := "room"; isScene := true |}.
Definition shelf : Object3D := {| name := "shelf"; isScene := false |}.
Definition world : Object3D := {| name := "world"; isScene := true |}.

Definition floor : Mesh :=
  {| uuid := "6F9619FF-8B86-D011-B42D-00C04FC964FF";
     ancestors := [shelf; room; world] |}.
Definition lamp : Mesh :=
  {| uuid := "1B4E28BA-2FA1-11D2-883F-0016D3CCA427"; ancestors := [shelf] |}.

Definition floor_props (isMapped : bool) : Props :=
  {| props_mesh := Some floor; props_material := Some 7%nat;
     props_isMapped := isMapped |}.
Definition lamp_props : Props :=
  {| props_mesh := Some lamp; props_material := Some 8%nat;
     props_isMapped := false |}.

End IrradianceSceneManager.

(** * Properties of the atlas mapper *)

Module AtlasMapperFacts.
Import IrradianceAtlasMapper.

Lemma traverse_app lightMap pre rest items0 pre' items1 :
  traverse lightMap pre items0 = (pre', inr items1) →
  traverse lightMap (pre ++ rest) items0 =
    (pre' ++ (traverse lightMap rest items1).1,
     (traverse lightMap rest items1).2).
Proof.
  revert items0 pre'. induction pre as [|o pre IH]; intros items0 pre' H.
  - simpl in H. injection H as <- <-. simpl. by destruct (traverse _ _ _).
  - simpl in H |- *. destruct (visit lightMap (length items0) o) eqn:Hv.
    + destruct (traverse lightMap pre items0) as [p r] eqn:Ht.
      injection H as <- ->. by rewrite (IH _ _ Ht).
    + discriminate.
    + destruct (traverse lightMap pre (items0 ++ [item])) as [p r] eqn:Ht.
      injection H as <- ->. by rewrite (IH _ _ Ht).
Qed.

Lemma visit_accepted lightMap itemIndex o :
  accepted lightMap o →
  ∃ item o',
    visit lightMap itemIndex o = Push item o' ∧
    faceCount item = Qred (inject_Z (Z.of_nat (faceVertexCount o)) / 3).
Proof.
  intros (buffer & material & indexData & uS & uA & nS & nA & m' &
          -> & Hi & Hu & Hn & Hm).
  simpl. rewrite Hu, Hi, Hn, Hm. eauto.
Qed.

(** Each item pushed by the callback carries, for its [k]-th unrolled
    vertex, the triple computed from the item's position in [items]. *)
Lemma visit_position lightMap itemIndex o item o' :
  visit lightMap itemIndex o = Push item o' →
  ∃ n, position (perFaceBuffer item) = facePos itemIndex <$> seq 0 n.
Proof.
  destruct o as [|[|buffer] material]; simpl; try discriminate.
  destruct (attributes_uv2 buffer) as [[uS uA|]|]; try discriminate;
    destruct (index buffer) as [indexData|]; try discriminate;
    destruct (attributes_normal buffer) as [[nS nA|]|]; try discriminate.
  destruct (material_check lightMap material); try discriminate.
  intros [= <- _]. simpl. eauto.
Qed.

Lemma traverse_positions lightMap objects items0 scene items :
  traverse lightMap objects items0 = (scene, inr items) →
  ∃ new, items = items0 ++ new ∧
    ∀ j item, new !! j = Some item →
      ∃ n, position (perFaceBuffer item) =
             facePos (length items0 + j) <$> seq 0 n.
Proof.
  revert items0 scene. induction objects as [|o objects IH];
    intros items0 scene H; simpl in H.
  - injection H as _ <-. exists []. split; [by rewrite app_nil_r|].
    intros j item Hj. by rewrite lookup_nil in Hj.
  - destruct (visit lightMap (length items0) o) eqn:Hv.
    + destruct (traverse lightMap objects items0) as [p r] eqn:Ht.
      injection H as _ ->. eauto.
    + discriminate.
    + destruct (traverse lightMap objects (items0 ++ [item])) as [p r] eqn:Ht.
      injection H as _ ->. destruct (IH _ _ Ht) as (new & -> & Hnew).
      exists (item :: new). split; [by rewrite <- app_assoc|].
      intros [|j] it Hj; simpl in Hj.
      * injection Hj as <-. rewrite Nat.add_0_r. by eapply visit_position.
      * destruct (Hnew j it Hj) as [n Hn]. exists n. rewrite Hn.
        rewrite length_app. simpl. do 2 f_equal. lia.
Qed.

Lemma toFloat32_exact n : Z.abs n < 2 ^ 24 → toFloat32 n = n.
Proof.
  intros H. unfold toFloat32. cbv zeta.
  assert (Z.log2 (Z.abs n) < 24).
  { destruct (decide (Z.abs n = 0)) as [->|]; [done|].
    apply Z.log2_lt_pow2; lia. }
  destruct (Z.leb_spec (Z.log2 (Z.abs n) - 23) 0); [done|lia].
Qed.

Lemma toFloat32_large n : 2 ^ 24 ≤ n → 2 ^ 24 ≤ toFloat32 n.
Proof.
  intros H. unfold toFloat32. cbv zeta. rewrite (Z.abs_eq n) by lia.
  destruct (Z.leb_spec (Z.log2 n - 23) 0) as [|He]; [done|].
  set (e := Z.log2 n - 23) in *.
  assert (Hq : 2 ^ 23 ≤ n / 2 ^ e).
  { rewrite <- (Z.div_mul (2 ^ 23) (2 ^ e)) by (apply Z.pow_nonzero; lia).
    apply Z.div_le_mono; [apply Z.pow_pos_nonneg; lia|].
    rewrite <- Z.pow_add_r by lia.
    replace (23 + e) with (Z.log2 n) by (subst e; lia).
    apply Z.log2_spec. lia. }
  assert (Hulp : 2 ^ 1 ≤ 2 ^ e) by (apply Z.pow_le_mono_r; lia).
  change (2 ^ 1) with 2 in Hulp. change (2 ^ 23) with 8388608 in Hq.
  change (2 ^ 24) with 16777216.
  repeat case_match; nia.
Qed.

(** A stored id below [2 ^ 24] is the number that was stored. *)
Lemma toFloat32_below n :
  0 ≤ n → toFloat32 n < 2 ^ 24 → toFloat32 n = n.
Proof.
  intros Hn H. apply toFloat32_exact.
  destruct (decide (2 ^ 24 ≤ n)) as [Hl|]; [|lia].
  apply toFloat32_large in Hl. lia.
Qed.

Lemma toFloat32_pos n : 0 < n → 0 < toFloat32 n.
Proof.
  intros Hn. destruct (decide (2 ^ 24 ≤ n)) as [Hl|].
  - apply toFloat32_large in Hl. lia.
  - rewrite toFloat32_exact; lia.
Qed.

Lemma facePos_id itemIndex k :
  (facePos itemIndex k).2 =
    toFloat32 (Z.of_nat itemIndex * MAX_ITEM_FACES + Z.of_nat (k / 3) + 1)%Z.
Proof.
  unfold facePos. cbn [snd]. rewrite Nat2Z.inj_div.
  rewrite Z.rem_mod_nonneg by lia.
  do 3 f_equal. rewrite (Z.div_mod (Z.of_nat k) 3) at 1 by lia.
  replace (3 * (Z.of_nat k / 3) + Z.of_nat k mod 3 - Z.of_nat k mod 3)%Z
    with (Z.of_nat k / 3 * 3)%Z by lia.
  by rewrite Z.div_mul.
Qed.

(** The id stored for unrolled vertex [k] of item [i]. *)
Lemma inputItems_id lightMap lightScene items (i : nat) item (k : nat)
    px py id :
  inputItems lightMap lightScene = Some items →
  items !! i = Some item →
  position (perFaceBuffer item) !! k = Some (px, py, id) →
  id = toFloat32 (Z.of_nat i * MAX_ITEM_FACES + Z.of_nat (k / 3) + 1).
Proof.
  unfold inputItems. intros Ht Hi Hk.
  destruct (traverse lightMap lightScene []) as [scene [e|its]] eqn:Htr;
    simpl in Ht; [discriminate|]. injection Ht as ->.
  destruct (traverse_positions _ _ _ _ _ Htr) as (new & -> & Hnew).
  simpl in Hi. destruct (Hnew _ _ Hi) as [n Hn]. simpl in Hn.
  rewrite Hn, list_lookup_fmap in Hk.
  destruct (seq 0 n !! k) as [k'|] eqn:Hs; [|discriminate].
  apply lookup_seq in Hs as [-> _]. simpl in Hk.
  assert (Hid : id = (facePos i k).2) by (by injection Hk as _ _ <-).
  by rewrite facePos_id in Hid.
Qed.

(** Decoding undoes the encoding of a face below [MAX_ITEM_FACES]. *)
Lemma decoded_encoded (i f : nat) :
  Z.of_nat f < MAX_ITEM_FACES →
  let id := Z.of_nat i * MAX_ITEM_FACES + Z.of_nat f + 1 in
  decodedFaceIndex id = Z.of_nat f ∧ decodedItemIndex id = Z.of_nat i.
Proof.
  unfold decodedFaceIndex, decodedItemIndex, MAX_ITEM_FACES. intros Hf.
  cbv zeta.
  replace (Z.of_nat i * 1000 + Z.of_nat f + 1 - 1)
    with (Z.of_nat f + Z.of_nat i * 1000) by lia.
  split.
  - rewrite Z.rem_mod_nonneg by lia.
    rewrite Z.mod_add by lia. apply Z.mod_small. lia.
  - rewrite Z.div_add by lia. rewrite Z.div_small; lia.
Qed.

(** A stored id is not 0, and one below [2 ^ 24], of a face below
    [MAX_ITEM_FACES], decodes to its face and item. *)
Lemma stored_id_decodes (i f : nat) :
  let id := toFloat32 (Z.of_nat i * MAX_ITEM_FACES + Z.of_nat f + 1) in
  id ≠ 0 ∧
  (Z.of_nat f < MAX_ITEM_FACES → id < 2 ^ 24 →
   decodedFaceIndex id = Z.of_nat f ∧ decodedItemIndex id = Z.of_nat i).
Proof.
  cbv zeta. split.
  - pose proof (toFloat32_pos (Z.of_nat i * MAX_ITEM_FACES + Z.of_nat f + 1)).
    unfold MAX_ITEM_FACES in *. lia.
  - intros Hf Hid.
    rewrite toFloat32_below by (done || unfold MAX_ITEM_FACES; lia).
    by apply decoded_encoded.
Qed.

Lemma delivered_nothing render renderers st :
  Component.inputItems st = None → delivered render renderers st = [].
Proof.
  intros Hn. induction renderers as [|gl rest IH]; [done|].
  cbn [delivered]. unfold useUpdate. by rewrite Hn.
Qed.

(** The one map handed over after a traversal that returned. *)
Lemma delivered_mounted render width height lightMap lightScene gl renderers
    items :
  inputItems lightMap lightScene = Some items →
  delivered render (gl :: renderers)
    (mounted width height lightMap lightScene) =
    [{| Output.width := width;
        Output.height := height;
        Output.items := exported <$> items;
        Output.data :=
          render {| clearColor := ATLAS_BG_COLOR; clearAlpha := 0;
                    autoClear := true;
                    renderTarget := Some orthoTarget |}
                 (perFaceBuffer <$> items);
        Output.texture := orthoTarget |}].
Proof.
  intros Hitems. cbn [delivered]. unfold useUpdate, mounted.
  cbn [Component.inputItems Component.isComplete Component.widthRef
       Component.heightRef].
  rewrite Hitems. by rewrite delivered_nothing.
Qed.

(** The sample renderer does what the shaders do. *)
Lemma single_texel_copies_face_ids : copies_face_ids single_texel.
Proof.
  intros gl buffers t r g b a _ Halpha Ht. unfold orthoTexel in Ht.
  assert (Hlen : length (single_texel gl buffers) = 4%nat).
  { unfold single_texel. repeat case_match; done. }
  destruct t as [|t]; [|by rewrite drop_ge in Ht by lia].
  cbn [Nat.mul drop] in Ht. unfold single_texel in Ht.
  destruct (last buffers) as [buffer|] eqn:Hlast;
    [|injection Ht as <- <- <- <-; by left].
  destruct (position buffer) as [|[[x0 y0] z0] [|[[x1 y1] z1]
    [|[[x2 y2] z2] rest]]] eqn:Hp;
    try (injection Ht as <- <- <- <-; by left).
  injection Ht as <- <- <- <-. right. split; [done|].
  rewrite last_lookup in Hlast.
  exists (pred (length buffers)), 0%nat, buffer,
    x0, y0, z0, x1, y1, z1, x2, y2, z2.
  rewrite Hp. done.
Qed.

(** C1, counterexample.  The mapper puts no bound on the face count, and
    for the 1001st face of the first item it writes id 1001, which decodes
    to face 0 of item 1 instead of face 1000 of item 0.  And the id is
    stored as a 32-bit float: for item 16777 the ids of faces 215 and 216,
    16777216 and 16777217, are both stored as 16777216, so the stored id
    of face 216 decodes to face 215. *)
Lemma C1_round_trip_fails_beyond_capacity :
  (written 0%nat [triangles 1001] 0 3000 = Some (0, 0, 1001) ∧
   decodedFaceIndex 1001 = 0 ∧ decodedItemIndex 1001 = 1) ∧
  (facePos (Z.to_nat 16777) (3 * 215) = (0, 0, 16777216) ∧
   facePos (Z.to_nat 16777) (3 * 216) = (0, 0, 16777216) ∧
   decodedFaceIndex 16777216 = 215 ∧ decodedItemIndex 16777216 = 16777).
Proof.
  split; [split; [vm_compute; reflexivity|split; reflexivity]|].
  repeat split; vm_compute; reflexivity.
Qed.

(** C1 (amended).  Every id the atlas mapper stores for a face is the
    32-bit float nearest to [itemIndex * MAX_ITEM_FACES + faceIndex + 1]
    and is not the reserved 0; and where the face index is below
    MAX_ITEM_FACES = 1000 and the stored id is below 2^24 = 16777216,
    [(id - 1) % MAX_ITEM_FACES] is the zero-based face index and
    [(id - 1) / MAX_ITEM_FACES] the zero-based item index that were
    combined to encode it.  This holds of the ids in the per-face buffers
    ([k] is the unrolled vertex the id is attached to and [k / 3] its
    face), and of the AtlasMap data handed to [onComplete]: with a
    renderer that copies the face ids, each texel of the data is either
    blank, its id and alpha 0, or has alpha 1 and the id stored for some
    face of some item. *)
Theorem C1_round_trip_within_capacity lightMap lightScene items :
  inputItems lightMap lightScene = Some items →
  (∀ (i : nat) item (k : nat) px py id,
     items !! i = Some item →
     position (perFaceBuffer item) !! k = Some (px, py, id) →
     id = toFloat32 (Z.of_nat i * MAX_ITEM_FACES + Z.of_nat (k / 3) + 1) ∧
     id ≠ 0 ∧
     (Z.of_nat (k / 3) < MAX_ITEM_FACES → id < 2 ^ 24 →
      decodedFaceIndex id = Z.of_nat (k / 3) ∧
      decodedItemIndex id = Z.of_nat i)) ∧
  (∀ render width height gl renderers atlasMap (t : nat) r g b a,
     copies_face_ids render →
     atlasMap ∈ delivered render (gl :: renderers)
                  (mounted width height lightMap lightScene) →
     orthoTexel (Output.data atlasMap) t = Some (r, g, b, a) →
     ((b == 0)%Q ∧ (a == 0)%Q) ∨
     ((a == 1)%Q ∧
      ∃ (i f : nat) item id,
        items !! i = Some item ∧
        (3 * f + 2 < length (position (perFaceBuffer item)))%nat ∧
        b = inject_Z id ∧
        id = toFloat32 (Z.of_nat i * MAX_ITEM_FACES + Z.of_nat f + 1) ∧
        id ≠ 0 ∧
        (Z.of_nat f < MAX_ITEM_FACES → id < 2 ^ 24 →
         decodedFaceIndex id = Z.of_nat f ∧
         decodedItemIndex id = Z.of_nat i))).
Proof.
  intros Ht. split.
  - intros i item k px py id Hi Hk.
    pose proof (inputItems_id _ _ _ _ _ _ _ _ _ Ht Hi Hk) as ->.
    split; [done|]. apply stored_id_decodes.
  - intros render width height gl renderers atlasMap t r g b a Hrender Hin Hb.
    rewrite (delivered_mounted _ _ _ _ _ _ _ _ Ht) in Hin.
    apply list_elem_of_singleton in Hin as ->. cbn [Output.data] in Hb.
    apply Hrender in Hb as [Hblank|[Ha Hface]]; [by left|right|done|done].
    split; [done|].
    destruct Hface as (i & f & buffer & x0 & y0 & z0 & x1 & y1 & z1 & x2 &
                       y2 & z2 & Hi & H0 & H1 & H2 & Hz).
    apply list_lookup_fmap_Some in Hi as (item & -> & Hi).
    pose proof (inputItems_id _ _ _ _ _ _ _ _ _ Ht Hi H0) as E0.
    pose proof (inputItems_id _ _ _ _ _ _ _ _ _ Ht Hi H1) as E1.
    pose proof (inputItems_id _ _ _ _ _ _ _ _ _ Ht Hi H2) as E2.
    replace ((3 * f) / 3)%nat with f in E0
      by (apply (Nat.div_unique _ 3 f 0); lia).
    replace ((3 * f + 1) / 3)%nat with f in E1
      by (apply (Nat.div_unique _ 3 f 1); lia).
    replace ((3 * f + 2) / 3)%nat with f in E2
      by (apply (Nat.div_unique _ 3 f 2); lia).
    exists i, f, item, z0. split; [done|].
    split; [by eapply lookup_lt_Some|].
    split; [apply Hz; congruence|]. split; [done|].
    rewrite E0. apply stored_id_decodes.
Qed.

Lemma C1_round_trip_within_capacity_witness :
  (written 0%nat [triangles 1; triangles 2] 1 4 = Some (1, 0, 1002) ∧
   1002 ≠ 0 ∧ decodedFaceIndex 1002 = 1 ∧ decodedItemIndex 1002 = 1) ∧
  ∃ atlasMap,
    delivered single_texel
      [{| clearColor := "#ffffff"; clearAlpha := 1; autoClear := false;
          renderTarget := None |}]
      (mounted 1 1 0%nat [triangles 1; triangles 2]) = [atlasMap] ∧
    orthoTexel (Output.data atlasMap) 0 = Some (1 # 3, 1 # 3, 1001, 1)%Q ∧
    ∃ (i f : nat) item,
      inputItems 0%nat [triangles 1; triangles 2] ≫= (.!! i) = Some item ∧
      (3 * f + 2 < length (position (perFaceBuffer item)))%nat ∧
      decodedFaceIndex 1001 = Z.of_nat f ∧
      decodedItemIndex 1001 = Z.of_nat i.
Proof.
  assert (∃ items, inputItems 0%nat [triangles 1; triangles 2] = Some items)
    as [items Hitems] by (eexists; reflexivity).
  destruct (C1_round_trip_within_capacity 0%nat [triangles 1; triangles 2]
              items Hitems) as [Hbuffers Hdata].
  rewrite Hitems. injection Hitems as <-. split.
  - split; [reflexivity|].
    destruct (Hbuffers 1%nat _ 4%nat 1 0 1002 eq_refl eq_refl)
      as (_ & Hne & Hdec).
    split; [exact Hne|]. apply Hdec; reflexivity.
  - eexists. split; [reflexivity|]. split; [reflexivity|].
    destruct (Hdata single_texel 1%nat 1%nat
                {| clearColor := "#ffffff"; clearAlpha := 1;
                   autoClear := false; renderTarget := None |} []
                _ 0%nat (1 # 3)%Q (1 # 3)%Q 1001%Q 1%Q
                single_texel_copies_face_ids
                ltac:(apply list_elem_of_singleton; reflexivity) eq_refl)
      as [[_ Hblank]|(_ & i & f & item & id & Hi & Hlen & Hb & _ & _ & Hdec)];
      [discriminate Hblank|].
    injection Hb as <-. exists i, f, item. split; [exact Hi|].
    split; [exact Hlen|]. apply Hdec; [|reflexivity].
    destruct i as [|[|i]]; cbn in Hi; [| |discriminate];
      injection Hi as <-; cbn in Hlen; unfold MAX_ITEM_FACES; lia.
Defined.

Lemma traverse_accepted lightMap objects :
  Forall (accepted lightMap) objects →
  ∀ items0, ∃ scene new,
    traverse lightMap objects items0 = (scene, inr (items0 ++ new)) ∧
    faceCount <$> new =
      (λ o, Qred (inject_Z (Z.of_nat (faceVertexCount o)) / 3)) <$> objects.
Proof.
  induction 1 as [|o objects Ho _ IH]; intros items0.
  - exists [], []. by rewrite app_nil_r.
  - destruct (visit_accepted lightMap (length items0) o Ho)
      as (item & o' & Hv & Hc).
    destruct (IH (items0 ++ [item])) as (scene & new & Ht & Hf).
    exists (o' :: scene), (item :: new). split.
    + simpl. by rewrite Hv, Ht, <- app_assoc.
    + by rewrite !fmap_cons, Hc, Hf.
Qed.

(** C2, counterexample.  A mesh of MAX_ITEM_FACES + 1 = 1001 faces does not
    fail: the traversal returns its item, with face count 1001. *)
Lemma C2_one_face_too_many_is_accepted :
  faceCount <$> (inputItems 0%nat [triangles 1001] ≫= (.!! 0%nat))
  = Some 1001%Q.
Proof. vm_compute. reflexivity. Qed.

(** C2 (amended).  Atlas construction has no capacity check.  No error it
    raises is a CapacityExceeded, and a scene whose meshes pass the geometry
    and material checks is mapped whatever their face counts: each mesh
    yields one item whose face count is a third of its index count.  So a
    mesh with exactly MAX_ITEM_FACES faces succeeds, and one with
    MAX_ITEM_FACES + 1 faces succeeds as well. *)
Theorem C2_any_face_count_is_accepted lightMap lightScene :
  (∀ e, kind_of e ≠ CapacityExceeded) ∧
  (Forall (accepted lightMap) lightScene →
   ∃ items,
     inputItems lightMap lightScene = Some items ∧
     faceCount <$> items =
       (λ o, Qred (inject_Z (Z.of_nat (faceVertexCount o)) / 3))
         <$> lightScene).
Proof.
  split; [by intros []|]. intros H.
  destruct (traverse_accepted lightMap lightScene H []) as (sc & new & Ht & Hf).
  exists new. unfold inputItems. rewrite Ht. done.
Qed.

Lemma triangles_accepted n : accepted 0%nat (triangles n).
Proof. unfold accepted, triangles. by repeat eexists. Qed.

Lemma C2_any_face_count_is_accepted_witness :
  ∃ items,
    inputItems 0%nat [triangles 1000; triangles 1001] = Some items ∧
    faceCount <$> items = [1000%Q; 1001%Q].
Proof.
  destruct (proj2 (C2_any_face_count_is_accepted 0%nat
                     [triangles 1000; triangles 1001])) as (items & Hi & Hf).
  - repeat constructor; apply triangles_accepted.
  - exists items. split; [exact Hi|]. rewrite Hf. vm_compute. reflexivity.
Defined.

(** C8, counterexample.  A mesh without a uv2 attribute raises nothing: the
    traversal completes, with no item for that mesh. *)
Lemma C8_missing_uv2_is_skipped :
  lacks_uv2 without_uv2 ∧
  (traverse 0%nat [without_uv2] []).2 = inr [] ∧
  inputItems 0%nat [without_uv2; triangles 1] ≠ None.
Proof.
  split; [unfold lacks_uv2, without_uv2; by repeat eexists|].
  split; [reflexivity|]. vm_compute. discriminate.
Qed.

(** C8 (amended).  During atlas construction a mesh that has a uv2
    attribute but no index buffer, or no normal attribute, makes the
    traversal throw (an UnsupportedGeometry error) at that mesh, whatever
    follows it, so that no items are delivered; a mesh that lacks the uv2
    attribute is skipped silently, the result being the one for the scene
    without it. *)
Theorem C8_missing_geometry lightMap pre o post items :
  inputItems lightMap pre = Some items →
  (lacks_index o →
     (traverse lightMap (pre ++ o :: post) []).2 = inl ExpectedFaceIndexArray ∧
     kind_of ExpectedFaceIndexArray = UnsupportedGeometry ∧
     inputItems lightMap (pre ++ o :: post) = None) ∧
  (lacks_normal o →
     (traverse lightMap (pre ++ o :: post) []).2 = inl ExpectedNormalAttribute ∧
     kind_of ExpectedNormalAttribute = UnsupportedGeometry ∧
     inputItems lightMap (pre ++ o :: post) = None) ∧
  (lacks_uv2 o →
     (traverse lightMap (pre ++ o :: post) []).2 =
     (traverse lightMap (pre ++ post) []).2).
Proof.
  unfold inputItems. intros Hpre.
  destruct (traverse lightMap pre []) as [pre' [e|its]] eqn:Htr;
    simpl in Hpre; [discriminate|]. injection Hpre as ->.
  rewrite !(traverse_app _ _ _ _ _ _ Htr). simpl.
  split; [|split].
  - intros (buffer & material & uv2Attr & -> & Hu & Hi). simpl.
    by rewrite Hu, Hi.
  - intros (buffer & material & uv2Attr & indexData & -> & Hu & Hi & Hn).
    simpl. by rewrite Hu, Hi, Hn.
  - intros (buffer & material & -> & Hu). simpl. rewrite Hu.
    by destruct (traverse lightMap post items).
Qed.

Lemma C8_missing_geometry_witness :
  inputItems 0%nat [triangles 1; without_index; triangles 2] = None ∧
  (traverse 0%nat [triangles 1; without_uv2; triangles 2] []).2 =
  (traverse 0%nat [triangles 1; triangles 2] []).2.
Proof.
  destruct (C8_missing_geometry 0%nat [triangles 1] without_index
              [triangles 2] _ eq_refl) as (Hi & _ & _).
  destruct (C8_missing_geometry 0%nat [triangles 1] without_uv2
              [triangles 2] _ eq_refl) as (_ & _ & Hu).
  split.
  - apply Hi. unfold lacks_index, without_index. by repeat eexists.
  - apply Hu. unfold lacks_uv2, without_uv2. by repeat eexists.
Defined.

End AtlasMapperFacts.

(** * Properties of the progressive renderer *)

Module AtlasFacts.
Import Atlas.

Lemma frame_of_rendered st o f :
  frame_of o = Some f → o = Rendered (state_after st o) f.
Proof. destruct o; simpl; congruence. Qed.

(** ** The fill cursor, step by step *)

Lemma set_pixelFillCount_id item :
  set_pixelFillCount item (pixelFillCount item) = item.
Proof. by destruct item. Qed.

Lemma advance_step info c item k :
  info !! c = Some item →
  pixelFillCount item = Some k →
  0 ≤ k < texels item →
  0 < faceTexelCols item →
  advance info c =
    Some (<[c := set_pixelFillCount item (Some (Z.rem (k + 1) (texels item)))]>
            info,
          if decide (k + 1 = texels item) then ((c + 1) mod length info)%nat
          else c,
          visit (length info) c item k).
Proof.
  intros Hi Hk Hr Hc. unfold advance. rewrite Hi. cbn [mbind option_bind].
  rewrite Hk. unfold js_succ, js_rem, visit, texels in *.
  cbn [fmap option_fmap option_map].
  set (T := faceTexelRows item * faceTexelCols item) in *.
  rewrite !decide_False by lia.
  assert (Hz : Z.rem (k + 1) T = 0 ↔ k + 1 = T).
  { rewrite Z.rem_mod_nonneg by lia. split.
    - intros H0. destruct (decide (k + 1 = T)) as [|Hne]; [done|].
      rewrite Z.mod_small in H0 by lia. lia.
    - intros ->. apply Z.mod_same. lia. }
  unfold js_floor_div.
  destruct (decide (faceTexelCols item = 0)) as [|_]; [lia|].
  destruct (decide (k + 1 = T)) as [He|Hne].
  - rewrite (proj2 Hz He). rewrite decide_True by done.
    do 3 f_equal. apply bool_decide_ext. split; intros [_ ?]; done.
  - assert (Hnz : Some (Z.rem (k + 1) T) ≠ Some 0).
    { intros [= H0]. by apply Hne, Hz. }
    rewrite decide_False by done.
    do 3 f_equal. apply bool_decide_ext. split; intros [? _]; done.
Qed.

Lemma advances_app a b info c :
  advances (a + b) info c =
    '(cs1, info1, c1) ← advances a info c;
    '(cs2, info2, c2) ← advances b info1 c1;
    Some (cs1 ++ cs2, info2, c2).
Proof.
  revert info c. induction a as [|a IH]; intros info c; simpl.
  - by destruct (advances b info c) as [[[??]?]|].
  - destruct (advance info c) as [[[info' next] cur]|]; simpl; [|done].
    rewrite IH. destruct (advances a info' next) as [[[cs1 info1] c1]|];
      simpl; [|done].
    by destruct (advances b info1 c1) as [[[??]?]|].
Qed.

Lemma advances_S n info c :
  advances (S n) info c =
    '(info', next, cur) ← advance info c;
    '(cs, info'', final) ← advances n info' next;
    Some (cur :: cs, info'', final).
Proof. done. Qed.

(** Walking the rest of a face: from texel [k] to its last one. *)
Lemma face_walk c m : ∀ info item k,
  info !! c = Some item →
  pixelFillCount item = Some k →
  0 ≤ k →
  k + Z.of_nat (S m) = texels item →
  0 < faceTexelCols item →
  advances (S m) info c =
    Some (visit (length info) c item <$> seqZ k (Z.of_nat (S m)),
          <[c := set_pixelFillCount item (Some 0)]> info,
          ((c + 1) mod length info)%nat).
Proof.
  induction m as [|m IH]; intros info item k Hi Hk H0 HT Hc.
  - rewrite advances_S, (advance_step info c item k) by (done || lia).
    cbn [mbind option_bind advances]. rewrite decide_True by lia.
    replace (k + 1) with (texels item) by lia.
    rewrite Z.rem_same by lia. done.
  - rewrite advances_S, (advance_step info c item k) by (done || lia).
    cbn [mbind option_bind]. rewrite decide_False by lia.
    rewrite Z.rem_small by lia.
    set (item1 := set_pixelFillCount item (Some (k + 1))).
    assert (Hlt : (c < length info)%nat) by (by eapply lookup_lt_Some).
    rewrite (IH (<[c := item1]> info) item1 (k + 1));
      [|by apply list_lookup_insert_eq|done|lia|
        change (texels item1) with (texels item); lia|done].
    cbn [mbind option_bind]. rewrite list_insert_insert_eq, length_insert.
    rewrite (seqZ_cons k (Z.of_nat (S (S m)))) by lia.
    replace (Z.pred (Z.of_nat (S (S m)))) with (Z.of_nat (S m)) by lia.
    done.
Qed.

(** Walking whole faces, one after the other: the faces are left as they
    were found. *)
Lemma faces_walk info count : ∀ c,
  (c < length info)%nat →
  Forall (λ item, pixelFillCount item = Some 0 ∧ walkable item) info →
  advances (texel_count info (faces_from (length info) c count)) info c =
    Some (faces_from (length info) c count ≫= face_visits info,
          info, ((c + count) mod length info)%nat).
Proof.
  induction count as [|count IH]; intros c Hc Hall.
  - cbn. by rewrite Nat.add_0_r, Nat.mod_small.
  - assert (Hfrom : faces_from (length info) c (S count) =
                    c :: faces_from (length info) ((c + 1) mod length info)
                           count).
    { unfold faces_from. cbn [seq fmap list_fmap].
      rewrite Nat.add_0_r, Nat.mod_small by done. f_equal.
      rewrite <- fmap_S_seq, <- list_fmap_compose. apply list_fmap_ext.
      intros _ j _. cbn. rewrite Nat.Div0.add_mod_idemp_l. f_equal. lia. }
    unfold texel_count. rewrite Hfrom, bind_cons, length_app.
    rewrite advances_app.
    destruct (lookup_lt_is_Some_2 info c Hc) as [item Hitem].
    destruct (proj1 (Forall_lookup _ _) Hall c item Hitem) as [Hfill [Hcols Hrows]].
    assert (HT : 0 < texels item) by (unfold texels; lia).
    assert (Hfv : face_visits info c =
                  visit (length info) c item <$> seqZ 0 (texels item))
      by (unfold face_visits; by rewrite Hitem).
    rewrite !Hfv, length_fmap, length_seqZ.
    destruct (Z.to_nat (texels item)) as [|m] eqn:Hm; [lia|].
    rewrite (face_walk c m info item 0) by (done || lia).
    cbn [mbind option_bind].
    rewrite <- Hfill, set_pixelFillCount_id, list_insert_id by done.
    fold (texel_count info
            (faces_from (length info) ((c + 1) mod length info) count)).
    rewrite IH by (done || apply Nat.mod_upper_bound; lia).
    cbn [mbind option_bind]. rewrite Nat.Div0.add_mod_idemp_l.
    replace (Z.of_nat (S m)) with (texels item) by lia.
    do 3 f_equal. lia.
Qed.

(** ** The order of a pass and its promotions *)

(** From face 4 on, the faces come in the order 4, 5, ..., n - 1 and
    then 0, 1, 2, 3. *)
Lemma faces_from_four n :
  (4 < n)%nat →
  faces_from n 4 n = seq 4 (n - 4) ++ [0; 1; 2; 3]%nat.
Proof.
  intros Hn. unfold faces_from.
  assert (Hs : seq 0 n = seq 0 (n - 4) ++ seq (n - 4) 4).
  { replace n with ((n - 4) + 4)%nat at 1 by lia. apply seq_app. }
  rewrite Hs, fmap_app. f_equal.
  - rewrite <- (fmap_add_seq 4 0). apply list_fmap_ext.
    intros i j Hj. apply lookup_seq in Hj as [-> Hlt].
    apply Nat.mod_small. lia.
  - cbn [seq fmap list_fmap].
    replace (4 + (n - 4))%nat with (0 + 1 * n)%nat by lia.
    replace (4 + S (n - 4))%nat with (1 + 1 * n)%nat by lia.
    replace (4 + S (S (n - 4)))%nat with (2 + 1 * n)%nat by lia.
    replace (4 + S (S (S (n - 4))))%nat with (3 + 1 * n)%nat by lia.
    rewrite !Nat.Div0.mod_add, !Nat.mod_small by lia. done.
Qed.

Lemma fmap_replicate_const {A B} (f : A → B) (b : B) l :
  Forall (λ a, f a = b) l → f <$> l = replicate (length l) b.
Proof. induction 1 as [|a l Ha _ IH]; [done|]. cbn. by rewrite Ha, IH. Qed.

(** The promotion flags of the visits of one face: only the last visit
    can promote, and it does when the next face is face 4. *)
Lemma face_flags info c item :
  info !! c = Some item →
  0 < texels item →
  promoted <$> face_visits info c =
    replicate (Z.to_nat (texels item) - 1) false ++
    [bool_decide (((c + 1) mod length info)%nat = 4%nat)].
Proof.
  intros Hi HT. unfold face_visits. rewrite Hi.
  destruct (Z.to_nat (texels item)) as [|m] eqn:Hm; [lia|].
  replace (texels item) with (Z.of_nat (S m)) by lia.
  rewrite seqZ_S, !fmap_app. cbn [fmap list_fmap]. f_equal.
  - rewrite <- list_fmap_compose.
    rewrite (fmap_replicate_const _ false).
    + rewrite length_seqZ. f_equal. lia.
    + apply Forall_seqZ. intros k Hk. cbn.
      apply bool_decide_eq_false. lia.
  - cbn. f_equal. apply bool_decide_ext. split; [by intros [_ ?]|].
    intros ?. split; [lia|done].
Qed.

Lemma faces_flags info faces :
  (4 < length info)%nat →
  Forall walkable info →
  Forall (λ c, (c < length info)%nat ∧ c ≠ 3%nat) faces →
  promoted <$> (faces ≫= face_visits info) =
    replicate (texel_count info faces) false.
Proof.
  intros Hn Hall. unfold texel_count.
  induction 1 as [|c faces [Hc Hne] _ IH]; [done|].
  rewrite bind_cons, fmap_app, length_app, replicate_add, IH. f_equal.
  destruct (lookup_lt_is_Some_2 info c Hc) as [item Hitem].
  destruct (proj1 (Forall_lookup _ _) Hall c item Hitem) as [Hcols Hrows].
  assert (HT : 0 < texels item) by (unfold texels; lia).
  rewrite (face_flags info c item Hitem HT).
  unfold face_visits. rewrite Hitem, length_fmap, length_seqZ.
  rewrite bool_decide_eq_false_2.
  - replace (Z.to_nat (texels item)) with (Z.to_nat (texels item) - 1 + 1)%nat
      at 2 by lia.
    by rewrite replicate_add.
  - destruct (decide (c + 1 = length info)%nat) as [->|].
    + rewrite Nat.Div0.mod_same. lia.
    + rewrite Nat.mod_small by lia. lia.
Qed.

(** In a pass that starts at face 4, only the very last visit promotes. *)
Lemma pass_flags info :
  (4 < length info)%nat →
  Forall walkable info →
  let faces := faces_from (length info) 4 (length info) in
  promoted <$> (faces ≫= face_visits info) =
    replicate (texel_count info faces - 1) false ++ [true].
Proof.
  intros Hn Hall faces. subst faces. rewrite faces_from_four by done.
  replace [0; 1; 2; 3]%nat with ([0; 1; 2]%nat ++ [3%nat]) by done.
  rewrite app_assoc. unfold texel_count.
  rewrite bind_app, fmap_app, length_app.
  assert (Hfaces : Forall (λ c, (c < length info)%nat ∧ c ≠ 3%nat)
                     (seq 4 (length info - 4) ++ [0; 1; 2]%nat)).
  { apply Forall_app. split; [|repeat constructor; lia].
    apply Forall_seq. intros; lia. }
  rewrite (faces_flags info _ Hn Hall Hfaces).
  destruct (lookup_lt_is_Some_2 info 3 ltac:(lia)) as [item Hitem].
  destruct (proj1 (Forall_lookup _ _) Hall 3%nat item Hitem) as [Hcols Hrows].
  assert (HT : 0 < texels item) by (unfold texels; lia).
  cbn [mbind list_bind]. rewrite app_nil_r.
  rewrite (face_flags info 3 item Hitem HT), app_assoc, <- replicate_add.
  rewrite bool_decide_eq_true_2 by (by rewrite Nat.mod_small by lia).
  do 2 f_equal. unfold texel_count.
  assert (length (face_visits info 3) = Z.to_nat (texels item)) as ->
    by (unfold face_visits; by rewrite Hitem, length_fmap, length_seqZ).
  lia.
Qed.

(** ** What keeps a frame from throwing *)

Lemma promote_stack_ok stack : stack_ok stack → stack_ok (promote_stack stack).
Proof.
  intros [Hne Hall]. unfold promote_stack.
  destruct (last stack) as [l|] eqn:Hl; [|done]. split; [done|].
  apply Forall_cons. split.
  - apply last_Some in Hl as [l' ->]. apply Forall_app in Hall as [_ Hall].
    by inversion Hall.
  - by apply Forall_take.
Qed.

Lemma texel_in_range item k :
  walkable item → rect_ok item → 0 ≤ k < texels item →
  let tx := Qfloor (left item * inject_Z atlasWidth) +
            Z.rem k (faceTexelCols item) in
  let ty := Qfloor (top item * inject_Z atlasWidth) + k / faceTexelCols item in
  0 ≤ texel_offset (Some tx) (Some ty) ∧
  texel_offset (Some tx) (Some ty) + 3 ≤ 3 * (atlasWidth * atlasHeight).
Proof.
  intros [Hc Hr] (Hx0 & Hx1 & Hy0 & Hy1) Hk tx ty. unfold texels in Hk.
  assert (0 ≤ Z.rem k (faceTexelCols item) < faceTexelCols item).
  { rewrite Z.rem_mod_nonneg by lia. apply Z.mod_pos_bound. lia. }
  assert (0 ≤ k / faceTexelCols item < faceTexelRows item).
  { split; [apply Z.div_pos; lia|]. apply Z.div_lt_upper_bound; lia. }
  unfold texel_offset, atlasWidth, atlasHeight in *. lia.
Qed.

(** ** Averaging and writing *)

Lemma average_div s : average s = (2 * s + 1024) / 2048.
Proof.
  unfold average, Math_round, pixelCount, probeTargetSize.
  unfold Qfloor, Qplus, Qdiv, Qmult, Qinv, inject_Z. simpl.
  f_equal. lia.
Qed.

Lemma average_nearest s :
  (inject_Z (average s) - mean s <= 1 # 2)%Q ∧
  (mean s - inject_Z (average s) < 1 # 2)%Q.
Proof.
  rewrite average_div. unfold mean, pixelCount, probeTargetSize.
  pose proof (Z.div_mod (2 * s + 1024) 2048 ltac:(lia)) as Hd.
  pose proof (Z.mod_pos_bound (2 * s + 1024) 2048 ltac:(lia)) as Hb.
  set (a := (2 * s + 1024) / 2048) in *.
  unfold Qle, Qlt, Qminus, Qplus, Qopp, Qdiv, Qmult, Qinv, inject_Z. simpl.
  lia.
Qed.

Lemma probe_sum_bounds n : ∀ l,
  (length l ≤ 4 * n)%nat →
  Forall (λ v, 0 ≤ v ≤ 255) l →
  0 ≤ (probe_sum l).1.1 ≤ 255 * Z.of_nat n ∧
  0 ≤ (probe_sum l).1.2 ≤ 255 * Z.of_nat n ∧
  0 ≤ (probe_sum l).2 ≤ 255 * Z.of_nat n.
Proof.
  induction n as [|n IH]; intros l Hl Hf.
  - destruct l; [simpl; lia|simpl in Hl; lia].
  - destruct l as [|r [|g [|b [|a l]]]]; try (simpl; lia).
    simpl in Hl. inversion_clear Hf as [|? ? Hr Hf1].
    inversion_clear Hf1 as [|? ? Hg Hf2]. inversion_clear Hf2 as [|? ? Hb Hf3].
    inversion_clear Hf3 as [|? ? _ Hf4].
    destruct (IH l ltac:(lia) Hf4) as (H1 & H2 & H3).
    cbn [probe_sum]. destruct (probe_sum l) as [[r' g'] b']. simpl in *. lia.
Qed.

Lemma average_byte s : 0 ≤ s ≤ 255 * 1024 → 0 ≤ average s ≤ 255.
Proof.
  intros H. rewrite average_div. split.
  - apply Z.div_pos; lia.
  - enough ((2 * s + 1024) / 2048 < 256) by lia.
    apply Z.div_lt_upper_bound; lia.
Qed.

Lemma set3_Some data offset v :
  0 ≤ offset → offset + 3 ≤ Z.of_nat (length data) →
  ∃ data', set3 data offset v = Some data' ∧ length data' = length data.
Proof.
  intros H0 H3. destruct v as [[r g] b]. unfold set3.
  rewrite decide_True by done. eexists. split; [done|].
  by rewrite !length_insert.
Qed.

Lemma set3_spec data offset r g b data' :
  set3 data offset (r, g, b) = Some data' →
  let o := Z.to_nat offset in
  length data' = length data ∧
  data' !! o = Some (r mod 256) ∧
  data' !! (o + 1)%nat = Some (g mod 256) ∧
  data' !! (o + 2)%nat = Some (b mod 256) ∧
  ∀ j, j ≠ o → j ≠ (o + 1)%nat → j ≠ (o + 2)%nat → data' !! j = data !! j.
Proof.
  unfold set3. destruct (decide _) as [[H0 H3]|]; [|discriminate].
  intros [= <-]. simpl. rewrite !length_insert. split; [done|].
  split; [|split; [|split]].
  - rewrite !list_lookup_insert_ne by lia.
    apply list_lookup_insert_eq. lia.
  - rewrite list_lookup_insert_ne by lia.
    apply list_lookup_insert_eq. rewrite length_insert. lia.
  - apply list_lookup_insert_eq. rewrite !length_insert. lia.
  - intros j H1 H2 H4. by rewrite !list_lookup_insert_ne.
Qed.

(** ** Whole frames *)

Section Frames.

Variables (Math_cos Math_sin : Q → Q) (Math_PI : Q).

Local Abbreviation tick := (tick Math_cos Math_sin Math_PI).
Local Abbreviation ticks := (ticks Math_cos Math_sin Math_PI).

(** What a rendering frame did, read off the code of [tick]. *)
(** The summing loop adds up each channel over all the pixels. *)
Lemma channel_bytes_cons r g b a rest (c : nat) :
  (c < 3)%nat →
  channel_bytes (r :: g :: b :: a :: rest) c =
    default 0 ([r; g; b] !! c) :: channel_bytes rest c.
Proof.
  intros Hc. unfold channel_bytes.
  replace (length (r :: g :: b :: a :: rest) / 4)%nat
    with (S (length rest / 4)).
  2:{ cbn [length].
      replace (S (S (S (S (length rest))))) with (1 * 4 + length rest)%nat
        by lia.
      by rewrite Nat.div_add_l by lia. }
  cbn [seq fmap list_fmap]. f_equal.
  - by destruct c as [|[|[|c]]]; [..|lia].
  - rewrite <- fmap_S_seq, <- list_fmap_compose. apply list_fmap_ext.
    intros i j _. cbn [compose].
    by replace (4 * S j + c)%nat with (S (S (S (S (4 * j + c))))) by lia.
Qed.

Lemma probe_sum_channels readback :
  (length readback mod 4 = 0)%nat →
  probe_sum readback =
    (channel_sum readback 0, channel_sum readback 1, channel_sum readback 2).
Proof.
  intros Hmod.
  assert (∃ n, length readback = (4 * n)%nat) as [n Hn].
  { exists (length readback / 4)%nat.
    pose proof (Nat.div_mod_eq (length readback) 4). lia. }
  clear Hmod. revert readback Hn. induction n as [|n IH]; intros readback Hn.
  - by destruct readback.
  - destruct readback as [|r [|g [|b [|a rest]]]]; cbn [length] in Hn;
      try lia.
    cbn [probe_sum]. rewrite (IH rest) by lia. unfold channel_sum.
    by rewrite !channel_bytes_cons by lia.
Qed.

(** The offset of the write is that of the texel being filled. *)
Lemma slot_offset_texel info current item info' next c :
  info !! current = Some item →
  advance info current = Some (info', next, c) →
  slot_offset item =
    texel_offset (texel_of item c).1 (texel_of item c).2.
Proof.
  intros Hitem Hadv. unfold advance in Hadv. rewrite Hitem in Hadv.
  cbn [mbind option_bind] in Hadv. injection Hadv as _ _ <-.
  unfold slot_offset, texel_of. cbn [faceTexelX faceTexelY fst snd].
  destruct (pixelFillCount item) as [k|]; [|done].
  cbn [js_rem js_floor_div]. by destruct (decide (faceTexelCols item = 0)).
Qed.

(** The promotion rotates a stack that is not empty. *)
Lemma promote_stack_rotated stack :
  stack ≠ [] → rotated stack (promote_stack stack).
Proof.
  intros Hne. destruct (exists_last Hne) as (init & last & ->).
  exists init, last. split; [done|]. unfold promote_stack.
  rewrite last_snoc, length_app. cbn [length].
  replace (length init + 1 - 1)%nat with (length init) by lia.
  by rewrite take_app_length.
Qed.

Lemma tick_rendered random readback st st' f :
  tick random readback st = Rendered st' f →
  ∃ item info' next c t0 ts data',
    atlasInfo st !! atlasFaceFillIndexRef st = Some item ∧
    advance (atlasInfo st) (atlasFaceFillIndexRef st) = Some (info', next, c) ∧
    atlasStack st = t0 :: ts ∧
    cursor f = c ∧
    (atlasTexelX f, atlasTexelY f) = texel_of item c ∧
    placement f = place item (atlasTexelX f) (atlasTexelY f) ∧
    estimate f =
      (average (probe_sum readback).1.1, average (probe_sum readback).1.2,
       average (probe_sum readback).2) ∧
    set3 (data t0) (texel_offset (atlasTexelX f) (atlasTexelY f)) (estimate f)
      = Some data' ∧
    atlasInfo st' = info' ∧
    atlasFaceFillIndexRef st' = next ∧
    atlasStack st' =
      (if promoted c then promote_stack else id)
        ({| data := data'; version := S (version t0) |} :: ts) ∧
    probeCam st' =
      {| position :=
           p ← placement f; applyMatrix4 (matrixWorld (mesh item)) (texelPos p);
         up := (λ p, up_vector Math_cos Math_sin Math_PI (dU p) (dV p) random)
                 <$> placement f;
         target := lookAtTarget <$> placement f |} ∧
    probeData st' = readback.
Proof.
  unfold Atlas.tick. destruct (decide _); [discriminate|].
  destruct (atlasInfo st !! atlasFaceFillIndexRef st) as [item|] eqn:Hi;
    [|discriminate].
  destruct (advance _ _) as [[[info' next] c]|] eqn:Ha; [|discriminate].
  destruct (probe_sum readback) as [[r g] b] eqn:Hs.
  destruct (atlasStack st) as [|t0 ts] eqn:Hst; [discriminate|].
  destruct (set3 _ _ _) as [data'|] eqn:Hset; [|discriminate].
  intros [= <- <-]. exists item, info', next, c, t0, ts, data'. simpl.
  repeat split; try done. by destruct (promoted c).
Qed.



(** A frame on a state that is [ready] renders, leaves a state that is
    [ready], and moves the cursor as [advance] says. *)
Lemma tick_ready random readback st :
  ready st →
  ∃ st' f,
    tick random readback st = Rendered st' f ∧
    ready st' ∧
    advance (atlasInfo st) (atlasFaceFillIndexRef st) =
      Some (atlasInfo st', atlasFaceFillIndexRef st', cursor f).
Proof.
  intros ([Hne Hlen] & Hcur & Hall).
  destruct (lookup_lt_is_Some_2 _ _ Hcur) as [item Hitem].
  destruct (proj1 (Forall_lookup _ _) Hall _ _ Hitem)
    as (Hwalk & Hrect & k & Hk & Hrange).
  pose proof (advance_step _ _ _ _ Hitem Hk Hrange (proj1 Hwalk)) as Hadv.
  destruct (texel_in_range item k Hwalk Hrect Hrange) as [Hlo Hhi].
  destruct (atlasStack st) as [|t0 ts] eqn:Hstack; [done|].
  apply Forall_cons in Hlen as [Ht0 Hts].
  unfold Atlas.tick. rewrite decide_False by (destruct (atlasInfo st); done).
  rewrite Hitem, Hadv, Hstack.
  destruct (probe_sum readback) as [[r g] b].
  cbn [fmap option_fmap option_map visit faceTexelX faceTexelY promoted].
  destruct (set3_Some (data t0) _ (average r, average g, average b) Hlo)
    as (data' & Hset & Hlen'); [rewrite Ht0; lia|].
  rewrite Hset.
  eexists _, _. split; [reflexivity|]. split; [|done]. split; [|split].
  - assert (stack_ok ({| data := data'; version := S (version t0) |} :: ts))
      as Hok.
    { split; [done|]. apply Forall_cons. split; [|done].
      cbn [data]. by rewrite Hlen'. }
    cbn [atlasStack]. destruct (bool_decide _); [by apply promote_stack_ok|done].
  - cbn [atlasFaceFillIndexRef atlasInfo]. rewrite length_insert.
    destruct (decide _); [|done]. apply Nat.mod_upper_bound. lia.
  - cbn [atlasInfo]. apply Forall_insert; [done|]. split; [done|]. split; [done|].
    exists (Z.rem (k + 1) (texels item)). split; [done|].
    change (texels (set_pixelFillCount item _)) with (texels item).
    rewrite Z.rem_mod_nonneg by lia. apply Z.mod_pos_bound. lia.
Qed.

Lemma ticks_ready inputs : ∀ st,
  ready st →
  ready (ticks inputs st).2 ∧
  advances (length inputs) (atlasInfo st) (atlasFaceFillIndexRef st) =
    Some (cursor <$> (ticks inputs st).1,
          atlasInfo (ticks inputs st).2,
          atlasFaceFillIndexRef (ticks inputs st).2).
Proof.
  induction inputs as [|[random readback] inputs IH]; intros st Hready.
  - done.
  - destruct (tick_ready random readback st Hready)
      as (st' & f & Hf & Hr & Hadv).
    destruct (IH _ Hr) as [Hr' Hadv'].
    cbn [Atlas.ticks length]. rewrite advances_S, Hadv, Hf.
    cbn [mbind option_bind]. rewrite Hadv'.
    by destruct (ticks inputs st') as [fs st''].
Qed.

(** One pass over an atlas of at least five untouched faces, all inside
    the atlas and with at least one texel: as many frames as there are
    texels walk the faces from face 4 on, each face row by row, and leave
    the cursor where it started. *)
Lemma pass_from_four inputs st :
  let info := atlasInfo st in
  let faces := faces_from (length info) 4 (length info) in
  stack_ok (atlasStack st) →
  (4 < length info)%nat →
  atlasFaceFillIndexRef st = 4%nat →
  Forall (λ item, pixelFillCount item = Some 0 ∧ walkable item ∧ rect_ok item)
         info →
  length inputs = texel_count info faces →
  cursor <$> (ticks inputs st).1 = faces ≫= face_visits info ∧
  atlasInfo (ticks inputs st).2 = info ∧
  atlasFaceFillIndexRef (ticks inputs st).2 = 4%nat ∧
  ready (ticks inputs st).2.
Proof.
  intros info faces Hstack Hn Hcur Hall Hlen.
  assert (Hready : ready st).
  { split; [done|]. split; [fold info; lia|].
    eapply Forall_impl; [exact Hall|]. intros item (Hfill & Hwalk & Hrect).
    split; [done|]. split; [done|]. exists 0. split; [done|].
    destruct Hwalk. unfold texels. lia. }
  destruct (ticks_ready inputs st Hready) as [Hready' Hadv].
  fold info in Hadv. rewrite Hlen, Hcur in Hadv. subst faces.
  rewrite faces_walk in Hadv;
    [|lia|eapply Forall_impl; [exact Hall|]; by intros item (? & ? & ?)].
  injection Hadv as H1 H2 H3.
  rewrite <- H1, <- H2, <- H3. split; [done|]. split; [done|].
  split; [|done]. subst info.
  change (S (S (S (S (length (atlasInfo st))))))
    with (4 + length (atlasInfo st))%nat.
  rewrite <- (Nat.mul_1_l (length (atlasInfo st))) at 1.
  rewrite Nat.Div0.mod_add. apply Nat.mod_small. lia.
Qed.

(** The stack after frames that all rendered and of which the last one,
    and only the last, promoted the stack. *)
Lemma ticks_stack_pass inputs : ∀ st t0 ts (m : nat),
  atlasStack st = t0 :: ts →
  length (ticks inputs st).1 = length inputs →
  promoted <$> (cursor <$> (ticks inputs st).1) = replicate m false ++ [true] →
  atlasStack (ticks inputs st).2 =
    promote_stack
      ({| data := foldl write (data t0) (ticks inputs st).1;
          version := (length inputs + version t0)%nat |} :: ts).
Proof.
  induction inputs as [|[random readback] inputs IH];
    intros st t0 ts m Hs Hlen Hflags.
  { cbn in Hflags. by destruct m. }
  cbn [Atlas.ticks] in *.
  destruct (tick random readback st) as [|e st1|st1 f] eqn:Ht;
    [done|done|].
  destruct (tick_rendered _ _ _ _ _ Ht)
    as (item & info' & next & c & t0' & ts' & data' & _ & _ & Hs' & Hc & _
        & _ & _ & Hset & _ & _ & Hstack & _).
  rewrite Hs in Hs'. injection Hs' as <- <-.
  specialize (IH st1). destruct (ticks inputs st1) as [fs st2] eqn:Hticks.
  cbn [fst snd length fmap list_fmap foldl] in *.
  assert (write (data t0) f = data') as Hw.
  { unfold write. by rewrite Hset. }
  rewrite Hw. destruct m as [|m].
  - cbn [replicate app] in Hflags. injection Hflags as Hp Hrest.
    destruct fs; [|done]. destruct inputs; [|done].
    cbn in Hticks. injection Hticks as <-. cbn [foldl length Nat.add].
    rewrite Hc in Hp. by rewrite Hstack, Hp.
  - cbn [replicate app] in Hflags. injection Hflags as Hp Hrest.
    rewrite Hc in Hp. rewrite Hp in Hstack. cbn [id] in Hstack.
    rewrite (IH _ _ m Hstack) by (done || lia).
    cbn [data version]. do 3 f_equal. lia.
Qed.

(** C10.  The fill cursor starts at atlas face 4.  A frame calls for the
    promotion of the stack exactly when it has exhausted its face (whose
    fill count is back to 0) and the face cursor has moved on to index 4;
    the stack it leaves is then the written one rotated, its last buffer
    first and so the next fill target, and the written stack as it is
    otherwise.  So on an atlas of at least five faces the first pass visits
    the faces in the order 4, 5, ..., then 0, 1, 2, 3, promotes with its
    very last frame only, and ends with the cursor on face 4, every face
    untouched again and the stack rotated once, so that the next pass is
    the same on the next buffer. *)
Theorem C10_cursor_starts_at_face_four :
  (∀ info, atlasFaceFillIndexRef (initial info) = 4%nat) ∧
  (∀ random readback st f,
     frame_of (tick random readback st) = Some f →
     let st' := state_after st (tick random readback st) in
     (promoted (cursor f) = true ↔
        pixelFillCount <$> atlasInfo st' !! currentAtlasFaceIndex (cursor f)
          = Some (Some 0) ∧
        atlasFaceFillIndexRef st' = 4%nat) ∧
     ∃ t0 ts data',
       atlasStack st = t0 :: ts ∧
       let written := {| data := data'; version := S (version t0) |} in
       if promoted (cursor f)
       then ∃ init last, written :: ts = init ++ [last] ∧
                         atlasStack st' = last :: init
       else atlasStack st' = written :: ts) ∧
  (∀ inputs st t0 ts,
     let info := atlasInfo st in
     let faces := faces_from (length info) 4 (length info) in
     atlasStack st = t0 :: ts →
     stack_ok (atlasStack st) →
     (4 < length info)%nat →
     atlasFaceFillIndexRef st = 4%nat →
     Forall (λ item,
               pixelFillCount item = Some 0 ∧ walkable item ∧ rect_ok item)
            info →
     length inputs = texel_count info faces →
     faces = seq 4 (length info - 4) ++ [0; 1; 2; 3]%nat ∧
     cursor <$> (ticks inputs st).1 = faces ≫= face_visits info ∧
     promoted <$> (cursor <$> (ticks inputs st).1) =
       replicate (length inputs - 1) false ++ [true] ∧
     atlasInfo (ticks inputs st).2 = info ∧
     atlasFaceFillIndexRef (ticks inputs st).2 = 4%nat ∧
     stack_ok (atlasStack (ticks inputs st).2) ∧
     ∃ data' init last,
       {| data := data'; version := (length inputs + version t0)%nat |} :: ts
         = init ++ [last] ∧
       atlasStack (ticks inputs st).2 = last :: init).
Proof.
  split; [done|]. split.
  - intros random readback st f Hf st'. subst st'.
    apply (frame_of_rendered st) in Hf.
    destruct (tick_rendered _ _ _ _ _ Hf)
      as (item & info' & next & c & t0 & ts & data' & Hi & Hadv & Hstack &
          Hc & _ & _ & _ & _ & Hinfo & Hnext & Hstack' & _).
    split.
    2:{ exists t0, ts, data'. split; [done|]. cbv zeta.
        rewrite Hstack', Hc. destruct (promoted c); [|done].
        by apply promote_stack_rotated. }
    rewrite Hc, Hinfo, Hnext. unfold advance in Hadv. rewrite Hi in Hadv.
    cbn [mbind option_bind] in Hadv. injection Hadv as <- <- <-.
    cbn [promoted currentAtlasFaceIndex].
    rewrite list_lookup_insert_eq by (by eapply lookup_lt_Some).
    cbn [fmap option_fmap option_map pixelFillCount set_pixelFillCount].
    rewrite bool_decide_eq_true. split.
    + intros [-> ?]. done.
    + intros [[= ->] ?]. done.
  - intros inputs st t0 ts info faces Hst Hstack Hn Hcur Hall Hlen.
    destruct (pass_from_four inputs st Hstack Hn Hcur Hall Hlen)
      as (Hvisits & Hinfo & Hfinal & Hready & _).
    fold info faces in Hvisits, Hinfo.
    assert (Hflags : promoted <$> (cursor <$> (ticks inputs st).1) =
                       replicate (length inputs - 1) false ++ [true]).
    { rewrite Hvisits, Hlen. apply pass_flags; [done|].
      eapply Forall_impl; [exact Hall|]. by intros item (? & ? & ?). }
    assert (Hframes : length (ticks inputs st).1 = length inputs).
    { rewrite Hlen. unfold texel_count. rewrite <- Hvisits.
      by rewrite length_fmap. }
    split; [by apply faces_from_four|].
    split; [done|]. split; [done|]. split; [done|]. split; [done|].
    split; [done|].
    rewrite (ticks_stack_pass inputs st t0 ts _ Hst Hframes Hflags).
    eexists. by apply promote_stack_rotated.
Qed.

(** C3 (amended).  On every renderer tick that resolves a texel of a face
    to finite local coordinates (pU, pV), the probe camera is positioned
    (after the mesh's world transform) exactly at the surface point
    o + (u - o) pU + (v - o) pV, where o, u, v are corners 2, 3 and 0 of the
    face; this is the bilinear interpolation of the four corners whenever
    the face is a parallelogram.  The camera is not offset: it looks from
    that point at the point plus the normal of corner 0, which is not
    interpolated.  Its up vector is (u - o) cos a - (v - o) sin a, in the
    plane of the face, for the angle a = random * PI drawn at this visit. *)
Theorem C3_probe_placement random readback st f item p :
  frame_of (tick random readback st) = Some f →
  atlasInfo st !! atlasFaceFillIndexRef st = Some item →
  placement f = Some p →
  let cam := probeCam (state_after st (tick random readback st)) in
  let a := (random * Math_PI)%Q in
  ∃ tx ty o u v n0,
    atlasTexelX f = Some tx ∧ atlasTexelY f = Some ty ∧
    corner (attributes_position_array (buffer item)) item 2 = Some o ∧
    corner (attributes_position_array (buffer item)) item 3 = Some u ∧
    corner (attributes_position_array (buffer item)) item 0 = Some v ∧
    corner (attributes_normal_array (buffer item)) item 0 = Some n0 ∧
    pU p = ((inject_Z tx + (1 # 2) - left item * inject_Z atlasWidth) /
            ((right item - left item) * inject_Z atlasWidth))%Q ∧
    pV p = ((inject_Z ty + (1 # 2) - top item * inject_Z atlasWidth) /
            ((bottom item - top item) * inject_Z atlasHeight))%Q ∧
    texelPos p =
      {| x := x o + (x u - x o) * pU p + (x v - x o) * pV p;
         y := y o + (y u - y o) * pU p + (y v - y o) * pV p;
         z := z o + (z u - z o) * pU p + (z v - z o) * pV p |} ∧
    position cam = applyMatrix4 (matrixWorld (mesh item)) (texelPos p) ∧
    target cam = Some (vadd (texelPos p) n0) ∧
    up cam =
      Some {| x := (x u - x o) * Math_cos a - (x v - x o) * Math_sin a;
              y := (y u - y o) * Math_cos a - (y v - y o) * Math_sin a;
              z := (z u - z o) * Math_cos a - (z v - z o) * Math_sin a |} ∧
    ∀ w, veq w (vsub (vadd u v) o) →
         veq (texelPos p) (bilinear o u v w (pU p) (pV p)).
Proof.
  intros Ht Hitem Hp cam a. apply (frame_of_rendered st) in Ht.
  destruct (tick_rendered _ _ _ _ _ Ht)
    as (item' & info' & next & c & t0 & ts & data' & Hi & _ & _ & _ & _ &
        Hpl & _ & _ & _ & _ & _ & Hcam & _).
  assert (item' = item) as -> by congruence.
  subst cam. rewrite Hcam, Hp. rewrite Hp in Hpl. clear Hcam Ht Hp.
  symmetry in Hpl. unfold place in Hpl.
  apply bind_Some in Hpl as (tx & Htx & Hpl).
  apply bind_Some in Hpl as (ty & Hty & Hpl). cbv zeta in Hpl.
  apply bind_Some in Hpl as (pu & Hpu & Hpl).
  apply bind_Some in Hpl as (pv & Hpv & Hpl).
  apply bind_Some in Hpl as (o & Ho & Hpl).
  apply bind_Some in Hpl as (u & Hu & Hpl).
  apply bind_Some in Hpl as (v & Hv & Hpl).
  apply bind_Some in Hpl as (n0 & Hn & Hpl).
  injection Hpl as <-.
  unfold js_div in Hpu, Hpv.
  destruct (Qeq_bool _ 0); [discriminate|]. injection Hpu as <-.
  destruct (Qeq_bool _ 0); [discriminate|]. injection Hpv as <-.
  exists tx, ty, o, u, v, n0. unfold corner. rewrite !Nat.add_0_r.
  cbn [pU pV texelPos lookAtTarget dU dV vsub x y z mbind option_bind fmap
       option_fmap option_map up_vector].
  repeat split; try done.
  all: set (pu := ((inject_Z tx + _ - _) / _)%Q);
    set (pv := ((inject_Z ty + _ - _) / _)%Q); clearbody pu pv;
    match goal with H : veq _ _ |- _ => destruct H as (Hx & Hy & Hz) end;
    cbn [bilinear vsub vadd x y z] in *; unfold lerp2;
    rewrite ?Hx, ?Hy, ?Hz; ring.
Qed.

(** C5 (amended).  On each renderer tick that renders, the texel's
    estimate is, per RGB channel, the unweighted mean over all 1024 pixels
    of the probe readback rounded to the nearest integer (halves upwards),
    so a byte within 1/2 of the mean; and it replaces exactly the three
    bytes of the texel being filled, at offset
    [3 * (row * atlasWidth + column)] of the buffer at the head of the
    stack, whatever they held: every other byte keeps its value, the
    length is unchanged, and the version of the texture goes up by one (it
    is marked for upload).  The buffer stays at the head of the stack, or,
    on the frame that promotes, the stack is rotated. *)
Theorem C5_rounded_mean_overwrites_texel random readback st f t0 ts :
  frame_of (tick random readback st) = Some f →
  atlasStack st = t0 :: ts →
  length readback = 4096%nat →
  Forall (λ v, 0 ≤ v ≤ 255) readback →
  let m := channel_mean readback in
  let st' := state_after st (tick random readback st) in
  (length (channel_bytes readback 0) = 1024%nat ∧
   length (channel_bytes readback 1) = 1024%nat ∧
   length (channel_bytes readback 2) = 1024%nat) ∧
  estimate f =
    (Math_round (m 0%nat), Math_round (m 1%nat), Math_round (m 2%nat)) ∧
  ((inject_Z (estimate f).1.1 - m 0%nat <= 1 # 2)%Q ∧
   (m 0%nat - inject_Z (estimate f).1.1 < 1 # 2)%Q) ∧
  ((inject_Z (estimate f).1.2 - m 1%nat <= 1 # 2)%Q ∧
   (m 1%nat - inject_Z (estimate f).1.2 < 1 # 2)%Q) ∧
  ((inject_Z (estimate f).2 - m 2%nat <= 1 # 2)%Q ∧
   (m 2%nat - inject_Z (estimate f).2 < 1 # 2)%Q) ∧
  ∃ item data',
    atlasInfo st !! atlasFaceFillIndexRef st = Some item ∧
    let o := Z.to_nat (slot_offset item) in
    let written := {| data := data'; version := S (version t0) |} in
    (if promoted (cursor f) then rotated (written :: ts) (atlasStack st')
     else atlasStack st' = written :: ts) ∧
    length data' = length (data t0) ∧
    data' !! o = Some (estimate f).1.1 ∧
    data' !! (o + 1)%nat = Some (estimate f).1.2 ∧
    data' !! (o + 2)%nat = Some (estimate f).2 ∧
    ∀ j, j ≠ o → j ≠ (o + 1)%nat → j ≠ (o + 2)%nat →
         data' !! j = data t0 !! j.
Proof.
  intros Ht Hst Hlen Hbytes m st'. subst m st'.
  apply (frame_of_rendered st) in Ht.
  destruct (tick_rendered _ _ _ _ _ Ht)
    as (item & info' & next & c & t0' & ts' & data' & Hitem & Hadv & Hst' &
        Hc & Htexel & _ & He & Hset & _ & _ & Hstack & _).
  rewrite Hst in Hst'. injection Hst' as <- <-.
  destruct (probe_sum_bounds 1024 readback ltac:(lia) Hbytes)
    as (Hr & Hg & Hb).
  rewrite (probe_sum_channels readback) in He, Hr, Hg, Hb
    by (by rewrite Hlen).
  cbn [fst snd] in He, Hr, Hg, Hb.
  assert (Hpixels : ∀ c, length (channel_bytes readback c) = 1024%nat).
  { intros c'. unfold channel_bytes. by rewrite length_fmap, length_seq, Hlen. }
  assert (Hmean : ∀ c, channel_mean readback c = mean (channel_sum readback c)).
  { intros c'. unfold channel_mean. by rewrite Hpixels. }
  split; [by rewrite !Hpixels|]. rewrite !Hmean.
  split; [exact He|]. rewrite He. cbn [fst snd].
  split; [apply average_nearest|]. split; [apply average_nearest|].
  split; [apply average_nearest|].
  exists item, data'. split; [exact Hitem|]. rewrite He in Hset.
  rewrite (slot_offset_texel _ _ _ _ _ _ Hitem Hadv), <- Htexel.
  cbn [fst snd].
  destruct (set3_spec _ _ _ _ _ _ Hset) as (Hl & H0 & H1 & H2 & Hrest).
  rewrite Z.mod_small in H0 by (pose proof (average_byte (channel_sum readback 0)); lia).
  rewrite Z.mod_small in H1 by (pose proof (average_byte (channel_sum readback 1)); lia).
  rewrite Z.mod_small in H2 by (pose proof (average_byte (channel_sum readback 2)); lia).
  split; [|done]. rewrite Hstack, Hc.
  destruct (promoted c); [by apply promote_stack_rotated|done].
Qed.

End Frames.

(** ** The claims on sample inputs *)

(** C3, counterexample.  For the skewed quad the tick resolves the local
    coordinates (1/4, 1/2) and puts the camera at (1/4, 1/2, 0), while the
    bilinear interpolation of the four corners there is (3/8, 5/8, 0) and
    the interpolated normal is (0, 0, 1): the camera is at no offset of the
    one along the other. *)
Lemma C3_probe_is_not_at_the_bilinear_point :
  five_faces !! 4%nat = Some skewed_face ∧
  (λ p, (Qred (pU p), Qred (pV p))) <$> (frame_of first_frame ≫= placement)
    = Some (1 # 4, 1 # 2)%Q ∧
  vred <$> position first_camera
    = Some {| x := 1 # 4; y := 1 # 2; z := 0 |} ∧
  vred <$> interpolated (attributes_position_array skewed) skewed_face
             (1 # 4) (1 # 2)
    = Some {| x := 3 # 8; y := 5 # 8; z := 0 |} ∧
  vred <$> interpolated (attributes_normal_array skewed) skewed_face
             (1 # 4) (1 # 2)
    = Some {| x := 0; y := 0; z := 1 |} ∧
  ∀ p point normal offset,
    position first_camera = Some p →
    interpolated (attributes_position_array skewed) skewed_face
      (1 # 4) (1 # 2) = Some point →
    interpolated (attributes_normal_array skewed) skewed_face
      (1 # 4) (1 # 2) = Some normal →
    ¬ veq p (vadd point (scale offset normal)).
Proof.
  split; [reflexivity|].
  split; [vm_compute; reflexivity|]. split; [vm_compute; reflexivity|].
  split; [vm_compute; reflexivity|]. split; [vm_compute; reflexivity|].
  intros p point normal [n d] Hp Hpoint Hnormal [Hx _].
  vm_compute in Hp. vm_compute in Hpoint. vm_compute in Hnormal.
  injection Hp as <-. injection Hpoint as <-. injection Hnormal as <-.
  revert Hx. unfold Qeq. simpl. lia.
Qed.

Lemma C3_probe_placement_witness :
  ∃ p, frame_of first_frame ≫= placement = Some p ∧
       target first_camera =
         Some (vadd (texelPos p) {| x := 0; y := 0; z := 1 |}).
Proof.
  unfold first_camera, first_frame.
  assert (∃ f, frame_of (tick cos_at_0 sin_at_0 pi_rounded 0 faint_red
                           (initial five_faces)) = Some f) as [f Hf]
    by (vm_compute; eexists; reflexivity).
  assert (∃ p, placement f = Some p) as [p Hp].
  { pose proof Hf as Hf'. vm_compute in Hf'. injection Hf' as <-.
    eexists. reflexivity. }
  destruct (C3_probe_placement cos_at_0 sin_at_0 pi_rounded 0 faint_red
              (initial five_faces) f skewed_face p Hf eq_refl Hp)
    as (tx & ty & o & u & v & n0 & _ & _ & _ & _ & _ & Hn & _ & _ & _ &
        _ & Htarget & _).
  exists p. rewrite Hf. split; [exact Hp|].
  vm_compute in Hn. injection Hn as <-. exact Htarget.
Defined.



Lemma initial_stack_ok info : stack_ok (atlasStack (initial info)).
Proof.
  unfold initial. cbn [atlasStack]. split; [discriminate|].
  apply Forall_cons. split; [vm_compute; reflexivity|].
  apply Forall_cons. split; [vm_compute; reflexivity|]. apply Forall_nil_2.
Qed.

Lemma five_faces_ok :
  Forall (λ item, pixelFillCount item = Some 0 ∧ walkable item ∧ rect_ok item)
         five_faces.
Proof.
  unfold five_faces, walkable, rect_ok.
  repeat (apply Forall_cons; split;
          [repeat split; (reflexivity || (vm_compute; discriminate))|]).
  apply Forall_nil_2.
Qed.

Lemma C10_cursor_starts_at_face_four_witness :
  currentAtlasFaceIndex <$>
    (cursor <$> (ticks cos_at_0 sin_at_0 pi_rounded eight_frames
                   (initial five_faces)).1)
    = [4; 4; 0; 0; 1; 1; 2; 3]%nat ∧
  promoted <$>
    (cursor <$> (ticks cos_at_0 sin_at_0 pi_rounded eight_frames
                   (initial five_faces)).1)
    = [false; false; false; false; false; false; false; true] ∧
  (promoted (visit 5 4 skewed_face 0) = true ↔
     pixelFillCount <$>
       atlasInfo (state_after (initial five_faces)
                    (tick cos_at_0 sin_at_0 pi_rounded 0 faint_red
                       (initial five_faces))) !! 4%nat = Some (Some 0) ∧
     atlasFaceFillIndexRef
       (state_after (initial five_faces)
          (tick cos_at_0 sin_at_0 pi_rounded 0 faint_red
             (initial five_faces))) = 4%nat) ∧
  ∃ data',
    atlasStack (ticks cos_at_0 sin_at_0 pi_rounded eight_frames
                  (initial five_faces)).2 =
      [createAtlasTexture atlasWidth atlasHeight false;
       {| data := data'; version := 9 |}].
Proof.
  destruct (C10_cursor_starts_at_face_four cos_at_0 sin_at_0 pi_rounded)
    as (_ & Hstep & Hpass).
  destruct (Hpass eight_frames (initial five_faces) _ _ eq_refl
              (initial_stack_ok five_faces) ltac:(cbn; lia) eq_refl
              five_faces_ok eq_refl)
    as (_ & Hvisits & Hflags & _ & _ & _ & data' & init & last & Heq &
        Hfinal).
  split; [|split; [|split]].
  - rewrite Hvisits. vm_compute. reflexivity.
  - rewrite Hflags. reflexivity.
  - pose (f := {| cursor := visit 5 4 skewed_face 0;
                  atlasTexelX := Some 64; atlasTexelY := Some 0;
                  placement := place skewed_face (Some 64) (Some 0);
                  estimate := (0, 0, 0) |}).
    apply (Hstep 0%Q faint_red (initial five_faces) f).
    vm_compute. reflexivity.
  - exists data'. rewrite Hfinal.
    apply (app_inj_tail [_] init _ last) in Heq as [<- <-]. reflexivity.
Defined.

(** C4, at the failing input.  With an atlas of one face (four texels) the
    first tick throws a TypeError before it moves anything: the cursor
    points at face 4, which does not exist.  Four ticks visit nothing. *)
Lemma C4_one_face_atlas_throws :
  texel_count one_face [0%nat] = 4%nat ∧
  raised (tick cos_at_0 sin_at_0 pi_rounded 0 faint_red (initial one_face))
    = Some TypeError ∧
  (ticks cos_at_0 sin_at_0 pi_rounded (replicate 4 (0%Q, faint_red))
     (initial one_face)).1 = [] ∧
  atlasFaceFillIndexRef
    (ticks cos_at_0 sin_at_0 pi_rounded (replicate 4 (0%Q, faint_red))
       (initial one_face)).2 = 4%nat ∧
  atlasInfo
    (ticks cos_at_0 sin_at_0 pi_rounded (replicate 4 (0%Q, faint_red))
       (initial one_face)).2 = one_face.
Proof. repeat split; vm_compute; reflexivity. Qed.

(** C5, counterexample.  With one unit of red in the last pixel of an
    otherwise black readback, the mean of the red channel over all pixels
    is 1/1024, but the estimate the tick stores is 0. *)
Lemma C5_estimate_is_not_the_mean :
  estimate <$>
    frame_of (tick cos_at_0 sin_at_0 pi_rounded 0 late_red
                (initial five_faces)) = Some (0, 0, 0) ∧
  Z.of_nat (length (channel_bytes late_red 0)) = 1024 ∧
  channel_sum late_red 0 = 1 ∧
  (channel_mean late_red 0 == 1 # 1024)%Q ∧
  ¬ (inject_Z 0 == channel_mean late_red 0)%Q.
Proof.
  split; [vm_compute; reflexivity|]. split; [vm_compute; reflexivity|].
  split; [vm_compute; reflexivity|]. split; [vm_compute; reflexivity|].
  vm_compute. discriminate.
Qed.

Lemma C5_rounded_mean_overwrites_texel_witness :
  ((channel_mean glow 0 == 255 # 2)%Q ∧
   (channel_mean glow 1 == 201 # 2)%Q ∧
   (channel_mean glow 2 == 1 # 2)%Q) ∧
  (five_faces !! 4%nat = Some skewed_face ∧ slot_offset skewed_face = 192) ∧
  data (createAtlasTexture atlasWidth atlasHeight true) !! 192%nat = Some 0 ∧
  ∃ data',
    atlasStack (state_after (initial five_faces)
                  (tick cos_at_0 sin_at_0 pi_rounded 0 glow
                     (initial five_faces))) =
      [{| data := data'; version := 2 |};
       createAtlasTexture atlasWidth atlasHeight false] ∧
    data' !! 192%nat = Some 128 ∧
    data' !! 193%nat = Some 101 ∧
    data' !! 194%nat = Some 1 ∧
    data' !! 579%nat = Some 255.
Proof.
  split; [split; [|split]; vm_compute; reflexivity|].
  split; [split; vm_compute; reflexivity|].
  split; [vm_compute; reflexivity|].
  pose (f := {| cursor := {| currentAtlasFaceIndex := 4;
                             faceTexelX := Some 0; faceTexelY := Some 0;
                             promoted := false |};
                atlasTexelX := Some 64; atlasTexelY := Some 0;
                placement := place (face skewed 4 2 1) (Some 64) (Some 0);
                estimate := (128, 101, 1) |}).
  destruct (C5_rounded_mean_overwrites_texel cos_at_0 sin_at_0 pi_rounded
              0 glow (initial five_faces) f
              (createAtlasTexture atlasWidth atlasHeight true)
              [createAtlasTexture atlasWidth atlasHeight false])
    as (_ & _ & _ & _ & _ & item & data' & Hitem & Hstack & _ & H0 & H1 &
        H2 & Hrest).
  - vm_compute. reflexivity.
  - reflexivity.
  - reflexivity.
  - compute_done.
  - assert (item = skewed_face) as ->.
    { change (five_faces !! 4%nat = Some item) in Hitem.
      by injection Hitem as <-. }
    change (Z.to_nat (slot_offset skewed_face)) with 192%nat in *.
    exists data'. split; [exact Hstack|]. split; [exact H0|].
    split; [exact H1|]. split; [exact H2|].
    rewrite (Hrest 579%nat) by lia. vm_compute. reflexivity.
Defined.

End AtlasFacts.

(** * Properties of the compositor *)

Module CompositorFacts.
Import IrradianceCompositor.

(** The uniforms after the update loop: a factor named in [names] whose
    entry in [factors] is a non-zero number takes it; any other uniform is
    left as it was. *)
Lemma update_multipliers_lookup factors names : ∀ uniforms name,
  update_multipliers factors names uniforms !! name =
    match truthy_multiplier factors name with
    | Some m => if decide (name ∈ names) then Some m else uniforms !! name
    | None => uniforms !! name
    end.
Proof.
  unfold update_multipliers.
  induction names as [|n names IH]; intros uniforms name; cbn [foldl].
  - destruct (truthy_multiplier factors name); [|done].
    by rewrite decide_False by apply not_elem_of_nil.
  - rewrite IH. destruct (truthy_multiplier factors name) as [m|] eqn:Hm.
    + destruct (decide (name ∈ names)) as [Hin|Hnin].
      * by rewrite decide_True by (by apply elem_of_cons; right).
      * destruct (decide (name = n)) as [->|Hne].
        -- rewrite decide_True by (by apply elem_of_cons; left).
           rewrite Hm. apply lookup_insert_eq.
        -- rewrite decide_False by (rewrite elem_of_cons; by intros [?|?]).
           destruct (truthy_multiplier factors n); [|done].
           by rewrite lookup_insert_ne.
    + destruct (truthy_multiplier factors n) as [m|] eqn:Hn; [|done].
      rewrite lookup_insert_ne; [done|]. intros ->. congruence.
Qed.

(** ** The claims *)






(** C7, at the failing input.  A factor's multiplier edited from 2 to 0
    between two ticks does not take effect: the uniform that scales the
    layer keeps the value 2, because the update is skipped for a falsy
    multiplier, and the second tick composites 1 + 2 * 1 = 3. *)
Lemma C7_multiplier_edited_to_zero_is_ignored :
  factorMultiplier (useFrame (Some {["sun" := 2%Q]}) (sample black 1)) !! "sun"
    = Some 2%Q ∧
  factorMultiplier
    (useFrame (Some {["sun" := 0%Q]})
       (useFrame (Some {["sun" := 2%Q]}) (sample black 1))) !! "sun"
    = Some 2%Q ∧
  orthoTarget
    (useFrame (Some {["sun" := 0%Q]})
       (useFrame (Some {["sun" := 2%Q]}) (sample black 1))) !! 0%nat
    = Some {| r := 3; g := 3; b := 3 |}.
Proof. repeat split; vm_compute; reflexivity. Qed.

End CompositorFacts.

(** * Further properties of the atlas mapper *)

Module AtlasMapperMore.
Import IrradianceAtlasMapper.
Import AtlasMapperFacts.

(** A lookup in a concatenation of chunks of the same length. *)
Lemma lookup_bind_chunks {A B} (f : A → list B) (n : nat) (l : list A) :
  (∀ a, length (f a) = n) →
  ∀ k j a, l !! k = Some a → (j < n)%nat →
    (l ≫= f) !! (n * k + j)%nat = f a !! j.
Proof.
  intros Hn. induction l as [|b l IH]; intros k j a Hk Hj; [done|].
  rewrite bind_cons. destruct k as [|k]; simpl in Hk.
  - injection Hk as ->. rewrite Nat.mul_0_r, lookup_app_l by (rewrite Hn; lia).
    done.
  - rewrite lookup_app_r by (rewrite Hn; lia). rewrite Hn.
    replace (n * S k + j - n)%nat with (n * k + j)%nat by lia. by apply IH.
Qed.

Lemma length_bind_chunks {A B} (f : A → list B) (n : nat) (l : list A) :
  (∀ a, length (f a) = n) → length (l ≫= f) = (n * length l)%nat.
Proof.
  intros Hn. induction l as [|b l IH]; [simpl; lia|].
  rewrite bind_cons, length_app, Hn, IH. simpl. lia.
Qed.

Lemma length_copyAt d s src i : length (copyAt d s src i) = d.
Proof. unfold copyAt. by rewrite length_fmap, length_seq. Qed.

Lemma lookup_copyAt d s src i j :
  (j < d)%nat → copyAt d s src i !! j = Some (slot src (i * s + j)).
Proof.
  intros Hj. unfold copyAt. rewrite list_lookup_fmap, lookup_seq_lt by done.
  done.
Qed.

(** What the callback pushes for a mesh: the unrolled payload of that very
    mesh, under the index the item will have in [items]. *)
Lemma visit_push lightMap itemIndex o item o' :
  visit lightMap itemIndex o = Push item o' →
  ∃ buffer material indexData uSize uArray nSize nArray,
    o = Mesh (Buffer buffer) material ∧
    index buffer = Some indexData ∧
    attributes_uv2 buffer = Some (BufferAttribute uSize uArray) ∧
    attributes_normal buffer = Some (BufferAttribute nSize nArray) ∧
    (∃ material', material_check lightMap material = inr material') ∧
    o' = attach lightMap o ∧
    item = {| faceCount := Qred (inject_Z (Z.of_nat (length indexData)) / 3);
              perFaceBuffer :=
                unroll itemIndex indexData uSize uArray nSize nArray;
              originalMesh := o;
              originalBuffer := buffer |}.
Proof.
  destruct o as [|[|buffer] material]; simpl; try discriminate.
  destruct (attributes_uv2 buffer) as [[uS uA|]|] eqn:Hu; try discriminate;
    destruct (index buffer) as [indexData|] eqn:Hi; try discriminate;
    destruct (attributes_normal buffer) as [[nS nA|]|] eqn:Hn;
    try discriminate.
  destruct (material_check lightMap material) as [e|m'] eqn:Hm;
    try discriminate.
  intros [= <- <-]. exists buffer, material, indexData, uS, uA, nS, nA.
  split; [done|]. split; [done|]. split; [done|]. split; [done|].
  split; [by exists m'|]. split; [|done].
  destruct material as [| |[] [t|]]; simpl in Hm; try discriminate;
    try (destruct (decide (t = lightMap)); [|discriminate]);
    by injection Hm as <-.
Qed.

Lemma visit_skip lightMap itemIndex o :
  visit lightMap itemIndex o = Skip → participates o = false.
Proof.
  destruct o as [|[|buffer] material]; simpl; try done.
  destruct (attributes_uv2 buffer) as [uv2Attr|] eqn:Hu.
  - destruct (index buffer); [|discriminate].
    destruct (attributes_normal buffer) as [[nS nA|]|]; try discriminate.
    destruct uv2Attr; [|discriminate].
    destruct (material_check lightMap material); discriminate.
  - intros _. apply bool_decide_eq_false. by intros [? ?].
Qed.

(** The items gathered by a traversal that returns: one per participating
    mesh, in scene order, each pushed under its own index; and the scene it
    leaves has the light map attached to exactly these meshes. *)
Lemma traverse_items lightMap objects : ∀ items0 scene items,
  traverse lightMap objects items0 = (scene, inr items) →
  ∃ new,
    items = items0 ++ new ∧
    originalMesh <$> new = filter (λ o, participates o = true) objects ∧
    scene = (λ o, if participates o then attach lightMap o else o)
              <$> objects ∧
    ∀ j item, new !! j = Some item →
      ∃ o', visit lightMap (length items0 + j) (originalMesh item)
            = Push item o'.
Proof.
  induction objects as [|o objects IH]; intros items0 scene items H;
    simpl in H.
  - injection H as <- <-. exists []. by rewrite app_nil_r.
  - destruct (visit lightMap (length items0) o) as [|e pushed|item o']
      eqn:Hv.
    + destruct (traverse lightMap objects items0) as [p r] eqn:Ht.
      injection H as <- ->. destruct (IH _ _ _ Ht) as (new & -> & Ho & Hs & Hn).
      pose proof (visit_skip _ _ _ Hv) as Hp.
      exists new. split; [done|]. split; [|split; [|done]].
      * rewrite filter_cons_False; [done|]. by rewrite Hp.
      * rewrite fmap_cons, Hp. by f_equal.
    + discriminate.
    + destruct (traverse lightMap objects (items0 ++ [item])) as [p r] eqn:Ht.
      injection H as <- ->. destruct (IH _ _ _ Ht) as (new & -> & Ho & Hs & Hn).
      destruct (visit_push _ _ _ _ _ Hv)
        as (buffer & material & indexData & uS & uA & nS & nA &
            -> & Hi & Hu & Hno & Hm & -> & ->).
      assert (Hp : participates (Mesh (Buffer buffer) material) = true).
      { simpl. apply bool_decide_eq_true. by rewrite Hu. }
      exists ({| faceCount := Qred (inject_Z (Z.of_nat (length indexData)) / 3);
                 perFaceBuffer :=
                   unroll (length items0) indexData uS uA nS nA;
                 originalMesh := Mesh (Buffer buffer) material;
                 originalBuffer := buffer |} :: new).
      split; [by rewrite <- app_assoc|]. split; [|split].
      * rewrite filter_cons_True by done. rewrite fmap_cons. by f_equal.
      * rewrite fmap_cons, Hp. by f_equal.
      * intros [|j] it Hj; simpl in Hj.
        -- injection Hj as <-. rewrite Nat.add_0_r. eauto.
        -- destruct (Hn j it Hj) as [o'' Ho'']. exists o''.
           rewrite length_app in Ho''. simpl in Ho''.
           by replace (length items0 + S j)%nat
             with (length items0 + 1 + j)%nat by lia.
Qed.

(** The item at index [i] of a traversal that returned is the payload of
    its own mesh, unrolled under index [i]. *)
Lemma inputItems_item lightMap lightScene items i item :
  inputItems lightMap lightScene = Some items →
  items !! i = Some item →
  ∃ material indexData uSize uArray nSize nArray,
    originalMesh item = Mesh (Buffer (originalBuffer item)) material ∧
    index (originalBuffer item) = Some indexData ∧
    attributes_uv2 (originalBuffer item)
      = Some (BufferAttribute uSize uArray) ∧
    attributes_normal (originalBuffer item)
      = Some (BufferAttribute nSize nArray) ∧
    (∃ material', material_check lightMap material = inr material') ∧
    faceCount item = Qred (inject_Z (Z.of_nat (length indexData)) / 3) ∧
    perFaceBuffer item = unroll i indexData uSize uArray nSize nArray.
Proof.
  unfold inputItems. intros Ht Hi.
  destruct (traverse lightMap lightScene []) as [scene [e|its]] eqn:Htr;
    simpl in Ht; [discriminate|]. injection Ht as ->.
  destruct (traverse_items _ _ _ _ _ Htr) as (new & -> & _ & _ & Hnew).
  simpl in Hi. destruct (Hnew _ _ Hi) as [o' Hv]. simpl in Hv.
  destruct (visit_push _ _ _ _ _ Hv)
    as (buffer & material & indexData & uS & uA & nS & nA &
        Ho & Hidx & Hu & Hn & Hm & _ & Hitem).
  rewrite Hitem in Ho |- *. simpl in Ho |- *.
  exists material, indexData, uS, uA, nS, nA. by rewrite Ho.
Qed.

(** X1.  Unrolling copies the right vertex: in the payload of an item,
    unrolled vertex [k] carries the uv2 pair and the normal triple of the
    vertex the index buffer names at [k] (NaN where the index points past
    the attribute), and the payload has one position triple, two uv2
    floats and three normal floats per index entry. *)
Theorem unrolled_vertex_carries_indexed_attributes
    lightMap lightScene items (i : nat) item
    indexData uSize uArray nSize nArray (k idx : nat) :
  inputItems lightMap lightScene = Some items →
  items !! i = Some item →
  index (originalBuffer item) = Some indexData →
  attributes_uv2 (originalBuffer item) = Some (BufferAttribute uSize uArray) →
  attributes_normal (originalBuffer item)
    = Some (BufferAttribute nSize nArray) →
  indexData !! k = Some idx →
  length (position (perFaceBuffer item)) = length indexData ∧
  length (uv2 (perFaceBuffer item)) = (2 * length indexData)%nat ∧
  length (normal (perFaceBuffer item)) = (3 * length indexData)%nat ∧
  (∀ j, (j < 2)%nat →
     uv2 (perFaceBuffer item) !! (2 * k + j)%nat
       = Some (slot uArray (idx * uSize + j))) ∧
  (∀ j, (j < 3)%nat →
     normal (perFaceBuffer item) !! (3 * k + j)%nat
       = Some (slot nArray (idx * nSize + j))).
Proof.
  intros Ht Hi Hidx Hu Hn Hk.
  destruct (inputItems_item _ _ _ _ _ Ht Hi)
    as (material & indexData' & uS & uA & nS & nA & _ & Hidx' & Hu' & Hn' &
        _ & _ & ->).
  rewrite Hidx in Hidx'. rewrite Hu in Hu'. rewrite Hn in Hn'.
  injection Hidx' as <-. injection Hu' as <- <-. injection Hn' as <- <-.
  unfold unroll. cbn [position uv2 normal].
  rewrite length_fmap, length_seq.
  rewrite !(length_bind_chunks _ _ _ (length_copyAt _ _ _)).
  split; [done|]. split; [done|]. split; [done|]. split.
  - intros j Hj.
    rewrite (lookup_bind_chunks _ 2 _ (length_copyAt 2 uSize uArray) k j idx)
      by done.
    by apply lookup_copyAt.
  - intros j Hj.
    rewrite (lookup_bind_chunks _ 3 _ (length_copyAt 3 nSize nArray) k j idx)
      by done.
    by apply lookup_copyAt.
Qed.

Lemma unrolled_vertex_carries_indexed_attributes_witness :
  ∃ item,
    inputItems 0%nat [Mesh (Buffer triangle) (Single MeshPhongMaterial None)]
      = Some [item] ∧
    uv2 (perFaceBuffer item) !! 0%nat = Some (Finite 0) ∧
    uv2 (perFaceBuffer item) !! 1%nat = Some (Finite (1 # 4)) ∧
    normal (perFaceBuffer item) !! 0%nat = Some (Finite 1).
Proof.
  eexists. split; [reflexivity|].
  destruct (unrolled_vertex_carries_indexed_attributes 0%nat
              [Mesh (Buffer triangle) (Single MeshPhongMaterial None)]
              _ 0%nat _ [2; 0; 1]%nat 2%nat
              [0; 0; 1 # 2; 0; 0; 1 # 4]%Q 3%nat
              [0; 0; 1; 0; 1; 0; 1; 0; 0]%Q 0%nat 2%nat
              eq_refl eq_refl eq_refl eq_refl eq_refl eq_refl)
    as (_ & _ & _ & Huv & Hnormal).
  split; [exact (Huv 0%nat ltac:(lia))|].
  split; [exact (Huv 1%nat ltac:(lia))|exact (Hnormal 0%nat ltac:(lia))].
Defined.

Lemma facePos_corner itemIndex (f r : nat) :
  (r < 3)%nat →
  facePos itemIndex (3 * f + r) =
    (Z.land (Z.of_nat r) 1, Z.shiftr (Z.land (Z.of_nat r) 2) 1,
     toFloat32 (Z.of_nat itemIndex * MAX_ITEM_FACES + Z.of_nat f + 1)).
Proof.
  intros Hr. unfold facePos.
  assert (Hrem : Z.rem (Z.of_nat (3 * f + r)) 3 = Z.of_nat r).
  { rewrite Z.rem_mod_nonneg by lia.
    rewrite Nat2Z.inj_add, Nat2Z.inj_mul, Z.add_comm, Z.mul_comm.
    rewrite Z.mod_add by lia. apply Z.mod_small. lia. }
  rewrite Hrem. do 4 f_equal.
  replace (Z.of_nat (3 * f + r) - Z.of_nat r) with (Z.of_nat f * 3) by lia.
  by rewrite Z.div_mul.
Qed.

(** X2.  The three unrolled vertices of face [f] of item [i] carry the
    local corners (0,0), (1,0) and (0,1), in that order, and one and the
    same id, the 32-bit float nearest to [i * MAX_ITEM_FACES + f + 1]: the
    third coordinate is constant across each rasterised triangle.  The id
    is that number itself where the number is below 2^24 = 16777216. *)
Theorem face_vertices_share_id
    lightMap lightScene items (i : nat) item (f : nat) :
  inputItems lightMap lightScene = Some items →
  items !! i = Some item →
  (3 * f + 2 < length (position (perFaceBuffer item)))%nat →
  let encoded := Z.of_nat i * MAX_ITEM_FACES + Z.of_nat f + 1 in
  let id := toFloat32 encoded in
  position (perFaceBuffer item) !! (3 * f)%nat = Some (0, 0, id) ∧
  position (perFaceBuffer item) !! (3 * f + 1)%nat = Some (1, 0, id) ∧
  position (perFaceBuffer item) !! (3 * f + 2)%nat = Some (0, 1, id) ∧
  (encoded < 2 ^ 24 → id = encoded).
Proof.
  intros Ht Hi Hlen encoded id.
  destruct (inputItems_item _ _ _ _ _ Ht Hi)
    as (material & indexData & uS & uA & nS & nA & _ & _ & _ & _ & _ & _ &
        Hp).
  rewrite Hp in Hlen |- *. unfold unroll in *. cbn [position] in *.
  rewrite length_fmap, length_seq in Hlen.
  rewrite !list_lookup_fmap, !lookup_seq_lt by lia. cbn [fmap option_fmap
    option_map Nat.add].
  rewrite <- (Nat.add_0_r (3 * f)) at 1.
  rewrite !facePos_corner by lia. split; [done|]. split; [done|].
  split; [done|]. intros Hsmall. apply toFloat32_exact.
  subst encoded. unfold MAX_ITEM_FACES in *. lia.
Qed.

Lemma face_vertices_share_id_witness :
  written 0%nat [triangles 1; triangles 2] 1 3 = Some (0, 0, 1002) ∧
  written 0%nat [triangles 1; triangles 2] 1 4 = Some (1, 0, 1002) ∧
  written 0%nat [triangles 1; triangles 2] 1 5 = Some (0, 1, 1002).
Proof.
  assert (∃ item, inputItems 0%nat [triangles 1; triangles 2] ≫= (.!! 1%nat)
                  = Some item) as [item Hitem] by (eexists; reflexivity).
  destruct (inputItems 0%nat [triangles 1; triangles 2]) as [items|] eqn:Hi;
    [|discriminate].
  destruct (face_vertices_share_id 0%nat [triangles 1; triangles 2]
              items 1%nat item 1%nat Hi Hitem) as (H0 & H1 & H2 & Hid).
  - injection Hi as <-. injection Hitem as <-. cbn. lia.
  - unfold written. rewrite Hi. cbn [mbind option_bind].
    cbn [mbind option_bind] in Hitem. rewrite Hitem. cbn [mbind option_bind].
    rewrite Hid in H0, H1, H2 by reflexivity. done.
Defined.

(** X3.  Within the capacity the stored ids are unique across the whole
    map: two unrolled vertices with the same stored id, below
    2^24 = 16777216, both of faces below MAX_ITEM_FACES, belong to the same
    face of the same item.  (From 2^24 on the 32-bit float merges
    neighbouring ids.) *)
Theorem ids_unique_within_capacity
    lightMap lightScene items (i i' : nat) item item' (k k' : nat)
    px py px' py' id :
  inputItems lightMap lightScene = Some items →
  items !! i = Some item →
  items !! i' = Some item' →
  position (perFaceBuffer item) !! k = Some (px, py, id) →
  position (perFaceBuffer item') !! k' = Some (px', py', id) →
  Z.of_nat (k / 3) < MAX_ITEM_FACES →
  Z.of_nat (k' / 3) < MAX_ITEM_FACES →
  id < 2 ^ 24 →
  i = i' ∧ (k / 3 = k' / 3)%nat.
Proof.
  intros Ht Hi Hi' Hk Hk' Hcap Hcap' Hsmall.
  pose proof (inputItems_id _ _ _ _ _ _ _ _ _ Ht Hi Hk) as Hid.
  pose proof (inputItems_id _ _ _ _ _ _ _ _ _ Ht Hi' Hk') as Hid'.
  pose proof Hsmall as Hsmall'. rewrite Hid in Hsmall.
  rewrite Hid' in Hsmall'. unfold MAX_ITEM_FACES in *.
  rewrite toFloat32_below in Hid by (done || lia).
  rewrite toFloat32_below in Hid' by (done || lia). lia.
Qed.

Lemma ids_unique_within_capacity_witness :
  (1 = 1 ∧ 4 / 3 = 5 / 3)%nat.
Proof.
  assert (∃ item, inputItems 0%nat [triangles 1; triangles 2] ≫= (.!! 1%nat)
                  = Some item) as [item Hitem] by (eexists; reflexivity).
  destruct (inputItems 0%nat [triangles 1; triangles 2]) as [items|] eqn:Hi;
    [|discriminate].
  cbn [mbind option_bind] in Hitem.
  apply (ids_unique_within_capacity 0%nat [triangles 1; triangles 2]
           items 1%nat 1%nat item item 4%nat 5%nat 1 0 0 1 1002 Hi Hitem
           Hitem).
  - injection Hi as <-. injection Hitem as <-. reflexivity.
  - injection Hi as <-. injection Hitem as <-. reflexivity.
  - reflexivity.
  - reflexivity.
  - reflexivity.
Defined.

(** X4.  A mesh whose geometry is complete but whose material is absent,
    an array or of an unsupported kind makes the traversal throw
    "only single Lambert/Phong/standard materials are supported"; one of a
    supported kind that already carries another light map makes it throw
    "do not set your own light map manually on baked scene meshes".  Both
    are material conflicts, and no items are delivered.  A supported
    material with no light map, or with this very light map, passes. *)
Theorem material_is_checked lightMap pre buffer material post items :
  inputItems lightMap pre = Some items →
  complete buffer →
  let o := Mesh (Buffer buffer) material in
  let outcome := (traverse lightMap (pre ++ o :: post) []).2 in
  ((material = NoMaterial ∨ material = MaterialArray ∨
    ∃ t, material = Single MeshBasicMaterial t) →
   outcome = inl UnsupportedMaterial ∧
   kind_of UnsupportedMaterial = MaterialConflict ∧
   inputItems lightMap (pre ++ o :: post) = None) ∧
  (∀ kind t,
     material = Single kind (Some t) → kind ≠ MeshBasicMaterial →
     t ≠ lightMap →
     outcome = inl ForeignLightMap ∧
     kind_of ForeignLightMap = MaterialConflict ∧
     inputItems lightMap (pre ++ o :: post) = None) ∧
  (∀ kind,
     (material = Single kind None ∨ material = Single kind (Some lightMap)) →
     kind ≠ MeshBasicMaterial →
     ∃ item, visit lightMap (length items) o = Push item (attach lightMap o)).
Proof.
  intros Hpre ([indexData Hi] & (uS & uA & Hu) & (nS & nA & Hn)) o outcome.
  subst o outcome. unfold inputItems in *.
  destruct (traverse lightMap pre []) as [pre' [e|its]] eqn:Htr;
    simpl in Hpre; [discriminate|]. injection Hpre as ->.
  rewrite !(traverse_app _ _ _ _ _ _ Htr). cbn [traverse fst snd visit].
  rewrite Hu, Hi, Hn. split; [|split].
  - intros [->|[->|[t ->]]]; done.
  - intros kind t -> Hk Ht.
    destruct kind; try done; cbn; by rewrite decide_False.
  - intros kind [->| ->] Hk; destruct kind; try done; cbn;
      rewrite ?decide_True by done; eauto.
Qed.

Lemma material_is_checked_witness :
  inputItems 0%nat
    [triangles 1; Mesh (Buffer triangle) (Single MeshBasicMaterial None)]
    = None ∧
  inputItems 0%nat
    [triangles 1; Mesh (Buffer triangle) (Single MeshPhongMaterial (Some 7%nat))]
    = None.
Proof.
  assert (Hc : complete triangle).
  { split; [by eexists|]. split; by do 2 eexists. }
  split.
  - destruct (material_is_checked 0%nat [triangles 1] triangle
                (Single MeshBasicMaterial None) [] _ eq_refl Hc)
      as (H & _ & _).
    apply H. right. right. by eexists.
  - destruct (material_is_checked 0%nat [triangles 1] triangle
                (Single MeshPhongMaterial (Some 7%nat)) [] _ eq_refl Hc)
      as (_ & H & _).
    by apply (H MeshPhongMaterial 7%nat).
Defined.

(** X5.  When the traversal returns, its items are the participating meshes
    (the buffer geometries with a uv2 attribute) of the scene, one item per
    mesh and in scene order; each item's face count is a third of the
    length of the index buffer of its mesh. *)
Theorem items_are_the_participating_meshes lightMap lightScene items :
  inputItems lightMap lightScene = Some items →
  originalMesh <$> items = filter (λ o, participates o = true) lightScene ∧
  Forall (λ item,
            originalMesh item ∈ lightScene ∧
            faceCount item =
              Qred (inject_Z (Z.of_nat (faceVertexCount (originalMesh item)))
                    / 3))
         items.
Proof.
  intros Ht. assert (Ht' := Ht). unfold inputItems in Ht'.
  destruct (traverse lightMap lightScene []) as [scene [e|its]] eqn:Htr;
    simpl in Ht'; [discriminate|]. injection Ht' as ->.
  destruct (traverse_items _ _ _ _ _ Htr) as (new & -> & Ho & _ & _).
  simpl in *. split; [done|]. apply Forall_lookup. intros i item Hi.
  destruct (inputItems_item _ _ _ _ _ Ht Hi)
    as (m & indexData & uS & uA & nS & nA & Hmesh & Hidx & _ & _ & _ & Hf & _).
  split.
  - assert (Hin : originalMesh item ∈ originalMesh <$> new)
      by (apply list_elem_of_fmap_2; by eapply list_elem_of_lookup_2).
    rewrite Ho in Hin. by apply list_elem_of_filter in Hin as [_ ?].
  - rewrite Hf, Hmesh. cbn. by rewrite Hidx.
Qed.

Lemma items_are_the_participating_meshes_witness :
  ∃ items,
    inputItems 0%nat [Group; triangles 2; without_uv2; triangles 1]
      = Some items ∧
    originalMesh <$> items = [triangles 2; triangles 1].
Proof.
  eexists. split; [reflexivity|].
  apply (items_are_the_participating_meshes 0%nat
           [Group; triangles 2; without_uv2; triangles 1] _ eq_refl).
Defined.

(** What one call of the callback means for a node. *)
Lemma visit_deref lightMap itemIndex materials n :
  match visit lightMap itemIndex (deref materials n) with
  | Skip => participating n = false
  | Throw _ _ => participating n = true
  | Push item mesh' =>
      ∃ buffer ref kind t,
        n = MeshNode (Buffer buffer) ref ∧
        participating n = true ∧
        materials !! ref = Some (Single kind t) ∧
        kind ≠ MeshBasicMaterial ∧
        mesh' = Mesh (Buffer buffer) (Single kind (Some lightMap))
  end.
Proof.
  destruct n as [|[|buffer] ref]; [done..|].
  unfold participating. cbn [deref visit participates].
  destruct (attributes_uv2 buffer) as [uv2Attr|];
    [|by rewrite bool_decide_eq_false_2 by (by intros [? ?])].
  rewrite bool_decide_eq_true_2 by done.
  destruct (index buffer) as [indexData|]; [|done].
  destruct (attributes_normal buffer) as [[nS nA|]|]; [|done..].
  destruct uv2Attr as [uS uA|]; [|done].
  destruct (materials !! ref) as [[| |kind t]|] eqn:Hm;
    cbn [from_option id material_check]; [done..| |done].
  destruct kind, t as [t|]; try done;
    cbn [material_check]; try (destruct (decide (t = lightMap)); [|done]);
    eexists buffer, ref, _, _; by repeat split.
Qed.

Lemma traverse_shared_app lightMap pre rest : ∀ materials items0 materials1
    items1,
  traverse_shared lightMap pre materials items0 = (materials1, inr items1) →
  traverse_shared lightMap (pre ++ rest) materials items0 =
    traverse_shared lightMap rest materials1 items1.
Proof.
  induction pre as [|n pre IH]; intros materials items0 materials1 items1 H;
    cbn [traverse_shared app] in *.
  - by injection H as <- <-.
  - destruct (visit lightMap (length items0) (deref materials n));
      [by apply IH|discriminate|by apply IH].
Qed.

(** The materials a traversal that returns leaves: those of the
    participating meshes carry the light map, the others are as they
    were. *)
Lemma traverse_shared_materials lightMap nodes : ∀ materials items0
    materials' items,
  traverse_shared lightMap nodes materials items0 = (materials', inr items) →
  ∀ ref, materials' !! ref =
    if bool_decide (ref ∈ referenced nodes)
    then lit lightMap <$> materials !! ref
    else materials !! ref.
Proof.
  induction nodes as [|n nodes IH]; intros materials items0 materials' items H
    ref; cbn [traverse_shared] in H.
  - injection H as <- _. by rewrite bool_decide_eq_false_2 by set_solver.
  - pose proof (visit_deref lightMap (length items0) materials n) as Hv.
    unfold referenced in *. rewrite filter_cons.
    destruct (visit lightMap (length items0) (deref materials n))
      as [|e pushed|item mesh']; [|discriminate|].
    + rewrite decide_False by (by rewrite Hv). by eapply IH.
    + destruct Hv as (buffer & ref0 & kind & t & -> & Hp & Hm & _ & ->).
      rewrite decide_True by done. cbn [assign] in H.
      rewrite (IH _ _ _ _ H ref). cbn [references mbind list_bind app].
      fold (references (filter (λ n, participating n = true) nodes)).
      destruct (decide (ref = ref0)) as [->|Hne].
      * rewrite list_lookup_insert_eq by (by eapply lookup_lt_Some).
        rewrite Hm, (bool_decide_eq_true_2 (ref0 ∈ ref0 :: _))
          by (by left).
        by destruct (bool_decide _).
      * rewrite list_lookup_insert_ne by done.
        apply (f_equal (λ b : bool, if b then _ else _)).
        apply bool_decide_ext. split; [by right|].
        by intros [?|?]%elem_of_cons.
Qed.

(** A traversal leaves alone the materials that none of its meshes refers
    to, however it ends. *)
Lemma traverse_shared_frame lightMap nodes : ∀ materials items0 ref,
  ref ∉ references nodes →
  (traverse_shared lightMap nodes materials items0).1 !! ref =
    materials !! ref.
Proof.
  induction nodes as [|n nodes IH]; intros materials items0 ref Hnot;
    cbn [traverse_shared]; [done|].
  assert (Hrest : ref ∉ references nodes).
  { intros Hin. apply Hnot. unfold references in *.
    cbn [mbind list_bind]. apply elem_of_app. by right. }
  pose proof (visit_deref lightMap (length items0) materials n) as Hv.
  destruct (visit lightMap (length items0) (deref materials n))
    as [|e pushed|item mesh']; [by apply IH|done|].
  destruct Hv as (buffer & ref0 & kind & t & -> & _ & _ & _ & ->).
  rewrite IH by done. cbn [assign]. apply list_lookup_insert_ne.
  intros ->. apply Hnot. unfold references. set_solver.
Qed.

(** Where no two meshes share a material, the traversal of the nodes is
    the traversal of the meshes taken by value. *)
Lemma traverse_unshared lightMap nodes : ∀ materials items0,
  NoDup (references nodes) →
  traverse lightMap (deref materials <$> nodes) items0 =
    (deref (traverse_shared lightMap nodes materials items0).1 <$> nodes,
     (traverse_shared lightMap nodes materials items0).2).
Proof.
  induction nodes as [|n nodes IH]; intros materials items0 Hdup;
    cbn [traverse traverse_shared fmap list_fmap]; [done|].
  assert (Hrest : NoDup (references nodes)).
  { unfold references in *. cbn [mbind list_bind] in Hdup.
    by apply NoDup_app in Hdup as (_ & _ & ?). }
  assert (Hhead : ∀ geometry ref, n = MeshNode geometry ref →
            ref ∉ references nodes).
  { intros geometry ref ->. unfold references in *.
    cbn [mbind list_bind] in Hdup.
    apply NoDup_app in Hdup as (_ & Hd & _). apply Hd. set_solver. }
  pose proof (visit_deref lightMap (length items0) materials n) as Hv.
  destruct (visit lightMap (length items0) (deref materials n))
    as [|e pushed|item mesh'] eqn:Hvisit.
  - rewrite (IH materials items0 Hrest). f_equal. f_equal.
    destruct n as [|geometry ref]; [done|]. cbn [deref].
    by rewrite traverse_shared_frame by by eapply Hhead.
  - done.
  - destruct Hv as (buffer & ref0 & kind & t & -> & _ & Hm & _ & ->).
    cbn [assign].
    assert (Hfmap : deref materials <$> nodes =
              deref (<[ref0 := Single kind (Some lightMap)]> materials)
                <$> nodes).
    { apply list_fmap_ext. intros i [|geometry ref] Hi; [done|].
      cbn [deref]. rewrite list_lookup_insert_ne; [done|]. intros ->.
      apply (Hhead _ _ eq_refl). unfold references.
      apply list_elem_of_bind. exists (MeshNode geometry ref).
      split; [set_solver|by eapply list_elem_of_lookup_2]. }
    rewrite Hfmap, (IH _ _ Hrest). f_equal. f_equal.
    cbn [deref]. rewrite traverse_shared_frame by by eapply Hhead.
    by rewrite list_lookup_insert_eq by (by eapply lookup_lt_Some).
Qed.

(** Every participating mesh of a traversal that returns holds the light
    map in a material of a supported kind. *)
Lemma traverse_shared_lit lightMap nodes : ∀ items0 materials materials'
    items,
  traverse_shared lightMap nodes materials items0 = (materials', inr items) →
  ∀ n, n ∈ nodes → participating n = true →
    ∃ geometry kind,
      deref materials' n = Mesh geometry (Single kind (Some lightMap)) ∧
      kind ≠ MeshBasicMaterial.
Proof.
  induction nodes as [|n0 nodes IH]; intros items0 materials materials' items
    Ht n Hin Hp; [by apply elem_of_nil in Hin|].
  cbn [traverse_shared] in Ht.
  pose proof (visit_deref lightMap (length items0) materials n0) as Hv.
  destruct (visit lightMap (length items0) (deref materials n0))
    as [|e pushed|item mesh']; [|discriminate|].
  - apply elem_of_cons in Hin as [->|Hin]; [congruence|by eapply IH].
  - apply elem_of_cons in Hin as [->|Hin]; [|by eapply IH].
    destruct Hv as (buffer & ref0 & kind & t & -> & _ & Hm & Hk & ->).
    cbn [assign] in Ht. exists (Buffer buffer), kind. split; [|done].
    cbn [deref]. rewrite (traverse_shared_materials _ _ _ _ _ _ Ht).
    rewrite list_lookup_insert_eq by (by eapply lookup_lt_Some).
    by destruct (bool_decide _).
Qed.

(** X6.  When the traversal returns, every participating mesh has a
    single material of a supported kind, which holds the light map.  The
    materials are objects that meshes can share: the material of a mesh
    that takes no part, too, holds the light map if a participating mesh
    refers to it; the materials that no participating mesh refers to are
    as they were.  Where no two meshes share a material, this is the
    traversal of the meshes taken by value, [traverse]. *)
Theorem light_map_is_attached lightMap nodes materials materials' items :
  traverse_shared lightMap nodes materials [] = (materials', inr items) →
  (∀ n, n ∈ nodes → participating n = true →
     ∃ geometry kind,
       deref materials' n = Mesh geometry (Single kind (Some lightMap)) ∧
       kind ≠ MeshBasicMaterial) ∧
  (∀ ref, materials' !! ref =
     if bool_decide (ref ∈ referenced nodes)
     then lit lightMap <$> materials !! ref
     else materials !! ref) ∧
  (NoDup (references nodes) →
   traverse lightMap (deref materials <$> nodes) [] =
     (deref materials' <$> nodes, inr items)).
Proof.
  intros Ht. split; [|split].
  - by eapply traverse_shared_lit.
  - by eapply traverse_shared_materials.
  - intros Hdup. by rewrite traverse_unshared, Ht.
Qed.

Lemma light_map_is_attached_witness :
  (traverse_shared 5%nat [node_of (triangles 1) 0; node_of without_uv2 0]
     [Single MeshLambertMaterial None] []).1
    = [Single MeshLambertMaterial (Some 5%nat)] ∧
  (∃ geometry kind,
     deref [Single MeshLambertMaterial (Some 5%nat)] (node_of (triangles 1) 0)
       = Mesh geometry (Single kind (Some 5%nat))) ∧
  deref [Single MeshLambertMaterial (Some 5%nat)] (node_of without_uv2 0)
    = attach 5%nat without_uv2.
Proof.
  destruct (light_map_is_attached 5%nat
              [node_of (triangles 1) 0; node_of without_uv2 0]
              [Single MeshLambertMaterial None]
              [Single MeshLambertMaterial (Some 5%nat)] _ eq_refl)
    as (Hlit & Hmaterials & _).
  split; [reflexivity|]. split; [|reflexivity].
  destruct (Hlit (node_of (triangles 1) 0) ltac:(by left) eq_refl)
    as (geometry & kind & H & _).
  by exists geometry, kind.
Defined.

(** X7.  A traversal that throws does not undo what it did: it leaves the
    materials as the callback left them when it threw, those of the
    participating meshes before the one that throws holding the light
    map, and delivers no items.  The mesh that throws and the meshes after
    it show the light map where they share their material with one of
    those. *)
Theorem failure_is_not_rolled_back
    lightMap pre n post materials materials1 items e pushed :
  traverse_shared lightMap pre materials [] = (materials1, inr items) →
  visit lightMap (length items) (deref materials1 n) = Throw e pushed →
  traverse_shared lightMap (pre ++ n :: post) materials [] =
    (materials1, inl e) ∧
  (∀ ref, materials1 !! ref =
     if bool_decide (ref ∈ referenced pre)
     then lit lightMap <$> materials !! ref
     else materials !! ref) ∧
  (∀ m, m ∈ pre → participating m = true →
     ∃ geometry kind,
       deref materials1 m = Mesh geometry (Single kind (Some lightMap))).
Proof.
  intros Hpre Hv. split; [|split].
  - rewrite (traverse_shared_app _ _ _ _ _ _ _ Hpre).
    cbn [traverse_shared]. by rewrite Hv.
  - by eapply traverse_shared_materials.
  - intros m Hin Hp.
    destruct (traverse_shared_lit _ _ _ _ _ _ Hpre m Hin Hp)
      as (geometry & kind & Hm & _). eauto.
Qed.

Lemma failure_is_not_rolled_back_witness :
  traverse_shared 5%nat
    [node_of (triangles 1) 0; node_of without_index 0;
     node_of (triangles 2) 1]
    [Single MeshLambertMaterial None; Single MeshLambertMaterial None] [] =
    ([Single MeshLambertMaterial (Some 5%nat);
      Single MeshLambertMaterial None],
     inl ExpectedFaceIndexArray).
Proof.
  apply (failure_is_not_rolled_back 5%nat [node_of (triangles 1) 0]
           (node_of without_index 0) [node_of (triangles 2) 1]
           [Single MeshLambertMaterial None; Single MeshLambertMaterial None]
           _ _ ExpectedFaceIndexArray false eq_refl eq_refl).
Defined.

Section Rendering.

Variable render : WebGLRenderer → list PerFaceBuffer → list Q.

(** X8.  The atlas map is handed to [onComplete] at most once, by the
    first run of the rendering callback and only when the traversal
    returned.  It carries the size given on mount, one entry per item, in
    order, with the item's face count, mesh and buffer, and the data that
    the per-face buffers rasterise to with a clear colour of alpha zero
    and [autoClear] on, whatever the settings of the renderer were; a
    traversal that threw hands over nothing.  A run of the callback leaves
    the clear colour, the clear alpha and [autoClear] of the renderer as
    they were, and, if it rendered, the render target at [null]. *)
Theorem atlas_map_is_delivered_once
    width height lightMap lightScene gl renderers :
  delivered render (gl :: renderers)
    (mounted width height lightMap lightScene) =
    match inputItems lightMap lightScene with
    | Some items =>
        [{| Output.width := width;
            Output.height := height;
            Output.items := exported <$> items;
            Output.data :=
              render {| clearColor := ATLAS_BG_COLOR; clearAlpha := 0;
                        autoClear := true;
                        renderTarget := Some orthoTarget |}
                     (perFaceBuffer <$> items);
            Output.texture := orthoTarget |}]
    | None => []
    end ∧
  ∀ st,
    let gl' := (useUpdate render gl st).1.1 in
    clearColor gl' = clearColor gl ∧
    clearAlpha gl' = clearAlpha gl ∧
    autoClear gl' = autoClear gl ∧
    renderTarget gl' =
      match (useUpdate render gl st).2 with
      | Some _ => None
      | None => renderTarget gl
      end.
Proof.
  split.
  - cbn [delivered]. unfold useUpdate, mounted.
    cbn [Component.inputItems Component.isComplete Component.widthRef
         Component.heightRef].
    destruct (inputItems lightMap lightScene) as [items|];
      by rewrite delivered_nothing.
  - intros st. unfold useUpdate.
    destruct (Component.inputItems st) as [items|]; [|done].
    by destruct (Component.isComplete st).
Qed.

End Rendering.

End AtlasMapperMore.

(** * More properties of the progressive renderer *)

Module AtlasMore.
Import Atlas.
Import AtlasFacts.

(** ** The atlas buffers *)

Lemma test_pattern_length w n : ∀ i,
  length (test_pattern w n i) = (3 * n)%nat.
Proof.
  induction n as [|n IH]; intros i; [done|].
  cbn [test_pattern length]. rewrite IH. lia.
Qed.

Lemma test_pattern_lookup w n : ∀ i (j c : nat),
  (j < n)%nat → (c < 3)%nat →
  test_pattern w n i !! (3 * j + c)%nat =
    Some (if decide (Z.rem (Z.rem (i + Z.of_nat j) w) 8 = 0 ∨
                     Z.rem ((i + Z.of_nat j) / w) 8 = 0)
          then 0 else 255).
Proof.
  induction n as [|n IH]; intros i j c Hj Hc; [lia|].
  cbn [test_pattern]. destruct j as [|j].
  - replace (i + Z.of_nat 0) with i by lia.
    destruct c as [|[|[|c]]]; try lia; reflexivity.
  - replace (3 * S j + c)%nat with (S (S (S (3 * j + c)))) by lia.
    cbn [lookup list_lookup]. rewrite IH by lia.
    replace (i + 1 + Z.of_nat j) with (i + Z.of_nat (S j)) by lia. done.
Qed.

(** X9.  [createAtlasTexture] makes a buffer of three bytes per texel in
    a texture at version 1, marked for upload once by its constructor; the
    three bytes of texel (x, y) are zero, or, with the test pattern, 0 on
    every eighth column and every eighth row and 255 elsewhere. *)
Theorem atlas_texture_contents
    (atlasWidth atlasHeight : Z) fillWithPattern (x y : Z) (c : nat) :
  0 ≤ x < atlasWidth → 0 ≤ y < atlasHeight → (c < 3)%nat →
  let t := createAtlasTexture atlasWidth atlasHeight fillWithPattern in
  Z.of_nat (length (data t)) = 3 * (atlasWidth * atlasHeight) ∧
  version t = 1%nat ∧
  data t !! (Z.to_nat ((y * atlasWidth + x) * 3) + c)%nat =
    Some (if fillWithPattern then pattern_at x y else 0).
Proof.
  intros Hx Hy Hc t. subst t. unfold createAtlasTexture. cbn [data version].
  assert (0 ≤ y * atlasWidth + x < atlasWidth * atlasHeight) as Hi by nia.
  replace (Z.to_nat ((y * atlasWidth + x) * 3) + c)%nat
    with (3 * Z.to_nat (y * atlasWidth + x) + c)%nat by lia.
  destruct fillWithPattern.
  - rewrite test_pattern_length. split; [lia|]. split; [done|].
    rewrite test_pattern_lookup by lia.
    rewrite Z2Nat.id, Z.add_0_l by lia. f_equal.
    assert (Z.rem (y * atlasWidth + x) atlasWidth = x) as ->.
    { rewrite Z.rem_mod_nonneg by lia.
      rewrite Z.add_comm, Z.mod_add by lia. apply Z.mod_small. lia. }
    assert ((y * atlasWidth + x) / atlasWidth = y) as ->.
    { rewrite Z.add_comm, Z.div_add by lia. rewrite Z.div_small; lia. }
    unfold pattern_at. rewrite !Z.rem_mod_nonneg by lia. done.
  - rewrite length_replicate. split; [lia|]. split; [done|].
    apply lookup_replicate_2. lia.
Qed.

Lemma atlas_texture_contents_witness :
  data (createAtlasTexture 128 128 true)
    !! (Z.to_nat ((3 * 128 + 8) * 3) + 1)%nat = Some (pattern_at 8 3) ∧
  pattern_at 8 3 = 0 ∧ pattern_at 9 3 = 255.
Proof.
  split; [|split; reflexivity].
  apply (atlas_texture_contents 128 128 true 8 3 1); lia.
Defined.

Lemma promote_stack_snoc init l : promote_stack (init ++ [l]) = l :: init.
Proof.
  unfold promote_stack. rewrite last_snoc, length_app. cbn [length].
  replace (length init + 1 - 1)%nat with (length init) by lia.
  by rewrite take_app_length.
Qed.

Lemma promote_stack_iter (b : list AtlasTexture) : ∀ a,
  Nat.iter (length b) promote_stack (a ++ b) = b ++ a.
Proof.
  induction b as [|l b IH] using rev_ind; intros a.
  - by rewrite app_nil_r.
  - rewrite length_app. cbn [length]. rewrite Nat.add_comm.
    cbn [Nat.add]. rewrite Nat.iter_succ_r, app_assoc, promote_stack_snoc.
    change (l :: a ++ b) with ((l :: a) ++ b).
    rewrite (IH (l :: a)). by rewrite <- app_assoc.
Qed.

Lemma promote_stack_perm prev : promote_stack prev ≡ₚ prev.
Proof.
  destruct prev as [|t prev] using rev_ind; [done|].
  rewrite promote_stack_snoc. by rewrite Permutation_app_comm.
Qed.

(** X10.  The updater of [setAtlasStack] rotates the stack by one place:
    the last buffer comes first and the others keep their order.  No
    buffer is lost or doubled, and as many promotions as there are buffers
    restore the stack. *)
Theorem promotion_rotates_the_stack prev :
  (∀ init l, prev = init ++ [l] → promote_stack prev = l :: init) ∧
  promote_stack prev ≡ₚ prev ∧
  Nat.iter (length prev) promote_stack prev = prev.
Proof.
  split; [|split].
  - intros init l ->. apply promote_stack_snoc.
  - apply promote_stack_perm.
  - rewrite <- (app_nil_l prev) at 2. rewrite (promote_stack_iter prev []).
    apply app_nil_r.
Qed.

(** ** What the frames never change *)

Lemma geometry_set_pixelFillCount item n :
  geometry (set_pixelFillCount item n) = geometry item.
Proof. done. Qed.

Lemma advance_geometry info current info' next c :
  advance info current = Some (info', next, c) →
  geometry <$> info' = geometry <$> info ∧
  currentAtlasFaceIndex c = current.
Proof.
  unfold advance. intros H.
  destruct (info !! current) as [item|] eqn:Hi; [|done].
  cbn in H. injection H as <- <- <-. split; [|done].
  rewrite list_fmap_insert, geometry_set_pixelFillCount.
  apply list_insert_id. by rewrite list_lookup_fmap, Hi.
Qed.

Lemma set3_length data offset v data' :
  set3 data offset v = Some data' → length data' = length data.
Proof.
  destruct v as [[r g] b]. intros H.
  by destruct (set3_spec _ _ _ _ _ _ H) as [-> _].
Qed.

Section Frames.

Variables (Math_cos Math_sin : Q → Q) (Math_PI : Q).

Local Abbreviation tick := (tick Math_cos Math_sin Math_PI).
Local Abbreviation ticks := (ticks Math_cos Math_sin Math_PI).

(** The sizes of the buffers of a stack. *)
Local Abbreviation sizes := (fmap (length ∘ data)).

Lemma sizes_promoted (flag : bool) stack stack' :
  sizes stack ≡ₚ sizes stack' →
  sizes (if flag then promote_stack stack else stack) ≡ₚ sizes stack'.
Proof.
  intros H. destruct flag; [|done]. by rewrite promote_stack_perm.
Qed.

Lemma tick_keeps_layout random readback st :
  let st' := state_after st (tick random readback st) in
  geometry <$> atlasInfo st' = geometry <$> atlasInfo st ∧
  sizes (atlasStack st') ≡ₚ sizes (atlasStack st).
Proof.
  unfold Atlas.tick.
  destruct (decide (length (atlasInfo st) = 0%nat)); [done|].
  destruct (atlasInfo st !! atlasFaceFillIndexRef st) as [item|]; [|done].
  destruct (advance (atlasInfo st) (atlasFaceFillIndexRef st))
    as [[[info' next] c]|] eqn:Ha; [|done].
  destruct (advance_geometry _ _ _ _ _ Ha) as [Hg _].
  destruct (probe_sum readback) as [[r g] b].
  destruct (atlasStack st) as [|t0 ts] eqn:Hs.
  { cbn [state_after atlasInfo atlasStack]. split; [done|].
    by apply sizes_promoted. }
  destruct (set3 (data t0) _ _) as [data'|] eqn:Hset;
    cbn [state_after atlasInfo atlasStack]; (split; [done|]);
    apply sizes_promoted; [|done].
  cbn. by rewrite (set3_length _ _ _ _ Hset).
Qed.

(** X11.  Whatever the frames do (render, throw or find the atlas not
    ready), they never add, remove or reorder faces and never change
    anything of a face but its fill count; and the stack keeps its buffers,
    in some order, each at its size. *)
Theorem frames_keep_the_layout inputs : ∀ st,
  let st' := (ticks inputs st).2 in
  geometry <$> atlasInfo st' = geometry <$> atlasInfo st ∧
  sizes (atlasStack st') ≡ₚ sizes (atlasStack st).
Proof.
  induction inputs as [|[random readback] inputs IH]; intros st; [done|].
  cbn [Atlas.ticks].
  pose proof (tick_keeps_layout random readback st) as Ht.
  destruct (tick random readback st) as [|e st1|st1 f]; [done|exact Ht|].
  cbn [state_after] in Ht. destruct Ht as [Hg Hs].
  specialize (IH st1). destruct (ticks inputs st1) as [fs st2].
  cbn [snd] in *. destruct IH as [Hg' Hs'].
  split; [by rewrite Hg'|by rewrite Hs'].
Qed.

(** ** A face without texels *)

Lemma advance_stuck info c item :
  info !! c = Some item → stuck item →
  advance info c =
    Some (<[c := set_pixelFillCount item None]> info, c,
          {| currentAtlasFaceIndex := c;
             faceTexelX := js_rem (pixelFillCount item) (faceTexelCols item);
             faceTexelY :=
               js_floor_div (pixelFillCount item) (faceTexelCols item);
             promoted := false |}).
Proof.
  intros Hi Hs. unfold advance. rewrite Hi. cbn [mbind option_bind].
  assert (js_rem (js_succ (pixelFillCount item))
            (faceTexelRows item * faceTexelCols item) = None) as ->.
  { destruct Hs as [Hs|Hs].
    - unfold texels in Hs. rewrite Hs. unfold js_rem.
      by destruct (js_succ (pixelFillCount item)).
    - by rewrite Hs. }
  rewrite bool_decide_eq_false_2 by (by intros [? _]).
  by rewrite decide_False.
Qed.

(** A frame on a stuck face. *)
Lemma tick_stuck random readback st item :
  atlasInfo st !! atlasFaceFillIndexRef st = Some item →
  stuck item →
  let o := tick random readback st in
  atlasFaceFillIndexRef (state_after st o) = atlasFaceFillIndexRef st ∧
  atlasInfo (state_after st o) !! atlasFaceFillIndexRef st
    = Some (set_pixelFillCount item None) ∧
  o ≠ NotReady ∧
  ∀ f, frame_of o = Some f →
    currentAtlasFaceIndex (cursor f) = atlasFaceFillIndexRef st ∧
    promoted (cursor f) = false ∧
    (pixelFillCount item = None →
     texel_offset (atlasTexelX f) (atlasTexelY f) = 0 ∧ placement f = None).
Proof.
  intros Hi Hs. unfold Atlas.tick.
  assert (length (atlasInfo st) ≠ 0%nat) as Hlen.
  { apply lookup_lt_Some in Hi. lia. }
  rewrite decide_False by done.
  rewrite Hi, (advance_stuck _ _ _ Hi Hs).
  assert (<[atlasFaceFillIndexRef st := set_pixelFillCount item None]>
            (atlasInfo st) !! atlasFaceFillIndexRef st
          = Some (set_pixelFillCount item None)) as Hl.
  { apply list_lookup_insert_eq. by apply lookup_lt_Some in Hi. }
  destruct (probe_sum readback) as [[r g] b].
  destruct (atlasStack st) as [|t0 ts]; [by cbn|].
  destruct (set3 (data t0) _ _) as [data'|]; [|by cbn].
  cbn [state_after frame_of atlasFaceFillIndexRef atlasInfo].
  split; [done|]. split; [done|]. split; [done|].
  intros f [= <-]. cbn [cursor currentAtlasFaceIndex promoted faceTexelX
    faceTexelY atlasTexelX atlasTexelY placement].
  split; [done|]. split; [done|]. intros ->. by cbn.
Qed.

Lemma ticks_stuck inputs : ∀ st item,
  atlasInfo st !! atlasFaceFillIndexRef st = Some item →
  stuck item →
  atlasFaceFillIndexRef (ticks inputs st).2 = atlasFaceFillIndexRef st ∧
  (∃ item', atlasInfo (ticks inputs st).2 !! atlasFaceFillIndexRef st
              = Some item' ∧
            (inputs ≠ [] ∨ pixelFillCount item = None →
             pixelFillCount item' = None)) ∧
  Forall (λ f, currentAtlasFaceIndex (cursor f) = atlasFaceFillIndexRef st ∧
               promoted (cursor f) = false) (ticks inputs st).1 ∧
  (pixelFillCount item = None →
   Forall (λ f, texel_offset (atlasTexelX f) (atlasTexelY f) = 0 ∧
                placement f = None) (ticks inputs st).1).
Proof.
  induction inputs as [|[random readback] inputs IH]; intros st item Hi Hs.
  { cbn. split; [done|]. split; [|by split].
    exists item. split; [done|]. by intros [|]. }
  cbn [Atlas.ticks].
  destruct (tick_stuck random readback st item Hi Hs) as (Hc & Hl & Hn & Hf).
  destruct (tick random readback st) as [|e st1|st1 f]; [done| |].
  - cbn [state_after fst snd] in *. split; [done|]. split; [|by split].
    by exists (set_pixelFillCount item None).
  - cbn [state_after] in Hc, Hl. rewrite <- Hc in Hl.
    destruct (IH st1 _ Hl (or_intror eq_refl)) as (Hc' & (item' & Hl' & Hp') & HF & HQ).
    destruct (Hf f eq_refl) as (Hf1 & Hf2 & Hf3).
    destruct (ticks inputs st1) as [fs st2]. cbn [fst snd] in *.
    rewrite Hc in *. split; [done|]. split.
    { exists item'. split; [done|]. intros _. apply Hp'. by right. }
    split; [by constructor|].
    intros Hnan. constructor; [by apply Hf3|by apply HQ].
Qed.

(** X12.  A face without texels (no columns or no rows), or one whose fill
    count is NaN, traps the cursor: every later frame is a frame on this
    face, none of them promotes the stack, and the fill count of the face
    is NaN from the first frame on.  The frames after the first have a NaN
    texel, so that their estimates are written at offset 0 of the buffer,
    and no finite probe placement. *)
Theorem degenerate_face_traps_the_cursor inputs st item :
  atlasInfo st !! atlasFaceFillIndexRef st = Some item →
  stuck item →
  let fs := (ticks inputs st).1 in
  let st' := (ticks inputs st).2 in
  atlasFaceFillIndexRef st' = atlasFaceFillIndexRef st ∧
  Forall (λ f, currentAtlasFaceIndex (cursor f) = atlasFaceFillIndexRef st ∧
               promoted (cursor f) = false) fs ∧
  Forall (λ f, texel_offset (atlasTexelX f) (atlasTexelY f) = 0 ∧
               placement f = None) (drop 1 fs) ∧
  (inputs ≠ [] →
   pixelFillCount <$> atlasInfo st' !! atlasFaceFillIndexRef st = Some None).
Proof.
  intros Hi Hs fs st'. subst fs st'.
  destruct (ticks_stuck inputs st item Hi Hs) as (Hc & (item' & Hl & Hp) & HF & _).
  split; [done|]. split; [done|]. split.
  - destruct inputs as [|[random readback] inputs]; [by cbn|].
    cbn [Atlas.ticks].
    destruct (tick_stuck random readback st item Hi Hs) as (Hc1 & Hl1 & _ & _).
    destruct (tick random readback st) as [|e st1|st1 f]; [by cbn|by cbn|].
    cbn [state_after] in Hc1, Hl1. rewrite <- Hc1 in Hl1.
    destruct (ticks_stuck inputs st1 _ Hl1 (or_intror eq_refl))
      as (_ & _ & _ & HQ).
    destruct (ticks inputs st1) as [fs st2]. cbn [fst snd drop] in *.
    by apply HQ.
  - intros Hne. rewrite Hl. cbn. f_equal. apply Hp. by left.
Qed.

End Frames.

Lemma degenerate_face_traps_the_cursor_witness :
  atlasFaceFillIndexRef
    (ticks cos_at_0 sin_at_0 pi_rounded (replicate 3 (0%Q, faint_red))
       (initial four_and_flat)).2 = 4%nat.
Proof.
  destruct (degenerate_face_traps_the_cursor cos_at_0 sin_at_0 pi_rounded
              (replicate 3 (0%Q, faint_red)) (initial four_and_flat)
              flat_face) as [H _].
  - reflexivity.
  - left. reflexivity.
  - exact H.
Defined.

(** ** The layout of the faces *)

Lemma itemsPerRow_eq : itemsPerRow = 8.
Proof. reflexivity. Qed.

Lemma cell_bounds (i : nat) :
  0 ≤ cellColumn i < 8 ∧ 0 ≤ cellRow i ∧
  Z.of_nat i = 8 * cellRow i + cellColumn i.
Proof.
  unfold cellColumn, cellRow. rewrite itemsPerRow_eq.
  pose proof (Z.mod_pos_bound (Z.of_nat i) 8).
  pose proof (Z.div_mod (Z.of_nat i) 8).
  pose proof (Z.div_pos (Z.of_nat i) 8). lia.
Qed.

Lemma in_cell_texels i item :
  in_cell i item →
  Qfloor (left item * inject_Z atlasWidth) = cellSize * cellColumn i ∧
  Qfloor (top item * inject_Z atlasWidth) = cellSize * cellRow i ∧
  faceTexelCols item ≤ 13 ∧
  faceTexelRows item ≤ 13.
Proof.
  intros (Hl & Ht & Hr & Hb).
  assert (∀ q (n : Z), (q == inject_Z n * (1 # 8))%Q →
            Qfloor (q * inject_Z atlasWidth) = cellSize * n) as Hfloor.
  { intros q n Hq.
    rewrite <- (Qfloor_Z (cellSize * n)). apply Qfloor_comp.
    rewrite Hq. unfold atlasWidth, cellSize. rewrite inject_Z_mult.
    change (inject_Z 128) with (128 # 1)%Q. change (inject_Z 16) with (16 # 1)%Q.
    set (m := inject_Z n). clearbody m. field. }
  assert (∀ q, (q <= 1 # 10)%Q → Qceiling (q * inject_Z 128) ≤ 13) as Hceil.
  { intros q Hq. rewrite <- (Qceiling_Z 13). apply Qceiling_resp_le.
    change (inject_Z 128) with (128 # 1)%Q. change (inject_Z 13) with (13 # 1)%Q.
    lra. }
  split; [by apply Hfloor|]. split; [by apply Hfloor|].
  split; apply Hceil; assumption.
Qed.

Lemma in_cell_rect_ok i item :
  in_cell i item → (i < 64)%nat → rect_ok item.
Proof.
  intros Hc Hi. destruct (in_cell_texels i item Hc) as (Hl & Ht & Hcols & Hrows).
  destruct (cell_bounds i) as (Hcol & Hrow & Hsum).
  unfold rect_ok. rewrite Hl, Ht. unfold cellSize, atlasWidth, atlasHeight.
  lia.
Qed.

Section Layout.

Variable Math_sqrt : Q → Q.

Local Abbreviation computeFaceUV := (computeFaceUV Math_sqrt).
Local Abbreviation register_faces := (register_faces Math_sqrt).
Local Abbreviation useMeshWithAtlas := (useMeshWithAtlas Math_sqrt).
Local Abbreviation registered := (registered Math_sqrt).

Lemma computeFaceUV_in_cell i faceIndex posArray l t r b m g f n :
  computeFaceUV i faceIndex posArray = Some (l, t, r, b) →
  in_cell i {| mesh := m; buffer := g; faceIndex := f;
               left := l; top := t; right := r; bottom := b;
               pixelFillCount := n |}.
Proof.
  unfold Atlas.computeFaceUV. intros H.
  destruct (read3 posArray (faceIndex * 4 * 3 + 2 * 3)) as [o|]; [|done].
  destruct (read3 posArray (faceIndex * 4 * 3 + 3 * 3)) as [u|]; [|done].
  destruct (read3 posArray (faceIndex * 4 * 3)) as [v|]; [|done].
  cbn [mbind option_bind] in H. injection H as <- <- <- <-.
  unfold in_cell. cbn [left top right bottom].
  rewrite Z.rem_mod_nonneg by (rewrite ?itemsPerRow_eq; lia).
  fold (cellColumn i). fold (cellRow i).
  unfold itemSizeU, itemSizeV, itemUVMargin, atlasItemMaxDim.
  pose proof (Q.le_min_l 5 (vlength Math_sqrt (vsub u o))) as Hu.
  pose proof (Q.le_min_l 5 (vlength Math_sqrt (vsub v o))) as Hv.
  set (du := Qmin 5 (vlength Math_sqrt (vsub u o))) in *. clearbody du.
  set (dv := Qmin 5 (vlength Math_sqrt (vsub v o))) in *. clearbody dv.
  set (c := inject_Z (cellColumn i)). clearbody c.
  set (w := inject_Z (cellRow i)). clearbody w.
  unfold Qdiv. change (/ 5)%Q with (1 # 5)%Q.
  repeat split; lra.
Qed.

Lemma read3_Some array start :
  (start + 2 < length array)%nat → is_Some (read3 array start).
Proof.
  intros H. unfold read3.
  destruct (lookup_lt_is_Some_2 array start) as [a ->]; [lia|].
  destruct (lookup_lt_is_Some_2 array (start + 1)) as [b ->]; [lia|].
  destruct (lookup_lt_is_Some_2 array (start + 2)) as [c ->]; [lia|].
  by eexists.
Qed.

Lemma computeFaceUV_Some i faceIndex posArray :
  (12 * faceIndex + 12 ≤ length posArray)%nat →
  is_Some (computeFaceUV i faceIndex posArray).
Proof.
  intros H. unfold Atlas.computeFaceUV.
  destruct (read3_Some posArray (faceIndex * 4 * 3 + 2 * 3)) as [o ->]; [lia|].
  destruct (read3_Some posArray (faceIndex * 4 * 3 + 3 * 3)) as [u ->]; [lia|].
  destruct (read3_Some posArray (faceIndex * 4 * 3)) as [v ->]; [lia|].
  by eexists.
Qed.

Lemma lookup_insert_at {A} (l : list A) (i j : nat) x :
  i = j → (i < length l)%nat → <[i:=x]> l !! j = Some x.
Proof. intros <-. apply list_lookup_insert_eq. Qed.

(** The four [setXY] of one face. *)
Lemma face_uv_written uv (f : nat) (l t r b : Q) :
  let uv' :=
    setXY (setXY (setXY (setXY uv (f * 4) l b) (f * 4 + 1) r b)
             (f * 4 + 2) l t) (f * 4 + 3) r t in
  length uv' = length uv ∧
  (∀ j, (j < 8 * f ∨ 8 * f + 8 ≤ j)%nat → uv' !! j = uv !! j) ∧
  ((8 * f + 7 < length uv)%nat →
   ∀ j, (j < 8)%nat →
     uv' !! (8 * f + j)%nat = [l; b; r; b; l; t; r; t] !! j).
Proof.
  intros uv'. subst uv'. unfold setXY. split; [|split].
  - by rewrite !length_insert.
  - intros j Hj. by rewrite !list_lookup_insert_ne by lia.
  - intros Hlen j Hj.
    destruct j as [|[|[|[|[|[|[|[|j]]]]]]]]; try lia;
      cbn [lookup list_lookup];
      rewrite ?list_lookup_insert_ne by lia;
      (apply lookup_insert_at; [lia|rewrite ?length_insert; lia]).
Qed.

Lemma register_faces_spec mesh meshBuffer n : ∀ f info uv,
  (12 * (f + n) ≤ length (attributes_position_array meshBuffer))%nat →
  ∃ items uv',
    register_faces mesh meshBuffer n f info uv = Some (info ++ items, uv') ∧
    length items = n ∧
    length uv' = length uv ∧
    (∀ j, (j < 8 * f ∨ 8 * (f + n) ≤ j)%nat → uv' !! j = uv !! j) ∧
    ∀ k item, items !! k = Some item →
      Atlas.mesh item = mesh ∧ buffer item = meshBuffer ∧
      faceIndex item = (f + k)%nat ∧ pixelFillCount item = Some 0 ∧
      computeFaceUV (length info + k) (f + k)
        (attributes_position_array meshBuffer)
        = Some (left item, top item, right item, bottom item) ∧
      ((8 * (f + k) + 7 < length uv)%nat →
       ∀ j, (j < 8)%nat →
         uv' !! (8 * (f + k) + j)%nat =
           [left item; bottom item; right item; bottom item;
            left item; top item; right item; top item] !! j).
Proof.
  induction n as [|n IH]; intros f info uv Hlen.
  { exists [], uv. rewrite app_nil_r. by repeat split. }
  cbn [Atlas.register_faces].
  destruct (computeFaceUV_Some (length info) f
              (attributes_position_array meshBuffer)) as [[[[l t] r] b] Huv];
    [lia|].
  rewrite Huv. cbn [mbind option_bind].
  destruct (face_uv_written uv f l t r b) as (Hlen1 & Hout1 & Hin1).
  set (uv1 := setXY _ (f * 4 + 3) r t) in *. clearbody uv1.
  set (item0 := {| mesh := mesh; buffer := meshBuffer; faceIndex := f;
                   left := l; top := t; right := r; bottom := b;
                   pixelFillCount := Some 0 |}).
  destruct (IH (S f) (info ++ [item0]) uv1) as
    (items & uv' & Hreg & Hn & Hlen' & Hout & Hitems); [lia|].
  exists (item0 :: items), uv'.
  rewrite Hreg, <- app_assoc. split; [done|].
  split; [cbn; lia|]. split; [lia|]. split.
  { intros j Hj. rewrite Hout by lia. apply Hout1. lia. }
  intros [|k] item Hk.
  - injection Hk as <-. cbn [Atlas.mesh buffer faceIndex pixelFillCount
      left top right bottom]. rewrite !Nat.add_0_r.
    repeat (split; [done|]).
    intros Hlt j Hj. rewrite Hout by lia. by apply Hin1.
  - cbn [lookup list_lookup] in Hk.
    destruct (Hitems k item Hk) as (Hm & Hb & Hf & Hp & Hc & Hu).
    rewrite length_app in Hc. cbn [length] in Hc.
    replace (length info + 1 + k)%nat with (length info + S k)%nat in Hc by lia.
    replace (S f + k)%nat with (f + S k)%nat in * by lia.
    repeat (split; [done|]).
    intros Hlt. apply Hu. lia.
Qed.

(** X13.  For a buffer of [n] whole quads, [useMeshWithAtlas] appends [n]
    faces to the atlas, in the order of the quads: face [k] refers to its
    mesh and buffer, has not been filled yet, and lies in the cell of its
    place in the atlas; and the four vertices of the quad get the corners
    of the rectangle of the face as their uv (left bottom, right bottom,
    left top, right top), the uv of other vertices being left alone. *)
Theorem mesh_faces_are_registered atlasInfo mesh meshBuffer uv (n : nat) :
  length (attributes_position_array meshBuffer) = (12 * n)%nat →
  ∃ items uv',
    useMeshWithAtlas atlasInfo mesh (Some meshBuffer) uv
      = Some (atlasInfo ++ items, uv') ∧
    length items = n ∧
    length uv' = length uv ∧
    (∀ j, (8 * n ≤ j)%nat → uv' !! j = uv !! j) ∧
    ∀ (k : nat) item, items !! k = Some item →
      Atlas.mesh item = mesh ∧ buffer item = meshBuffer ∧
      faceIndex item = k ∧ pixelFillCount item = Some 0 ∧
      in_cell (length atlasInfo + k) item ∧
      ((8 * k + 7 < length uv)%nat →
       ∀ j, (j < 8)%nat →
         uv' !! (8 * k + j)%nat =
           [left item; bottom item; right item; bottom item;
            left item; top item; right item; top item] !! j).
Proof.
  intros Hlen. unfold Atlas.useMeshWithAtlas, iterations. rewrite Hlen.
  replace ((12 * n + 11) / 12)%nat with n
    by (apply Nat.div_unique with 11%nat; lia).
  destruct (register_faces_spec mesh meshBuffer n 0 atlasInfo uv)
    as (items & uv' & Hreg & Hn & Hlen' & Hout & Hitems); [lia|].
  exists items, uv'. split; [done|]. split; [done|]. split; [done|].
  split; [intros j Hj; apply Hout; lia|].
  intros k item Hk.
  destruct (Hitems k item Hk) as (Hm & Hb & Hf & Hp & Hc & Hu).
  repeat (split; [done|]). split; [|exact Hu].
  destruct item. by eapply computeFaceUV_in_cell.
Qed.

Lemma laid_out_snoc info item :
  laid_out info → in_cell (length info) item → laid_out (info ++ [item]).
Proof.
  intros Hl Hc i item' Hi. apply lookup_app_Some in Hi as [Hi|[Hlen Hi]].
  - by apply Hl.
  - apply list_lookup_singleton_Some in Hi as [Hi <-].
    by replace i with (length info) by lia.
Qed.

(** A face nobody has begun to fill. *)
Local Abbreviation fresh := (λ item : AtlasItem, pixelFillCount item = Some 0).

Lemma register_faces_laid_out mesh meshBuffer n : ∀ f info uv info' uv',
  register_faces mesh meshBuffer n f info uv = Some (info', uv') →
  laid_out info → Forall fresh info →
  laid_out info' ∧ Forall fresh info'.
Proof.
  induction n as [|n IH]; intros f info uv info' uv' H Hl Hf.
  { cbn in H. by injection H as <- <-. }
  cbn [Atlas.register_faces] in H.
  destruct (computeFaceUV (length info) f _) as [[[[l t] r] b]|] eqn:Huv;
    [|done].
  cbn [mbind option_bind] in H. apply IH in H; [done| |].
  - apply laid_out_snoc; [done|]. by eapply computeFaceUV_in_cell.
  - apply Forall_app. split; [done|]. by constructor.
Qed.

Lemma registered_laid_out meshes : ∀ info0 info,
  registered meshes info0 = Some info →
  laid_out info0 → Forall fresh info0 →
  laid_out info ∧ Forall fresh info.
Proof.
  induction meshes as [|[[mesh meshBuffer] uv] meshes IH];
    intros info0 info H Hl Hf.
  { cbn in H. by injection H as <-. }
  cbn [Atlas.registered] in H.
  destruct (useMeshWithAtlas info0 mesh (Some meshBuffer) uv)
    as [[info1 uv1]|] eqn:Hm; [|done].
  cbn [mbind option_bind] in H. apply IH in H; [done| |];
    by eapply register_faces_laid_out.
Qed.

End Layout.

(** ** Texels *)

Lemma texel_of_visit n i item k :
  texel_of item (visit n i item k) =
    (Some (Qfloor (left item * inject_Z atlasWidth)
           + Z.rem k (faceTexelCols item)),
     Some (Qfloor (top item * inject_Z atlasWidth) + k / faceTexelCols item)).
Proof. done. Qed.

(** Where in its face texel number [k] lies. *)
Lemma texel_in_face item k :
  walkable item → 0 ≤ k < texels item →
  0 ≤ Z.rem k (faceTexelCols item) < faceTexelCols item ∧
  0 ≤ k / faceTexelCols item < faceTexelRows item ∧
  k = faceTexelCols item * (k / faceTexelCols item)
      + Z.rem k (faceTexelCols item).
Proof.
  intros [Hc Hr] Hk. unfold texels in Hk.
  rewrite Z.rem_mod_nonneg by lia.
  pose proof (Z.mod_pos_bound k (faceTexelCols item) Hc).
  pose proof (Z.div_mod k (faceTexelCols item)).
  split; [lia|]. split; [|lia]. split; [apply Z.div_pos; lia|].
  apply Z.div_lt_upper_bound; lia.
Qed.

(** Texels of faces laid out in cells tell the face and the place in it. *)
Lemma texels_distinct n n' i j item item' k k' :
  in_cell i item → in_cell j item' → (i = j → item = item') →
  walkable item → walkable item' →
  0 ≤ k < texels item → 0 ≤ k' < texels item' →
  texel_of item (visit n i item k) = texel_of item' (visit n' j item' k') →
  i = j ∧ k = k'.
Proof.
  intros Hc Hc' Hsame Hw Hw' Hk Hk'. rewrite !texel_of_visit.
  destruct (in_cell_texels i item Hc) as (-> & -> & Hcols & Hrows).
  destruct (in_cell_texels j item' Hc') as (-> & -> & Hcols' & Hrows').
  destruct (texel_in_face item k Hw Hk) as (Hx & Hy & Hsum).
  destruct (texel_in_face item' k' Hw' Hk') as (Hx' & Hy' & Hsum').
  destruct (cell_bounds i) as (Hcol & Hrow & Hi).
  destruct (cell_bounds j) as (Hcol' & Hrow' & Hj).
  unfold cellSize. intros [= Htx Hty].
  assert (i = j) as Hij by lia.
  split; [done|]. specialize (Hsame Hij). subst item' j.
  rewrite Hsum, Hsum'. f_equal; [f_equal|]; lia.
Qed.

(** ** Where the probe is put *)

Lemma js_div_Some a b u :
  js_div a b = Some u → ¬ (b == 0)%Q ∧ u = (a / b)%Q.
Proof.
  unfold js_div. destruct (Qeq_bool b 0) eqn:Hb; [done|].
  intros [= <-]. split; [|done]. by apply Qeq_bool_neq.
Qed.

Lemma place_coordinates item tx ty p :
  place item (Some tx) (Some ty) = Some p →
  let itemSizeU := ((right item - left item) * inject_Z atlasWidth)%Q in
  let itemSizeV := ((bottom item - top item) * inject_Z atlasHeight)%Q in
  ¬ (itemSizeU == 0)%Q ∧ ¬ (itemSizeV == 0)%Q ∧
  pU p = ((inject_Z tx + (1 # 2) - left item * inject_Z atlasWidth)
          / itemSizeU)%Q ∧
  pV p = ((inject_Z ty + (1 # 2) - top item * inject_Z atlasWidth)
          / itemSizeV)%Q.
Proof.
  unfold place. cbn [mbind option_bind]. intros H.
  apply bind_Some in H as (u & Hu & H).
  apply bind_Some in H as (v & Hv & H).
  apply bind_Some in H as (o & _ & H).
  apply bind_Some in H as (a & _ & H).
  apply bind_Some in H as (b & _ & H).
  apply bind_Some in H as (n & _ & H).
  injection H as <-. cbn [pU pV].
  apply js_div_Some in Hu as [Hu0 ->]. apply js_div_Some in Hv as [Hv0 ->].
  done.
Qed.

Lemma Qceiling_pos q : 0 < Qceiling q → (0 < q)%Q.
Proof.
  intros H. destruct (Qlt_le_dec 0 q) as [|Hle]; [done|].
  apply Qceiling_resp_le in Hle. change (Qceiling 0) with 0 in Hle. lia.
Qed.

(** The texel centre, in texels from the corner of the face, for a face
    length [size] and the texel [n] counted from that corner. *)
Lemma centre_bounds (size : Q) (n : Z) (u : Q) :
  0 ≤ n < Qceiling size →
  ¬ (size == 0)%Q →
  (u == (inject_Z n + (1 # 2)) / size)%Q →
  (u * size == inject_Z n + (1 # 2))%Q ∧
  (0 < u)%Q ∧
  (u * size < size + (1 # 2))%Q.
Proof.
  intros Hn Hs Hu.
  assert (0 < size)%Q as Hpos by (apply Qceiling_pos; lia).
  assert (0 <= inject_Z n)%Q as Hn0.
  { change 0%Q with (inject_Z 0). rewrite <- Zle_Qle. lia. }
  assert (inject_Z n < size)%Q as Hn1.
  { eapply Qle_lt_trans; [|apply Qceiling_lt]. rewrite <- Zle_Qle. lia. }
  assert (u * size == inject_Z n + (1 # 2))%Q as Hmul.
  { rewrite Hu. field. exact Hs. }
  split; [done|]. split.
  - rewrite Hu. apply Qlt_shift_div_l; [done|]. lra.
  - rewrite Hmul. lra.
Qed.

Section Passes.

Variables (Math_cos Math_sin Math_sqrt : Q → Q) (Math_PI : Q).

Local Abbreviation tick := (tick Math_cos Math_sin Math_PI).
Local Abbreviation ticks := (ticks Math_cos Math_sin Math_PI).
Local Abbreviation registered := (registered Math_sqrt).

Lemma registered_info meshes info :
  registered meshes [] = Some info →
  laid_out info ∧ Forall (λ item, pixelFillCount item = Some 0) info.
Proof.
  intros H. eapply registered_laid_out; [exact H| |done].
  by intros i item Hi.
Qed.

(** X14.  The faces registered on the atlas lie in the cells of a grid of
    16 by 16 texels, eight cells to a row, in the order of registration:
    the rectangle of face [i] starts at the corner of cell [i] and spans at
    most 13 by 13 texels.  So two faces never share a texel, a texel tells
    its face and its place in the face, and the first 64 faces lie inside
    the atlas. *)
Theorem faces_lie_in_disjoint_cells meshes info :
  registered meshes [] = Some info →
  (∀ i item, info !! i = Some item →
     pixelFillCount item = Some 0 ∧
     Qfloor (left item * inject_Z atlasWidth) = cellSize * cellColumn i ∧
     Qfloor (top item * inject_Z atlasWidth) = cellSize * cellRow i ∧
     faceTexelCols item ≤ 13 ∧ faceTexelRows item ≤ 13 ∧
     ((i < 64)%nat → rect_ok item)) ∧
  (∀ i j item item' k k',
     info !! i = Some item → info !! j = Some item' →
     walkable item → walkable item' →
     0 ≤ k < texels item → 0 ≤ k' < texels item' →
     texel_of item (visit (length info) i item k)
       = texel_of item' (visit (length info) j item' k') →
     i = j ∧ k = k').
Proof.
  intros Hreg. destruct (registered_info _ _ Hreg) as [Hl Hf]. split.
  - intros i item Hi.
    destruct (in_cell_texels i item (Hl _ _ Hi)) as (? & ? & ? & ?).
    split; [by eapply (Forall_lookup_1 _ _ _ _ Hf)|].
    repeat (split; [done|]). by apply in_cell_rect_ok, Hl.
  - intros i j item item' k k' Hi Hj Hw Hw' Hk Hk'.
    apply texels_distinct; [by apply Hl|by apply Hl| |done..].
    intros ->. congruence.
Qed.

Lemma laid_out_geometry info info' :
  geometry <$> info' = geometry <$> info → laid_out info → laid_out info'.
Proof.
  intros Hg Hl i item' Hi.
  assert ((geometry <$> info) !! i = Some (geometry item')) as Hi'.
  { by rewrite <- Hg, list_lookup_fmap, Hi. }
  rewrite list_lookup_fmap in Hi'.
  destruct (info !! i) as [item|] eqn:Hitem; [|done].
  injection Hi' as Hi'. specialize (Hl i item Hitem).
  unfold geometry in Hi'. unfold in_cell in *. congruence.
Qed.

(** X16.  A frame on a face registered at place 64 or beyond throws a
    [RangeError]: the cell of the face lies below the last row of the
    atlas.  The cursor has moved on all the same. *)
Theorem face_beyond_capacity_throws meshes info random readback st item k :
  registered meshes [] = Some info →
  geometry <$> atlasInfo st = geometry <$> info →
  atlasInfo st !! atlasFaceFillIndexRef st = Some item →
  (64 ≤ atlasFaceFillIndexRef st)%nat →
  stack_ok (atlasStack st) →
  walkable item →
  pixelFillCount item = Some k → 0 ≤ k < texels item →
  let o := tick random readback st in
  raised o = Some RangeError ∧
  pixelFillCount <$> atlasInfo (state_after st o) !! atlasFaceFillIndexRef st
    = Some (Some (Z.rem (k + 1) (texels item))).
Proof.
  intros Hreg Hg Hi Hcap [Hne Hsz] Hw Hp Hk.
  destruct (registered_info _ _ Hreg) as [Hl _].
  apply (laid_out_geometry _ _ Hg) in Hl.
  destruct (in_cell_texels _ item (Hl _ _ Hi)) as (Hleft & Htop & _ & _).
  destruct (texel_in_face item k Hw Hk) as (Hx & Hy & _).
  destruct (cell_bounds (atlasFaceFillIndexRef st)) as (Hcol & Hrow & Hsum).
  unfold Atlas.tick.
  rewrite decide_False by (apply lookup_lt_Some in Hi; lia).
  rewrite Hi, (advance_step _ _ _ _ Hi Hp Hk) by apply Hw.
  cbn [visit faceTexelX faceTexelY promoted fmap option_fmap option_map].
  rewrite Hleft, Htop.
  destruct (probe_sum readback) as [[r g] b].
  destruct (atlasStack st) as [|t0 ts] eqn:Hst; [done|].
  apply Forall_cons in Hsz as [Hsz _].
  unfold set3, texel_offset. rewrite decide_False.
  - cbn [raised state_after atlasInfo]. split; [done|].
    rewrite list_lookup_insert_eq by (by apply lookup_lt_Some in Hi). done.
  - unfold cellSize, atlasWidth, atlasHeight in *. lia.
Qed.

(** ** A pass over the atlas *)

Lemma texel_of_geometry a b c :
  geometry a = geometry b → texel_of a c = texel_of b c.
Proof. unfold geometry, texel_of. by intros [= _ _ _ -> -> _ _]. Qed.

Lemma lookup_geometry (l l' : list AtlasItem) i a' :
  geometry <$> l' = geometry <$> l → l' !! i = Some a' →
  ∃ a, l !! i = Some a ∧ geometry a = geometry a'.
Proof.
  intros Hg Hi.
  assert ((geometry <$> l) !! i = Some (geometry a')) as H.
  { by rewrite <- Hg, list_lookup_fmap, Hi. }
  rewrite list_lookup_fmap in H. destruct (l !! i) as [a|]; [|done].
  exists a. split; [done|]. cbn [fmap option_fmap option_map] in H.
  congruence.
Qed.

(** Every frame works on the texel its cursor points at, in the atlas as
    it was before the first of the frames. *)
Lemma ticks_texels inputs : ∀ st,
  Forall (λ f, frame_texel f = texel_at (atlasInfo st) (cursor f))
         (ticks inputs st).1.
Proof.
  induction inputs as [|[random readback] inputs IH]; intros st;
    [constructor|].
  cbn [Atlas.ticks].
  destruct (tick random readback st) as [|e st1|st1 f] eqn:Ht;
    [constructor..|].
  destruct (tick_rendered _ _ _ _ _ _ _ _ Ht)
    as (item & info' & next & c & t0 & ts & data' & Hi & Ha & _ & Hc & Htx
        & _ & _ & _ & Hinfo & _).
  destruct (advance_geometry _ _ _ _ _ Ha) as [Hg Hcur].
  specialize (IH st1). destruct (ticks inputs st1) as [fs st2].
  cbn [fst] in *. constructor.
  - unfold texel_at, frame_texel. by rewrite Hc, Hcur, Hi.
  - eapply Forall_impl; [exact IH|]. intros g Hgt. cbn beta in *.
    rewrite Hgt. unfold texel_at. rewrite Hinfo.
    destruct (info' !! currentAtlasFaceIndex (cursor g)) as [item'|] eqn:Hi'.
    + destruct (lookup_geometry _ _ _ _ Hg Hi') as (a & -> & Hga).
      symmetry. by apply texel_of_geometry.
    + assert ((geometry <$> atlasInfo st) !! currentAtlasFaceIndex (cursor g)
              = None) as H.
      { by rewrite <- Hg, list_lookup_fmap, Hi'. }
      rewrite list_lookup_fmap in H.
      by destruct (atlasInfo st !! currentAtlasFaceIndex (cursor g)).
Qed.

(** The texels of the visits of the faces listed. *)
Lemma elem_of_texels info faces t :
  t ∈ texel_at info <$> (faces ≫= face_visits info) ↔
  ∃ c item k,
    c ∈ faces ∧ info !! c = Some item ∧ 0 ≤ k < texels item ∧
    t = texel_of item (visit (length info) c item k).
Proof.
  rewrite list_elem_of_fmap. split.
  - intros (cur & -> & Hcur). apply list_elem_of_bind in Hcur
      as (c & Hcur & Hc).
    unfold face_visits in Hcur.
    destruct (info !! c) as [item|] eqn:Hi; [|by apply elem_of_nil in Hcur].
    apply list_elem_of_fmap in Hcur as (k & -> & Hk).
    apply elem_of_seqZ in Hk. exists c, item, k.
    repeat (split; [done || lia|]).
    unfold texel_at. cbn [visit currentAtlasFaceIndex]. by rewrite Hi.
  - intros (c & item & k & Hc & Hi & Hk & ->).
    exists (visit (length info) c item k). split.
    + unfold texel_at. cbn [visit currentAtlasFaceIndex]. by rewrite Hi.
    + apply list_elem_of_bind. exists c. split; [|done].
      unfold face_visits. rewrite Hi. apply list_elem_of_fmap.
      exists k. split; [done|]. apply elem_of_seqZ. lia.
Qed.

(** No texel is visited twice in a walk over different faces. *)
Lemma texels_NoDup info faces :
  laid_out info → Forall walkable info → NoDup faces →
  NoDup (texel_at info <$> (faces ≫= face_visits info)).
Proof.
  intros Hl Hw. induction 1 as [|c faces Hc Hnd IH]; [constructor|].
  rewrite bind_cons, fmap_app. apply NoDup_app. split; [|split; [|done]].
  - unfold face_visits. destruct (info !! c) as [item|] eqn:Hi;
      [|constructor].
    rewrite <- list_fmap_compose.
    apply NoDup_fmap_2_strong; [|apply NoDup_seqZ].
    intros k k' Hk Hk' Heq. apply elem_of_seqZ in Hk, Hk'.
    unfold compose, texel_at in Heq. cbn [visit currentAtlasFaceIndex] in Heq.
    rewrite Hi in Heq.
    pose proof (Forall_lookup_1 _ _ _ _ Hw Hi) as Hwi.
    by destruct (texels_distinct (length info) (length info) c c item item
                   k k' (Hl _ _ Hi) (Hl _ _ Hi) (λ _, eq_refl) Hwi Hwi
                   ltac:(lia) ltac:(lia) Heq).
  - intros t Ht Ht'.
    replace (face_visits info c) with ([c] ≫= face_visits info) in Ht
      by (cbn; apply app_nil_r).
    apply (elem_of_texels info [c]) in Ht
      as (c1 & item & k & Hc1 & Hi & Hk & ->).
    apply list_elem_of_singleton in Hc1 as ->.
    apply elem_of_texels in Ht' as (c' & item' & k' & Hc' & Hi' & Hk' & Heq).
    pose proof (Forall_lookup_1 _ _ _ _ Hw Hi) as Hwi.
    pose proof (Forall_lookup_1 _ _ _ _ Hw Hi') as Hwi'.
    destruct (texels_distinct (length info) (length info) c c' item item'
                k k' (Hl _ _ Hi) (Hl _ _ Hi')) as [-> _]; try done.
    intros ->. congruence.
Qed.

(** *** Writes into the front buffer *)

Lemma write_length d f : length (write d f) = length d.
Proof.
  unfold write, set3. destruct (estimate f) as [[r g] b].
  destruct (decide _); [|done]. cbn [from_option id]. by rewrite !length_insert.
Qed.

Lemma write_unchanged d f (j : nat) :
  ¬ (offset f ≤ Z.of_nat j < offset f + 3) → write d f !! j = d !! j.
Proof.
  unfold write, offset, set3. intros Hj.
  destruct (estimate f) as [[r g] b].
  destruct (decide _) as [[H0 H3]|]; [|done]. cbn [from_option id].
  by rewrite !list_lookup_insert_ne by lia.
Qed.

Lemma write_lookup d f (c : nat) :
  0 ≤ offset f → offset f + 3 ≤ Z.of_nat (length d) → (c < 3)%nat →
  write d f !! (Z.to_nat (offset f) + c)%nat
    = Some (stored (channel (estimate f) c)).
Proof.
  unfold write, offset, set3, stored. intros H0 H3 Hc.
  destruct (estimate f) as [[r g] b].
  rewrite decide_True by done. cbn [from_option id].
  destruct c as [|[|[|c]]]; try lia; cbn [channel fst snd];
    rewrite ?list_lookup_insert_ne by lia;
    (apply lookup_insert_at; [lia|rewrite ?length_insert; lia]).
Qed.

Lemma foldl_write_length fs : ∀ d, length (foldl write d fs) = length d.
Proof.
  induction fs as [|f fs IH]; intros d; [done|].
  cbn [foldl]. by rewrite IH, write_length.
Qed.

Lemma foldl_write_unchanged fs : ∀ d (j : nat),
  (∀ f, f ∈ fs → ¬ (offset f ≤ Z.of_nat j < offset f + 3)) →
  foldl write d fs !! j = d !! j.
Proof.
  induction fs as [|f fs IH]; intros d j Hj; [done|].
  cbn [foldl]. rewrite IH by (intros g Hg; apply Hj; by right).
  apply write_unchanged, Hj. by left.
Qed.

Lemma foldl_write_lookup fs : ∀ d,
  NoDup (offset <$> fs) →
  Forall (λ f, 0 ≤ offset f ∧ offset f + 3 ≤ Z.of_nat (length d) ∧
               offset f mod 3 = 0) fs →
  ∀ f (c : nat), f ∈ fs → (c < 3)%nat →
    foldl write d fs !! (Z.to_nat (offset f) + c)%nat
      = Some (stored (channel (estimate f) c)).
Proof.
  induction fs as [|g fs IH]; intros d Hnd Hall f c Hf Hc.
  { by apply elem_of_nil in Hf. }
  rewrite fmap_cons in Hnd. apply NoDup_cons in Hnd as [Hg Hnd].
  apply Forall_cons in Hall as [(Hg0 & Hg3 & Hgm) Hall].
  cbn [foldl]. apply elem_of_cons in Hf as [->|Hf].
  - rewrite foldl_write_unchanged; [by apply write_lookup|].
    intros h Hh Hin.
    pose proof (proj1 (Forall_forall _ _) Hall h Hh) as (Hh0 & Hh3 & Hhm).
    assert (offset h ≠ offset g) as Hne.
    { intros Heq. apply Hg. rewrite <- Heq. by apply list_elem_of_fmap_2. }
    apply Z.mod_divide in Hgm as [a Ha]; [|lia].
    apply Z.mod_divide in Hhm as [b Hb]; [|lia]. lia.
  - apply IH; [done| |done..].
    eapply Forall_impl; [exact Hall|]. intros h. cbn beta.
    by rewrite write_length.
Qed.

Lemma faces_from_four_NoDup n : (4 < n)%nat → NoDup (faces_from n 4 n).
Proof.
  intros Hn. rewrite faces_from_four by done. apply NoDup_app.
  split; [apply NoDup_seq|]. split.
  - intros c Hc Hc'. apply elem_of_seq in Hc.
    repeat (apply elem_of_cons in Hc' as [->|Hc']; [lia|]).
    by apply elem_of_nil in Hc'.
  - apply NoDup_ListNoDup. repeat constructor; cbn; lia.
Qed.

(** The texels visited lie inside the atlas. *)
Lemma texel_inside info faces t :
  laid_out info → Forall walkable info → (length info ≤ 64)%nat →
  t ∈ texel_at info <$> (faces ≫= face_visits info) →
  ∃ tx ty, t = (Some tx, Some ty) ∧
           0 ≤ tx < atlasWidth ∧ 0 ≤ ty < atlasHeight.
Proof.
  intros Hl Hw Hlen Ht.
  apply elem_of_texels in Ht as (c & item & k & _ & Hi & Hk & ->).
  pose proof (Forall_lookup_1 _ _ _ _ Hw Hi) as Hwi.
  destruct (in_cell_texels c item (Hl _ _ Hi)) as (Hleft & Htop & Hc & Hr).
  destruct (texel_in_face item k Hwi Hk) as (Hx & Hy & _).
  destruct (cell_bounds c) as (Hcol & Hrow & Hsum).
  apply lookup_lt_Some in Hi.
  rewrite texel_of_visit, Hleft, Htop. eexists _, _. split; [done|].
  unfold cellSize, atlasWidth, atlasHeight. lia.
Qed.

Lemma offset_of_texel f tx ty :
  frame_texel f = (Some tx, Some ty) → offset f = (ty * atlasWidth + tx) * 3.
Proof. unfold frame_texel, offset. by intros [= -> ->]. Qed.

Lemma texel_at_geometry info info' c :
  geometry <$> info' = geometry <$> info → texel_at info' c = texel_at info c.
Proof.
  intros Hg. unfold texel_at.
  destruct (info' !! currentAtlasFaceIndex c) as [item'|] eqn:Hi'.
  - destruct (lookup_geometry _ _ _ _ Hg Hi') as (a & -> & Hga).
    symmetry. by apply texel_of_geometry.
  - assert ((geometry <$> info) !! currentAtlasFaceIndex c = None) as H.
    { by rewrite <- Hg, list_lookup_fmap, Hi'. }
    rewrite list_lookup_fmap in H.
    by destruct (info !! currentAtlasFaceIndex c).
Qed.

(** One step of the cursor on faces that lie inside the atlas, each with a
    fill count that is one of its texels. *)
Lemma advance_within info current :
  (current < length info)%nat →
  Forall (λ item, walkable item ∧ rect_ok item ∧ in_progress item) info →
  ∃ info' next c,
    advance info current = Some (info', next, c) ∧
    (next < length info')%nat ∧
    Forall (λ item, walkable item ∧ rect_ok item ∧ in_progress item) info' ∧
    ∃ tx ty,
      texel_at info c = (Some tx, Some ty) ∧
      0 ≤ texel_offset (Some tx) (Some ty) ∧
      texel_offset (Some tx) (Some ty) + 3 ≤ 3 * (atlasWidth * atlasHeight).
Proof.
  intros Hcur Hall.
  destruct (lookup_lt_is_Some_2 _ _ Hcur) as [item Hitem].
  destruct (proj1 (Forall_lookup _ _) Hall _ _ Hitem)
    as (Hwalk & Hrect & k & Hk & Hrange).
  eexists _, _, _.
  split; [exact (advance_step _ _ _ _ Hitem Hk Hrange (proj1 Hwalk))|].
  split; [|split].
  - rewrite length_insert. destruct (decide _); [|done].
    apply Nat.mod_upper_bound. lia.
  - apply Forall_insert; [done|]. split; [done|]. split; [done|].
    exists (Z.rem (k + 1) (texels item)). split; [done|].
    change (texels (set_pixelFillCount item _)) with (texels item).
    rewrite Z.rem_mod_nonneg by lia. apply Z.mod_pos_bound. lia.
  - eexists _, _. unfold texel_at. cbn [visit currentAtlasFaceIndex].
    rewrite Hitem, texel_of_visit. split; [done|].
    by apply texel_in_range.
Qed.

(** Any number of steps of the cursor, on an atlas [info0] that has the
    faces of [info], with fill counts of its own. *)
Lemma advances_within info (n : nat) : ∀ info0 current,
  geometry <$> info0 = geometry <$> info →
  (current < length info0)%nat →
  Forall (λ item, walkable item ∧ rect_ok item ∧ in_progress item) info0 →
  ∃ cs info' final,
    advances n info0 current = Some (cs, info', final) ∧
    length cs = n ∧
    is_Some (info' !! final) ∧
    Forall (λ c, ∃ tx ty,
              texel_at info c = (Some tx, Some ty) ∧
              0 ≤ texel_offset (Some tx) (Some ty) ∧
              texel_offset (Some tx) (Some ty) + 3
                ≤ 3 * (atlasWidth * atlasHeight)) cs.
Proof.
  induction n as [|n IH]; intros info0 current Hgeo Hcur Hall.
  - exists [], info0, current. split; [done|]. split; [done|].
    split; [by apply lookup_lt_is_Some_2|constructor].
  - destruct (advance_within _ _ Hcur Hall)
      as (info1 & next & c & Hadv & Hnext & Hall1 & tx & ty & Htx & Hrange).
    destruct (advance_geometry _ _ _ _ _ Hadv) as [Hg1 _].
    destruct (IH info1 next ltac:(by rewrite Hg1) Hnext Hall1)
      as (cs & info' & final & Hcs & Hn & Hsome & Hforall).
    exists (c :: cs), info', final. rewrite advances_S, Hadv.
    cbn [mbind option_bind]. rewrite Hcs. cbn [mbind option_bind].
    split; [done|]. split; [cbn [length]; by rewrite Hn|].
    split; [done|]. constructor; [|done].
    exists tx, ty. split; [|done].
    by rewrite <- Htx, (texel_at_geometry _ _ _ Hgeo).
Qed.

(** X15.  With at least five and at most 64 faces registered, each of at
    least one texel, the cursor part of the frame callback goes through at
    every frame, however many there are: the cursor points at a registered
    face (the destructuring at the top of the callback does not throw), and
    the offset that the frame computes for its write lies inside the atlas
    data (the write does not throw a RangeError).  Whether a frame renders
    then depends on what lies between the two, the geometry read for the
    probe and the renderer. *)
Theorem cursor_stays_within_the_atlas meshes info (n : nat) :
  registered meshes [] = Some info →
  (4 < length info ≤ 64)%nat →
  Forall walkable info →
  ∃ cs info' current,
    advances n info atlasFaceFillIndexRef_initial = Some (cs, info', current) ∧
    length cs = n ∧
    is_Some (info' !! current) ∧
    Forall (λ c, ∃ tx ty,
              texel_at info c = (Some tx, Some ty) ∧
              0 ≤ texel_offset (Some tx) (Some ty) ∧
              texel_offset (Some tx) (Some ty) + 3
                ≤ 3 * (atlasWidth * atlasHeight)) cs.
Proof.
  intros Hreg Hlen Hw. destruct (registered_info _ _ Hreg) as [Hl Hf].
  assert (Hall : Forall (λ item, walkable item ∧ rect_ok item ∧
                                 in_progress item) info).
  { apply Forall_lookup_2. intros i item Hi.
    pose proof (Forall_lookup_1 _ _ _ _ Hw Hi) as Hwi.
    pose proof (Forall_lookup_1 _ _ _ _ Hf Hi) as Hfi. cbn beta in Hfi.
    split; [done|]. split.
    - apply (in_cell_rect_ok i); [by apply Hl|].
      apply lookup_lt_Some in Hi. lia.
    - exists 0. split; [done|]. destruct Hwi. unfold texels. nia. }
  apply advances_within; [done| |done].
  unfold atlasFaceFillIndexRef_initial. lia.
Qed.

(** X17.  A pass over an atlas of five to 64 faces, each of at least one
    texel, starting at face 4 with no face begun: there are as many frames
    as the faces have texels, all of them render, and every texel of every
    face is visited, none of them twice.  All writes go to the first
    buffer of the stack, which then holds at each texel visited the
    estimate of the frame that visited it and is otherwise as before; the
    pass ends with the two buffers having changed places, the cursor back
    at face 4 and no face begun. *)
Theorem pass_swaps_the_buffers meshes inputs st t0 t1 :
  registered meshes [] = Some (atlasInfo st) →
  (4 < length (atlasInfo st) ≤ 64)%nat →
  Forall walkable (atlasInfo st) →
  atlasFaceFillIndexRef st = 4%nat →
  atlasStack st = [t0; t1] →
  stack_ok (atlasStack st) →
  length inputs =
    texel_count (atlasInfo st)
      (faces_from (length (atlasInfo st)) 4 (length (atlasInfo st))) →
  let fs := (ticks inputs st).1 in
  let st' := (ticks inputs st).2 in
  length fs = length inputs ∧
  NoDup (frame_texel <$> fs) ∧
  (∀ c item k,
     atlasInfo st !! c = Some item → 0 ≤ k < texels item →
     texel_of item (visit (length (atlasInfo st)) c item k)
       ∈ frame_texel <$> fs) ∧
  atlasInfo st' = atlasInfo st ∧
  atlasFaceFillIndexRef st' = 4%nat ∧
  ∃ data',
    atlasStack st' =
      [t1; {| data := data';
              version := (length inputs + version t0)%nat |}] ∧
    length data' = length (data t0) ∧
    (∀ f (c : nat), f ∈ fs → (c < 3)%nat →
       data' !! (Z.to_nat (offset f) + c)%nat
         = Some (stored (channel (estimate f) c))) ∧
    (∀ j : nat,
       (∀ f, f ∈ fs → ¬ (offset f ≤ Z.of_nat j < offset f + 3)) →
       data' !! j = data t0 !! j).
Proof.
  intros Hreg Hlen Hw Hidx Hst Hok Hin fs st'. subst fs st'.
  destruct (registered_info _ _ Hreg) as [Hl Hf].
  assert (Forall (λ item, pixelFillCount item = Some 0 ∧ walkable item ∧
                          rect_ok item) (atlasInfo st)) as Hall.
  { apply Forall_lookup_2. intros i item Hi.
    split; [exact (Forall_lookup_1 _ _ _ _ Hf Hi)|].
    split; [exact (Forall_lookup_1 _ _ _ _ Hw Hi)|].
    apply (in_cell_rect_ok i); [by apply Hl|].
    apply lookup_lt_Some in Hi. lia. }
  destruct (pass_from_four Math_cos Math_sin Math_PI inputs st Hok
              (proj1 Hlen) Hidx Hall Hin) as (Hcur & Hinfo & Hidx' & _).
  pose proof (pass_flags (atlasInfo st) (proj1 Hlen) Hw) as Hflags.
  cbn zeta in Hflags.
  set (info := atlasInfo st) in *.
  set (faces := faces_from (length info) 4 (length info)) in *.
  assert (length (ticks inputs st).1 = length inputs) as Hlenfs.
  { rewrite Hin. unfold texel_count. rewrite <- Hcur. by rewrite length_fmap. }
  assert (frame_texel <$> (ticks inputs st).1
          = texel_at info <$> (faces ≫= face_visits info)) as Htex.
  { rewrite <- Hcur, <- list_fmap_compose. apply Forall_fmap_ext_1.
    exact (ticks_texels inputs st). }
  assert (NoDup (frame_texel <$> (ticks inputs st).1)) as Hnd.
  { rewrite Htex. apply texels_NoDup; [done..|].
    apply faces_from_four_NoDup. lia. }
  assert (∀ f, f ∈ (ticks inputs st).1 →
            ∃ tx ty, frame_texel f = (Some tx, Some ty) ∧
                     0 ≤ tx < atlasWidth ∧ 0 ≤ ty < atlasHeight) as Hinside.
  { intros f Hf'. apply (texel_inside info faces); [done|done|lia|].
    rewrite <- Htex. by apply list_elem_of_fmap_2. }
  assert (Z.of_nat (length (data t0)) = 3 * (atlasWidth * atlasHeight))
    as Hsize.
  { destruct Hok as [_ Hok]. rewrite Hst in Hok.
    by apply Forall_cons in Hok as [Hok _]. }
  split; [done|]. split; [done|]. split.
  { intros c item k Hi Hk. rewrite Htex. apply elem_of_texels.
    exists c, item, k. split; [|done].
    apply lookup_lt_Some in Hi. subst faces. fold info in Hi.
    rewrite faces_from_four by lia. apply elem_of_app.
    destruct (decide (c < 4)%nat) as [Hc|Hc].
    - right. destruct c as [|[|[|[|c]]]]; [compute_done..|lia].
    - left. apply elem_of_seq. lia. }
  split; [done|]. split; [done|].
  exists (foldl write (data t0) (ticks inputs st).1).
  split; [|split; [apply foldl_write_length|split]].
  - rewrite (ticks_stack_pass _ _ _ inputs st t0 [t1] _ Hst Hlenfs)
      by (rewrite Hcur; exact Hflags).
    done.
  - intros f c Hf' Hc. apply foldl_write_lookup; [| |done..].
    + replace (offset <$> (ticks inputs st).1)
        with ((λ t : int * int, texel_offset t.1 t.2)
                <$> (frame_texel <$> (ticks inputs st).1))
        by (by rewrite <- list_fmap_compose).
      apply NoDup_fmap_2_strong; [|done].
      intros t t' Ht Ht' Heq.
      apply list_elem_of_fmap in Ht as (g & -> & Hg).
      apply list_elem_of_fmap in Ht' as (g' & -> & Hg').
      destruct (Hinside g Hg) as (tx & ty & Hgt & Hx & Hy).
      destruct (Hinside g' Hg') as (tx' & ty' & Hgt' & Hx' & Hy').
      rewrite Hgt, Hgt' in *. cbn [fst snd texel_offset] in Heq.
      unfold atlasWidth, atlasHeight in *.
      assert (tx = tx' ∧ ty = ty') as [-> ->] by lia. done.
    + apply Forall_forall. intros g Hg.
      destruct (Hinside g Hg) as (tx & ty & Hgt & Hx & Hy).
      rewrite (offset_of_texel g tx ty Hgt), Hsize.
      rewrite Z.mod_mul by lia.
      unfold atlasWidth, atlasHeight in *. lia.
  - intros j Hj. by apply foldl_write_unchanged.
Qed.

(** X25.  The point at which the probe is put on a registered face is the
    centre of the texel, measured in texels from the corner of the face
    and divided by the size of the face in texels, along both axes.  Both
    coordinates are positive, and they pass the far edges of the face by
    less than half a texel: in the last column or row they are greater
    than 1 whenever the size of the face exceeds a whole number of texels
    by less than a half. *)
Theorem probe_passes_the_edge_by_less_than_half_a_texel
    meshes info (c : nat) item k p :
  registered meshes [] = Some info →
  info !! c = Some item →
  walkable item →
  0 ≤ k < texels item →
  place item (texel_of item (visit (length info) c item k)).1
             (texel_of item (visit (length info) c item k)).2 = Some p →
  let itemSizeU := ((right item - left item) * inject_Z atlasWidth)%Q in
  let itemSizeV := ((bottom item - top item) * inject_Z atlasHeight)%Q in
  let texelX := inject_Z (Z.rem k (faceTexelCols item)) in
  let texelY := inject_Z (k / faceTexelCols item) in
  (pU p * itemSizeU == texelX + (1 # 2))%Q ∧
  (pV p * itemSizeV == texelY + (1 # 2))%Q ∧
  (0 < pU p)%Q ∧ (0 < pV p)%Q ∧
  (pU p * itemSizeU < itemSizeU + (1 # 2))%Q ∧
  (pV p * itemSizeV < itemSizeV + (1 # 2))%Q.
Proof.
  intros Hreg Hi Hw Hk Hp itemSizeU itemSizeV texelX texelY.
  rewrite texel_of_visit in Hp. cbn [fst snd] in Hp.
  destruct (registered_info _ _ Hreg) as [Hl _].
  destruct (Hl _ _ Hi) as (Hleft & Htop & _ & _).
  destruct (in_cell_texels c item (Hl _ _ Hi)) as (Hfl & Hft & _ & _).
  destruct (texel_in_face item k Hw Hk) as (Hx & Hy & _).
  destruct (place_coordinates _ _ _ _ Hp) as (HsU & HsV & HpU & HpV).
  assert (left item * inject_Z atlasWidth
          == inject_Z (Qfloor (left item * inject_Z atlasWidth)))%Q as Hlz.
  { rewrite Hfl, Hleft. unfold cellSize, atlasWidth.
    rewrite inject_Z_mult. change (inject_Z 128) with (128 # 1)%Q.
    change (inject_Z 16) with (16 # 1)%Q. field. }
  assert (top item * inject_Z atlasWidth
          == inject_Z (Qfloor (top item * inject_Z atlasWidth)))%Q as Htz.
  { rewrite Hft, Htop. unfold cellSize, atlasWidth.
    rewrite inject_Z_mult. change (inject_Z 128) with (128 # 1)%Q.
    change (inject_Z 16) with (16 # 1)%Q. field. }
  destruct (centre_bounds itemSizeU (Z.rem k (faceTexelCols item)) (pU p))
    as (? & ? & ?); [exact Hx|exact HsU| |].
  { rewrite HpU. fold itemSizeU. rewrite inject_Z_plus.
    apply Qdiv_comp; [|reflexivity]. rewrite Hlz at 2. ring. }
  destruct (centre_bounds itemSizeV (k / faceTexelCols item) (pV p))
    as (? & ? & ?); [exact Hy|exact HsV| |].
  { rewrite HpV. fold itemSizeV. rewrite inject_Z_plus.
    apply Qdiv_comp; [|reflexivity]. rewrite Htz at 2. ring. }
  done.
Qed.

Lemma length_bind_bounds {A B} (f : A → list B) (a b : nat) (l : list A) :
  (∀ x, x ∈ l → (a ≤ length (f x) ≤ b)%nat) →
  (a * length l ≤ length (l ≫= f) ≤ b * length l)%nat.
Proof.
  induction l as [|x l IH]; intros H; [cbn; lia|].
  rewrite bind_cons, length_app. cbn [length].
  specialize (H x (list_elem_of_here _ _)) as Hx.
  assert (a * length l ≤ length (l ≫= f) ≤ b * length l)%nat
    by (apply IH; intros y Hy; apply H; by right).
  lia.
Qed.

(** X26.  A pass over registered faces, each of at least one texel, takes
    at least one frame and at most 169 frames per face. *)
Theorem pass_takes_at_most_169_frames_per_face meshes info :
  registered meshes [] = Some info →
  Forall walkable info →
  let faces := faces_from (length info) 4 (length info) in
  (length info ≤ texel_count info faces ≤ 169 * length info)%nat.
Proof.
  intros Hreg Hw faces.
  destruct (registered_info _ _ Hreg) as [Hl _].
  assert (length faces = length info) as Hfaces.
  { subst faces. unfold faces_from. by rewrite length_fmap, length_seq. }
  unfold texel_count.
  pose proof (length_bind_bounds (face_visits info) 1 169 faces) as Hb.
  rewrite Hfaces in Hb. rewrite Nat.mul_1_l in Hb.
  apply Hb. intros c Hc.
  subst faces. unfold faces_from in Hc.
  apply list_elem_of_fmap in Hc as (j & -> & Hj). apply elem_of_seq in Hj.
  assert ((4 + j) mod length info < length info)%nat as Hlt
    by (apply Nat.mod_upper_bound; lia).
  destruct (lookup_lt_is_Some_2 info _ Hlt) as [item Hi].
  unfold face_visits. rewrite Hi, length_fmap, length_seqZ.
  destruct (in_cell_texels _ item (Hl _ _ Hi)) as (_ & _ & Hc & Hr).
  destruct (Forall_lookup_1 _ _ _ _ Hw Hi) as [Hc0 Hr0].
  unfold texels. nia.
Qed.

End Passes.

Lemma mesh_faces_are_registered_witness :
  ∃ items uv',
    useMeshWithAtlas sqrt_at_1 [] in_place (Some strip) strip_uv
      = Some ([] ++ items, uv') ∧
    length items = 5%nat.
Proof.
  destruct (mesh_faces_are_registered sqrt_at_1 [] in_place strip strip_uv 5)
    as (items & uv' & H & Hn & _).
  - reflexivity.
  - by exists items, uv'.
Defined.

Lemma faces_lie_in_disjoint_cells_witness :
  ∃ item,
    strip_faces !! 4%nat = Some item ∧
    Qfloor (left item * inject_Z atlasWidth) = cellSize * cellColumn 4 ∧
    rect_ok item.
Proof.
  assert (∃ item, strip_faces !! 4%nat = Some item) as [item Hi]
    by (vm_compute; eexists; reflexivity).
  exists item. split; [exact Hi|].
  destruct (faces_lie_in_disjoint_cells sqrt_at_1
              [(in_place, strip, strip_uv)] strip_faces) as [H _].
  - vm_compute. reflexivity.
  - destruct (H 4%nat item Hi) as (_ & Hleft & _ & _ & _ & Hrect).
    split; [exact Hleft|]. apply Hrect. lia.
Defined.

Lemma cursor_stays_within_the_atlas_witness :
  ∃ cs info' current,
    advances 100 strip_faces 4 = Some (cs, info', current) ∧
    length cs = 100%nat ∧
    is_Some (info' !! current).
Proof.
  destruct (cursor_stays_within_the_atlas sqrt_at_1
              [(in_place, strip, strip_uv)] strip_faces 100)
    as (cs & info' & current & H & Hn & Hc & _).
  - vm_compute. reflexivity.
  - vm_compute. lia.
  - repeat constructor.
  - exists cs, info', current. split; [exact H|]. split; [exact Hn|exact Hc].
Defined.

Lemma face_beyond_capacity_throws_witness :
  ∃ item,
    pile_faces !! 64%nat = Some item ∧
    raised (tick cos_at_0 sin_at_0 pi_rounded 0 faint_red
              (at_face 64 (initial pile_faces))) = Some RangeError.
Proof.
  assert (∃ item, pile_faces !! 64%nat = Some item) as [item Hi]
    by (vm_compute; eexists; reflexivity).
  exists item. split; [exact Hi|].
  assert (item = {| mesh := in_place; buffer := pile; faceIndex := 64;
                    left := left item; top := top item;
                    right := right item; bottom := bottom item;
                    pixelFillCount := Some 0 |} ∧ walkable item ∧
          0 < texels item) as (Hitem & Hw & Ht).
  { vm_compute in Hi. injection Hi as <-. vm_compute. by repeat split. }
  destruct (face_beyond_capacity_throws cos_at_0 sin_at_0 sqrt_at_1
              pi_rounded [(in_place, pile, pile_uv)] pile_faces 0 faint_red
              (at_face 64 (initial pile_faces)) item 0) as [H _].
  - vm_compute. reflexivity.
  - reflexivity.
  - exact Hi.
  - cbn. lia.
  - apply initial_stack_ok.
  - exact Hw.
  - by rewrite Hitem.
  - lia.
  - exact H.
Defined.

Lemma pass_swaps_the_buffers_witness :
  NoDup (frame_texel <$>
           (ticks cos_at_0 sin_at_0 pi_rounded strip_pass
              (initial strip_faces)).1).
Proof.
  destruct (pass_swaps_the_buffers cos_at_0 sin_at_0 sqrt_at_1 pi_rounded
              [(in_place, strip, strip_uv)] strip_pass (initial strip_faces)
              (createAtlasTexture atlasWidth atlasHeight true)
              (createAtlasTexture atlasWidth atlasHeight false))
    as (_ & H & _).
  - vm_compute. reflexivity.
  - vm_compute. lia.
  - repeat constructor.
  - reflexivity.
  - reflexivity.
  - apply initial_stack_ok.
  - vm_compute. reflexivity.
  - exact H.
Defined.

Lemma probe_passes_the_edge_by_less_than_half_a_texel_witness :
  ∃ item p,
    wide_faces !! 0%nat = Some item ∧
    place item (Some 5) (Some 0) = Some p ∧
    (1 < pU p)%Q ∧
    (pU p * ((right item - left item) * inject_Z atlasWidth)
       < (right item - left item) * inject_Z atlasWidth + (1 # 2))%Q.
Proof.
  assert (∃ item, wide_faces !! 0%nat = Some item) as [item Hi]
    by (vm_compute; eexists; reflexivity).
  assert (∃ p, place item (Some 5) (Some 0) = Some p ∧ (1 < pU p)%Q)
    as (p & Hp & Hover).
  { vm_compute in Hi. injection Hi as <-.
    eexists. split; vm_compute; reflexivity. }
  exists item, p. split; [exact Hi|]. split; [exact Hp|].
  split; [exact Hover|].
  assert (walkable item ∧ 0 ≤ 5 < texels item ∧
          texel_of item (visit (length wide_faces) 0 item 5)
            = (Some 5, Some 0)) as (Hw & Hk & Ht).
  { vm_compute in Hi. injection Hi as <-. vm_compute.
    repeat split; discriminate. }
  destruct (probe_passes_the_edge_by_less_than_half_a_texel sqrt_at_4
              [(in_place, wide, [0; 1;  1; 1;  0; 0;  1; 0]%Q)]
              wide_faces 0 item 5 p) as (_ & _ & _ & _ & H & _).
  - vm_compute. reflexivity.
  - exact Hi.
  - exact Hw.
  - exact Hk.
  - rewrite Ht. exact Hp.
  - exact H.
Defined.

Lemma pass_takes_at_most_169_frames_per_face_witness :
  (texel_count strip_faces (faces_from 5 4 5) ≤ 169 * 5)%nat.
Proof.
  destruct (pass_takes_at_most_169_frames_per_face sqrt_at_1
              [(in_place, strip, strip_uv)] strip_faces) as [_ H].
  - vm_compute. reflexivity.
  - repeat constructor.
  - exact H.
Defined.

End AtlasMore.

(** * More properties of the compositor *)

Module CompositorMore.
Import IrradianceCompositor.
Import CompositorFacts.

Lemma lookup_constant_map {A} (names : list string) (a : A) name :
  (list_to_map ((λ k, (k, a)) <$> names) : gmap string A) !! name =
    if decide (name ∈ names) then Some a else None.
Proof.
  induction names as [|k names IH].
  - rewrite decide_False by apply not_elem_of_nil. apply lookup_empty.
  - cbn [fmap list_fmap list_to_map foldr]. destruct (decide (k = name)) as [->|Hne].
    + rewrite lookup_insert_eq. rewrite decide_True by left. done.
    + rewrite lookup_insert_ne by done. rewrite IH.
      destruct (decide (name ∈ names)) as [Hin|Hin].
      * rewrite decide_True by (by right). done.
      * rewrite decide_False; [done|].
        intros [->|?]%elem_of_cons; done.
Qed.

(** X18.  What a renderer gets from a freshly mounted compositor: an error
    outside any compositor; the base buffer for no factor name and for the
    empty name, even when a factor has the empty name; for any other name
    among the factor names, that factor's buffer, four zeroed floats per
    texel; for a name that is neither a factor nor a member of
    [Object.prototype], the unknown-factor error; and for a member of
    [Object.prototype] that is no factor, no error at all.  (A factor
    named [__proto__] would replace the prototype of the map of buffers,
    and is left out.) *)
Theorem renderer_data_of_mounted_compositor width height names renderer :
  "__proto__" ∉ names →
  let ctx := mount width height names renderer in
  (∀ factorName,
     useIrradianceRendererData None factorName
       = inl MustBePlacedUnderCompositor) ∧
  (∀ factorName,
     factorName = None ∨ factorName = Some "" →
     useIrradianceRendererData (Some ctx) factorName
       = inr (Layer (baseArray ctx))) ∧
  (∀ name,
     name ≠ "" → name ∈ names →
     useIrradianceRendererData (Some ctx) (Some name)
       = inr (Layer (replicate (4 * (width * height)) 0%Q))) ∧
  (∀ name,
     name ≠ "" → name ∉ names → name ∉ Object_prototype →
     useIrradianceRendererData (Some ctx) (Some name)
       = inl (UnknownFactor name)) ∧
  (∀ name,
     name ∉ names → name ∈ Object_prototype →
     useIrradianceRendererData (Some ctx) (Some name)
       = inr (Inherited name)).
Proof.
  intros _ ctx. subst ctx. unfold useIrradianceRendererData, mount.
  cbn [baseArray factorArrays].
  split; [done|]. split; [by intros ? [->| ->]|].
  split; [|split]; intros name.
  - intros Hne Hin. rewrite decide_False by done.
    by rewrite lookup_constant_map, decide_True.
  - intros Hne Hin Hp. rewrite decide_False by done.
    rewrite lookup_constant_map, decide_False by done.
    by rewrite decide_False.
  - intros Hin Hp. rewrite decide_False.
    + rewrite lookup_constant_map, decide_False by done.
      by rewrite decide_True.
    + intros ->. revert Hp. compute_done.
Qed.

Lemma renderer_data_of_mounted_compositor_witness :
  useIrradianceRendererData
    (Some (mount 2 1 ["sun"; ""] new_renderer))
    (Some "sun") = inr (Layer (replicate 8 0%Q)) ∧
  useIrradianceRendererData
    (Some (mount 2 1 ["sun"; ""] new_renderer))
    (Some "moon") = inl (UnknownFactor "moon") ∧
  useIrradianceRendererData
    (Some (mount 2 1 ["sun"; ""] new_renderer))
    (Some "valueOf") = inr (Inherited "valueOf").
Proof.
  destruct (renderer_data_of_mounted_compositor 2 1 ["sun"; ""]
              new_renderer)
    as (_ & _ & Hown & Hunknown & Hinherited); [compute_done|].
  split; [|split].
  - apply (Hown "sun"); [done|compute_done].
  - apply (Hunknown "moon"); [done|compute_done..].
  - apply (Hinherited "valueOf"); compute_done.
Defined.

(** ** Frame after frame *)

Lemma useFrame_fixed factors st :
  lightMapWidth (useFrame factors st) = lightMapWidth st ∧
  lightMapHeight (useFrame factors st) = lightMapHeight st ∧
  factorNames (useFrame factors st) = factorNames st ∧
  orthoSceneRef (useFrame factors st) = orthoSceneRef st ∧
  baseArray (useFrame factors st) = baseArray st ∧
  factorArrays (useFrame factors st) = factorArrays st ∧
  clearColor (gl (useFrame factors st)) = clearColor (gl st).
Proof.
  unfold useFrame. destruct (orthoSceneRef st) eqn:H; [|done].
  by cbn.
Qed.

Lemma frames_snoc props factors st :
  frames (props ++ [factors]) st = useFrame factors (frames props st).
Proof. unfold frames. by rewrite foldl_app. Qed.

Lemma frames_fixed props st :
  lightMapWidth (frames props st) = lightMapWidth st ∧
  lightMapHeight (frames props st) = lightMapHeight st ∧
  factorNames (frames props st) = factorNames st ∧
  orthoSceneRef (frames props st) = orthoSceneRef st ∧
  baseArray (frames props st) = baseArray st ∧
  factorArrays (frames props st) = factorArrays st ∧
  clearColor (gl (frames props st)) = clearColor (gl st).
Proof.
  induction props as [|factors props IH] using rev_ind; [done|].
  rewrite frames_snoc.
  destruct (useFrame_fixed factors (frames props st))
    as (-> & -> & -> & -> & -> & -> & ->).
  exact IH.
Qed.

(** X19.  The multiplier that scales a factor layer after any number of
    frames is the last non-zero number given for that factor in the
    [factors] prop of one of these frames, and what it was before them if
    there was none; for a name that is not among the factor names read on
    mount it never changes.  (A name that is also a member of
    [Object.prototype] is left out: where [factors] has no such key, the
    lookup finds the inherited member.) *)
Theorem multiplier_is_the_last_nonzero_one props st name :
  orthoSceneRef st = true →
  name ∉ Object_prototype →
  factorMultiplier (frames props st) !! name =
    if decide (name ∈ factorNames st) then
      match last (omap (λ factors, truthy_multiplier factors name) props) with
      | Some m => Some m
      | None => factorMultiplier st !! name
      end
    else factorMultiplier st !! name.
Proof.
  intros Hm _. induction props as [|factors props IH] using rev_ind.
  { cbn. by destruct (decide _). }
  rewrite frames_snoc.
  destruct (frames_fixed props st) as (_ & _ & Hn & Hs & _).
  unfold useFrame at 1. rewrite Hs, Hm. cbn [factorMultiplier].
  rewrite update_multipliers_lookup, Hn, IH, omap_app.
  cbn [omap list_omap].
  destruct (truthy_multiplier factors name) as [m|].
  - destruct (decide (name ∈ factorNames st)); [|done].
    by rewrite last_snoc.
  - by rewrite app_nil_r.
Qed.

Lemma multiplier_is_the_last_nonzero_one_witness :
  factorMultiplier
    (frames [Some {["sun" := 2%Q]}; Some {["sun" := 0%Q]}; None]
       (sample black 1)) !! "sun" = Some 2%Q.
Proof.
  rewrite (multiplier_is_the_last_nonzero_one
             [Some {["sun" := 2%Q]}; Some {["sun" := 0%Q]}; None]
             (sample black 1) "sun").
  - reflexivity.
  - reflexivity.
  - compute_done.
Defined.

Lemma update_multipliers_idemp factors names uniforms :
  update_multipliers factors names (update_multipliers factors names uniforms)
    = update_multipliers factors names uniforms.
Proof.
  apply map_eq. intros name. rewrite !update_multipliers_lookup.
  destruct (truthy_multiplier factors name); [|done].
  by destruct (decide _).
Qed.

(** X20.  Frames do not accumulate: running the frame callback again with
    the same [factors] changes nothing, buffers, uniforms and output
    included; and no frame ever touches the layer buffers, the factor
    names, the size or the clear colour. *)
Theorem frames_do_not_accumulate factors props st :
  useFrame factors (useFrame factors st) = useFrame factors st ∧
  baseArray (frames props st) = baseArray st ∧
  factorArrays (frames props st) = factorArrays st ∧
  factorNames (frames props st) = factorNames st ∧
  lightMapWidth (frames props st) = lightMapWidth st ∧
  lightMapHeight (frames props st) = lightMapHeight st ∧
  clearColor (gl (frames props st)) = clearColor (gl st).
Proof.
  destruct (frames_fixed props st) as (? & ? & ? & ? & ? & ? & ?).
  split; [|done].
  unfold useFrame. destruct (orthoSceneRef st) eqn:Hs; [|by rewrite Hs].
  cbn [orthoSceneRef lightMapWidth lightMapHeight factorNames baseArray
       factorArrays factorMultiplier gl clearColor].
  rewrite update_multipliers_idemp. done.
Qed.

End CompositorMore.

(** * Properties of the scene manager *)

Module SceneManagerFacts.
Import IrradianceSceneManager.

(** ** The staging registry *)

Lemma delete_item_fresh (items : Items) key :
  key ∉ items.*1 → delete_item items key = items.
Proof.
  unfold delete_item. induction items as [|[k v] items IH]; [done|].
  rewrite fmap_cons, not_elem_of_cons. intros [Hne Hin].
  rewrite filter_cons_True by (cbn in *; congruence). by rewrite IH.
Qed.

Lemma delete_item_keys (items : Items) key :
  key ∉ (delete_item items key).*1.
Proof.
  unfold delete_item. induction items as [|[k v] items IH].
  - apply not_elem_of_nil.
  - destruct (decide (k = key)) as [->|Hne].
    + by rewrite filter_cons_False by (cbn; tauto).
    + rewrite filter_cons_True by done. rewrite fmap_cons, not_elem_of_cons.
      split; [cbn; congruence|done].
Qed.

Lemma delete_item_app (a b : Items) key :
  delete_item (a ++ b) key = delete_item a key ++ delete_item b key.
Proof. apply filter_app. Qed.

Lemma set_item_fresh (items : Items) key item :
  key ∉ items.*1 → set_item items key item = items ++ [(key, item)].
Proof. intros H. unfold set_item. by rewrite decide_False. Qed.

Lemma delete_set_fresh (items : Items) key item :
  key ∉ items.*1 → delete_item (set_item items key item) key = items.
Proof.
  intros H. rewrite set_item_fresh, delete_item_app by done.
  rewrite delete_item_fresh by done. unfold delete_item.
  rewrite filter_cons_False by (cbn; tauto). apply app_nil_r.
Qed.

Lemma useMeshRegister_mount props mesh material (items : Items) :
  props_mesh props = Some mesh →
  props_material props = Some material →
  useMeshRegister unused props items =
    ({| deps := Some (deps_of props); pending := Some (uuid mesh) |},
     set_item items (uuid mesh)
       {| mesh := mesh; material := material;
          isMapped := props_isMapped props |}).
Proof.
  intros Hmesh Hmat. unfold useMeshRegister, unused, effect.
  cbn [deps pending cleanup]. rewrite decide_False by done.
  by rewrite Hmesh, Hmat.
Qed.

(** X21.  Mounting a component that registers a mesh under a uuid not yet
    in the registry adds the mesh at the end of the staged items, with the
    material and the mapping flag of this render, and unmounting the
    component leaves the registry as it was before.  Whatever was in the
    registry, nothing is staged under the uuid after the unmount. *)
Theorem registration_round_trip props mesh material (items : Items) :
  props_mesh props = Some mesh →
  props_material props = Some material →
  let registered := useMeshRegister unused props items in
  (uuid mesh ∉ items.*1 →
   Object_values registered.2 =
     Object_values items ++
       [{| mesh := mesh; material := material;
           isMapped := props_isMapped props |}] ∧
   unmount registered.1 registered.2 = items) ∧
  uuid mesh ∉ (unmount registered.1 registered.2).*1.
Proof.
  intros Hmesh Hmat registered. subst registered.
  rewrite (useMeshRegister_mount _ _ _ _ Hmesh Hmat).
  cbn [fst snd unmount pending cleanup]. split.
  - intros Hfresh. split; [|by apply delete_set_fresh].
    rewrite set_item_fresh by done. unfold Object_values.
    by rewrite fmap_app.
  - apply delete_item_keys.
Qed.

Lemma registration_round_trip_witness :
  unmount (useMeshRegister unused (floor_props true)
             (useMeshRegister unused lamp_props []).2).1
          (useMeshRegister unused (floor_props true)
             (useMeshRegister unused lamp_props []).2).2
    = (useMeshRegister unused lamp_props []).2.
Proof.
  destruct (registration_round_trip (floor_props true) floor 7%nat
              (useMeshRegister unused lamp_props []).2) as [[_ H] _].
  - reflexivity.
  - reflexivity.
  - compute_done.
  - exact H.
Defined.

(** X22.  A render that changes the mapping flag alone registers nothing:
    the effect does not run again, the staged item keeps the flag of the
    render that staged it, and that flag is what a snapshot taken
    afterwards reports as [needsLightMap]. *)
Theorem mapping_flag_alone_is_not_registered
    props props' mesh material (items : Items) prev :
  props_mesh props = Some mesh →
  props_material props = Some material →
  uuid mesh ∉ items.*1 →
  deps_of props' = deps_of props →
  let first := useMeshRegister unused props items in
  let second := useMeshRegister first.1 props' first.2 in
  second = first ∧
  last (IrradianceSceneManager.items (startHandler second.2 prev)) =
    Some {| item := {| mesh := mesh; material := material;
                       isMapped := props_isMapped props |};
            needsLightMap := props_isMapped props |}.
Proof.
  intros Hmesh Hmat Hfresh Hdeps first second. subst second first.
  rewrite (useMeshRegister_mount _ _ _ _ Hmesh Hmat). cbn [fst snd].
  unfold useMeshRegister. cbn [deps]. rewrite Hdeps.
  rewrite decide_True by done. split; [done|].
  cbn [snd]. rewrite set_item_fresh by done.
  unfold startHandler, Object_values. cbn [IrradianceSceneManager.items].
  rewrite !fmap_app. cbn [fmap list_fmap snd isMapped]. apply last_snoc.
Qed.

Lemma mapping_flag_alone_is_not_registered_witness :
  last (IrradianceSceneManager.items
          (startHandler
             (useMeshRegister (useMeshRegister unused (floor_props true) []).1
                (floor_props false)
                (useMeshRegister unused (floor_props true) []).2).2
             None)) =
    Some {| item := {| mesh := floor; material := 7%nat; isMapped := true |};
            needsLightMap := true |}.
Proof.
  destruct (mapping_flag_alone_is_not_registered (floor_props true)
              (floor_props false) floor 7%nat [] None) as [_ H].
  - reflexivity.
  - reflexivity.
  - compute_done.
  - reflexivity.
  - exact H.
Defined.

(** X23.  A render with another material registers the mesh anew: the old
    entry is deleted and the new one added at the end, so that the mesh
    is now the last of the staged items, wherever it was before. *)
Theorem new_material_moves_the_mesh_to_the_end
    props mesh material material' old (before after : Items) :
  props_mesh props = Some mesh →
  props_material props = Some material' →
  material' ≠ material →
  uuid mesh ∉ before.*1 → uuid mesh ∉ after.*1 →
  let hook := {| deps := Some (Some (uuid mesh), Some material);
                 pending := Some (uuid mesh) |} in
  (useMeshRegister hook props (before ++ (uuid mesh, old) :: after)).2 =
    before ++ after ++
      [(uuid mesh, {| mesh := mesh; material := material';
                      isMapped := props_isMapped props |})].
Proof.
  intros Hmesh Hmat Hne Hb Ha hook. subst hook.
  unfold useMeshRegister, deps_of, effect. cbn [deps pending cleanup].
  rewrite Hmesh, Hmat. cbn [fmap option_fmap option_map].
  rewrite decide_False by congruence. cbn [snd].
  rewrite delete_item_app. unfold delete_item at 2.
  rewrite filter_cons_False by (cbn; tauto).
  fold (delete_item after (uuid mesh)).
  rewrite !delete_item_fresh by done.
  rewrite set_item_fresh; [by rewrite <- app_assoc|].
  rewrite fmap_app, elem_of_app. tauto.
Qed.

Lemma new_material_moves_the_mesh_to_the_end_witness :
  Object_values
    (useMeshRegister
       {| deps := Some (Some (uuid floor), Some 7%nat);
          pending := Some (uuid floor) |}
       {| props_mesh := Some floor; props_material := Some 9%nat;
          props_isMapped := true |}
       ([] ++ (uuid floor,
               {| mesh := floor; material := 7%nat; isMapped := true |})
           :: (useMeshRegister unused lamp_props []).2)).2
  = [{| mesh := lamp; material := 8%nat; isMapped := false |};
     {| mesh := floor; material := 9%nat; isMapped := true |}].
Proof.
  etransitivity.
  { apply (f_equal Object_values).
    apply (new_material_moves_the_mesh_to_the_end
             {| props_mesh := Some floor; props_material := Some 9%nat;
                props_isMapped := true |}
             floor 7%nat 9%nat
             {| mesh := floor; material := 7%nat; isMapped := true |}
             [] (useMeshRegister unused lamp_props []).2);
      [reflexivity|reflexivity|done|compute_done|compute_done]. }
  reflexivity.
Defined.

(** ** From a snapshot to a workbench *)

Lemma first_scene_nearest ancestors scene :
  first_scene ancestors = Some scene →
  isScene scene = true ∧
  ∃ nearer farther,
    ancestors = nearer ++ scene :: farther ∧
    Forall (λ object, isScene object = false) nearer.
Proof.
  induction ancestors as [|object rest IH]; [done|].
  cbn [first_scene]. destruct (isScene object) eqn:Hs.
  - intros [= <-]. split; [done|]. by exists [], rest.
  - intros H. destruct (IH H) as (Hscene & nearer & farther & -> & Hnearer).
    split; [done|]. exists (object :: nearer), farther.
    split; [done|]. by constructor.
Qed.

Lemma starts_snoc stages stage :
  starts (stages ++ [stage]) = Some (startHandler stage (starts stages)).
Proof. unfold starts. by rewrite foldl_app. Qed.

Lemma starts_id stages :
  default 0%nat (id <$> starts stages) = length stages.
Proof.
  induction stages as [|stage stages IH] using rev_ind; [done|].
  rewrite starts_snoc, length_app. cbn [length fmap option_fmap option_map
    default from_option startHandler id].
  destruct (starts stages) as [prev|]; cbn in IH |- *; lia.
Qed.

(** X24.  The workbench that the completion of the atlas map produces:
    with no snapshot taken, the handler throws "unexpected early call";
    with a snapshot of an empty registry, a [TypeError]; otherwise it
    looks for the scene among the ancestors of the first staged mesh only,
    throws "could not get light scene reference" if there is none, and
    else delivers the nearest one, together with the items of the
    snapshot, in staging order and each needing a light map if and only
    if it was staged as mapped, and with the number of starts so far as
    its id. *)
Theorem workbench_of_the_latest_snapshot
    {AtlasMap} stages (stage : Items) (atlasMap : AtlasMap) :
  let snapshot :=
    (λ item, {| item := item; needsLightMap := isMapped item |})
      <$> Object_values stage in
  atlasMapHandler (starts []) atlasMap = inl UnexpectedEarlyCall ∧
  (stage = [] →
   atlasMapHandler (starts (stages ++ [stage])) atlasMap = inl TypeError) ∧
  (∀ first rest,
     Object_values stage = first :: rest →
     match first_scene (ancestors (mesh first)) with
     | None =>
         atlasMapHandler (starts (stages ++ [stage])) atlasMap
           = inl CouldNotGetLightSceneReference
     | Some scene =>
         atlasMapHandler (starts (stages ++ [stage])) atlasMap
           = inr {| workbench_id := S (length stages);
                    lightScene := scene;
                    lightSceneItems := snapshot;
                    atlasMap := atlasMap |} ∧
         isScene scene = true ∧
         ∃ nearer farther,
           ancestors (mesh first) = nearer ++ scene :: farther ∧
           Forall (λ object, isScene object = false) nearer
     end).
Proof.
  intros snapshot. subst snapshot. split; [done|].
  rewrite starts_snoc. unfold atlasMapHandler, startHandler.
  cbn [IrradianceSceneManager.items id]. split.
  - by intros ->.
  - intros first rest ->. cbn [fmap list_fmap item].
    destruct (first_scene (ancestors (mesh first))) as [scene|] eqn:Hs;
      [|done].
    split; [|by apply first_scene_nearest].
    do 2 f_equal. pose proof (starts_id stages) as Hid.
    destruct (starts stages) as [prev|]; cbn in Hid |- *; lia.
Qed.

Lemma workbench_of_the_latest_snapshot_witness :
  atlasMapHandler
    (starts ([[]; []] ++ [(useMeshRegister unused (floor_props true) []).2]))
    tt
  = inr {| workbench_id := 3;
           lightScene := room;
           lightSceneItems :=
             [{| item := {| mesh := floor; material := 7%nat;
                            isMapped := true |};
                 needsLightMap := true |}];
           atlasMap := tt |}.
Proof.
  destruct (workbench_of_the_latest_snapshot [[]; []]
              (useMeshRegister unused (floor_props true) []).2 tt)
    as (_ & _ & H).
  destruct (H {| mesh := floor; material := 7%nat; isMapped := true |} [])
    as [H' _].
  - reflexivity.
  - exact H'.
Defined.

End SceneManagerFacts.
